(** * Retrieval-augmented chat pipeline of the AIME knowledge hub

    A shallow embedding of [src/app/api/chat/route.ts]: the concept
    enhancer, the candidate adapters and merger of [searchSimilarChunks],
    the fact extractor, the answer generator and the [POST] handler,
    followed by the properties of the specification that concern them.

    JavaScript strings are modelled as [string]: sequences of 8-bit code
    units (ASCII and Latin-1).  Numbers used as scores are [Q]: every
    finite double is a rational and the merger's comparator only looks at
    the sign of a difference. *)

From Stdlib Require Import String Ascii List ZArith QArith Lia Bool DecimalString.
From stdpp Require Import gmap strings list.

Open Scope string_scope.

(** ** JavaScript string primitives *)

Module Js.

(** The double-quote character, for template literals that contain it. *)
Definition dquote : string := String "034"%char EmptyString.

(** Line feed, as written [\n] in the source. *)
Definition nl : string := String "010"%char EmptyString.

Definition code (c : ascii) : nat := nat_of_ascii c.

Definition between (lo hi : nat) (c : ascii) : bool :=
  (lo <=? code c)%nat && (code c <=? hi)%nat.

Definition isUpper (c : ascii) : bool := between 65 90 c.
Definition isLower (c : ascii) : bool := between 97 122 c.
Definition isDigit (c : ascii) : bool := between 48 57 c.

(** [\w] of a regular expression without the unicode flag. *)
Definition isWord (c : ascii) : bool :=
  isUpper c || isLower c || isDigit c || (code c =? 95)%nat.

(** White space and line terminators below U+0100: TAB, LF, VT, FF, CR,
    SP and NBSP.  This is both [\s] and what [trim] removes. *)
Definition isSpace (c : ascii) : bool :=
  between 9 13 c || (code c =? 32)%nat || (code c =? 160)%nat.

(** [toLowerCase] on one code unit: A-Z, and the Latin-1 capitals
    U+00C0-U+00DE except the multiplication sign U+00D7. *)
Definition lowerChar (c : ascii) : ascii :=
  if isUpper c || (between 192 222 c && negb (code c =? 215)%nat)
  then ascii_of_nat (code c + 32)
  else c.

Fixpoint toLowerCase (s : string) : string :=
  match s with
  | EmptyString => EmptyString
  | String c s' => String (lowerChar c) (toLowerCase s')
  end.

Fixpoint startsWith (s p : string) {struct p} : bool :=
  match p with
  | EmptyString => true
  | String a p' =>
      match s with
      | EmptyString => false
      | String b s' => Ascii.eqb a b && startsWith s' p'
      end
  end.

(** [s.includes(needle)] *)
Fixpoint includes (s needle : string) : bool :=
  startsWith s needle ||
  match s with
  | EmptyString => false
  | String _ s' => includes s' needle
  end.

(** [s.trimStart()] *)
Fixpoint trimStart (s : string) : string :=
  match s with
  | EmptyString => EmptyString
  | String c s' => if isSpace c then trimStart s' else s
  end.

(** [s.trimEnd()] *)
Fixpoint trimEnd (s : string) : string :=
  match s with
  | EmptyString => EmptyString
  | String c s' =>
      match trimEnd s' with
      | EmptyString => if isSpace c then EmptyString else String c EmptyString
      | r => String c r
      end
  end.

(** [s.trim()] *)
Definition trim (s : string) : string := trimEnd (trimStart s).

(** [s.substring(0, n)] and [s.slice(0, n)] for [n >= 0]. *)
Fixpoint takeStr (n : nat) (s : string) : string :=
  match n, s with
  | S n', String c s' => String c (takeStr n' s')
  | _, _ => EmptyString
  end.

Fixpoint dropStr (n : nat) (s : string) : string :=
  match n, s with
  | S n', String _ s' => dropStr n' s'
  | _, _ => s
  end.

(** [parts.join(sep)] *)
Fixpoint join (sep : string) (parts : list string) : string :=
  match parts with
  | [] => EmptyString
  | [p] => p
  | p :: rest => p ++ sep ++ join sep rest
  end.

(** [arr.includes(x)] on an array of strings. *)
Definition arrIncludes (arr : list string) (x : string) : bool :=
  existsb (String.eqb x) arr.

(** [Array.from(new Set(arr))]: first occurrences, in insertion order. *)
Fixpoint uniqFrom (seen : list string) (arr : list string) : list string :=
  match arr with
  | [] => []
  | x :: rest =>
      if arrIncludes seen x then uniqFrom seen rest
      else x :: uniqFrom (seen ++ [x]) rest
  end.

Definition uniq (arr : list string) : list string := uniqFrom [] arr.

(** Truthiness of an optional string: [undefined], [null] and the empty
    string are falsy. *)
Definition truthy (o : option string) : bool :=
  match o with
  | Some (String _ _) => true
  | _ => false
  end.

End Js.

(** ** Concept enhancer *)

Module Concepts.
Import Js.

(** [findQueryConcepts] *)
Definition findQueryConcepts (query : string) : list string :=
  let queryLower := toLowerCase query in
  (if includes queryLower "hoodie" || includes queryLower "economics"
   then ["Hoodie Economics"] else []) ++
  (if includes queryLower "relational"
   then ["Community-Centered Economics"] else []) ++
  (if includes queryLower "indigenous" || includes queryLower "cultural"
   then ["Indigenous Knowledge Integration"] else []) ++
  (if includes queryLower "digital" || includes queryLower "recognition"
   then ["Digital Hoodies Recognition System"] else []) ++
  (if includes queryLower "business" || includes queryLower "cases"
   then ["Relational Value Metrics"] else []) ++
  (if includes queryLower "scale" || includes queryLower "impact"
   then ["Scaling Impact Models"] else []).

(** The [switch] of [findRelatedConcepts]: what one matched concept
    pushes. *)
Definition adjacency (concept : string) : list string :=
  if String.eqb concept "Hoodie Economics"
  then ["Community-Centered Economics"; "Relational Leadership"]
  else if String.eqb concept "Indigenous Knowledge Integration"
  then ["Cultural Sensitivity Framework"; "Community Consultation"]
  else if String.eqb concept "Digital Hoodies Recognition System"
  then ["Relational Value Metrics"; "Impact Assessment"]
  else if String.eqb concept "Community-Centered Economics"
  then ["Social Innovation"; "Collective Value Creation"]
  else if String.eqb concept "Scaling Impact Models"
  then ["Community Replication"; "Network Effects"]
  else [].

(** [findRelatedConcepts] *)
Definition findRelatedConcepts (queryConcepts : list string) : list string :=
  let related := flat_map adjacency queryConcepts in
  List.filter (fun concept => negb (arrIncludes queryConcepts concept)) (uniq related).

Record Insight := {
  insight_title : string;
  insight_description : string;
  insight_confidence : Q
}.

(** [generateRelevantInsights] *)
Definition generateRelevantInsights (queryConcepts : list string) : list Insight :=
  (if existsb (fun c => includes c "Economics" || includes c "Relational") queryConcepts
   then [{| insight_title := "Cross-Domain Innovation Pattern";
            insight_description := "Relational economics concepts show strong connections to indigenous systems thinking, creating unique innovation opportunities";
            insight_confidence := 85 # 100 |}]
   else []) ++
  (if existsb (fun c => includes c "Indigenous" || includes c "Cultural") queryConcepts
   then [{| insight_title := "Cultural Integration Bridge";
            insight_description := "Indigenous knowledge systems provide foundational frameworks that enhance contemporary methodologies";
            insight_confidence := 9 # 10 |}]
   else []) ++
  (if existsb (fun c => includes c "Digital" || includes c "Recognition") queryConcepts
   then [{| insight_title := "Recognition System Evolution";
            insight_description := "Digital recognition systems are evolving beyond traditional metrics to capture relational value";
            insight_confidence := 8 # 10 |}]
   else []).

End Concepts.

(** ** Regular expressions

    A backtracking matcher for the subset of JavaScript regular expressions
    the route uses.  [run] returns, in priority order, the remainders of the
    input after every way the expression can match at the current position:
    its head is the match a backtracking engine finds first. *)

Module Regex.
Import Js.

Inductive cls : Type :=
  | CDigit                      (* \d *)
  | CWord                       (* \w *)
  | CSpace                      (* \s *)
  | CLit (c : ascii)            (* a literal character *)
  | COneOf (cs : string)        (* [abc] *)
  | CNot (k : cls).             (* a negated class *)

Inductive regex : Type :=
  | Eps
  | Chr (k : cls)
  | Seq (r1 r2 : regex)
  | Alt (r1 r2 : regex)
  | Star (r : regex)                  (* r*, greedy *)
  | Rep (lo hi : nat) (r : regex)     (* r{lo,hi}, greedy *)
  | Bol                               (* ^ *)
  | Eol.                              (* $ *)

(** Canonicalisation of a code unit under the [i] flag (upper-casing that
    stays within one code unit). *)
Definition canon (c : ascii) : ascii :=
  if isLower c || (between 224 254 c && negb (code c =? 247)%nat)
  then ascii_of_nat (code c - 32)
  else c.

Definition sameChar (icase : bool) (a b : ascii) : bool :=
  if icase then Ascii.eqb (canon a) (canon b) else Ascii.eqb a b.

Fixpoint oneOf (icase : bool) (cs : string) (c : ascii) : bool :=
  match cs with
  | EmptyString => false
  | String a cs' => sameChar icase a c || oneOf icase cs' c
  end.

Fixpoint accepts (icase : bool) (k : cls) (c : ascii) : bool :=
  match k with
  | CDigit => isDigit c
  | CWord => isWord c
  | CSpace => isSpace c
  | CLit a => sameChar icase a c
  | COneOf cs => oneOf icase cs c
  | CNot k' => negb (accepts icase k' c)
  end.

Definition shorter (s' s : string) : bool :=
  (String.length s' <? String.length s)%nat.

Definition sameLen (s' s : string) : bool :=
  (String.length s' =? String.length s)%nat.

(** Greedy iteration; an iteration that consumes nothing is rejected.  Every
    iteration consumes a character, so [String.length s] rounds of fuel
    are enough. *)
Fixpoint star (step : bool -> string -> list string) (fuel : nat)
    (bos : bool) (s : string) : list string :=
  match fuel with
  | O => [s]
  | S fuel' =>
      flat_map (fun s' => if shorter s' s then star step fuel' false s' else [])
               (step bos s) ++ [s]
  end.

(** Greedy bounded repetition [r{lo,hi}]. *)
Fixpoint rep (step : bool -> string -> list string) (lo hi : nat)
    (bos : bool) (s : string) : list string :=
  match hi with
  | O => [s]
  | S hi' =>
      flat_map (fun s' =>
                  if (lo =? 0)%nat && sameLen s' s then []
                  else rep step (Nat.pred lo) hi' (bos && sameLen s' s) s')
               (step bos s) ++
      (if (lo =? 0)%nat then [s] else [])
  end.

(** [run icase bos r s]: [bos] tells whether [s] starts at index 0 of the
    subject. *)
Fixpoint run (icase : bool) (r : regex) (bos : bool) (s : string) : list string :=
  match r with
  | Eps => [s]
  | Chr k =>
      match s with
      | String c s' => if accepts icase k c then [s'] else []
      | EmptyString => []
      end
  | Seq r1 r2 =>
      flat_map (fun s' => run icase r2 (bos && sameLen s' s) s') (run icase r1 bos s)
  | Alt r1 r2 => run icase r1 bos s ++ run icase r2 bos s
  | Star r' => star (run icase r') (String.length s) bos s
  | Rep lo hi r' => rep (run icase r') lo hi bos s
  | Bol => if bos then [s] else []
  | Eol => match s with EmptyString => [s] | _ => [] end
  end.

(** Length of the first match at the current position, if any. *)
Definition matchHere (icase : bool) (r : regex) (bos : bool) (s : string) : option nat :=
  match run icase r bos s with
  | s' :: _ => Some (String.length s - String.length s')
  | [] => None
  end.

(** [subject.match(/r/g)]: all matches, scanning left to right.  [skip]
    counts the characters still covered by the previous match; an empty
    match advances by one character.  JavaScript gives [null] for no match,
    which the callers treat like the empty array. *)
Fixpoint matchAllFrom (icase : bool) (r : regex) (bos : bool) (skip : nat)
    (s : string) {struct s} : list string :=
  match skip with
  | S k =>
      match s with
      | EmptyString => []
      | String _ t => matchAllFrom icase r false k t
      end
  | O =>
      match matchHere icase r bos s with
      | Some n =>
          takeStr n s ::
          match s with
          | EmptyString => []
          | String _ t => matchAllFrom icase r false (Nat.pred n) t
          end
      | None =>
          match s with
          | EmptyString => []
          | String _ t => matchAllFrom icase r false 0 t
          end
      end
  end.

Definition matchAll (icase : bool) (r : regex) (s : string) : list string :=
  matchAllFrom icase r true 0 s.

(** [subject.replace(/r/g, '')] *)
Fixpoint removeAllFrom (icase : bool) (r : regex) (bos : bool) (skip : nat)
    (s : string) {struct s} : string :=
  match skip with
  | S k =>
      match s with
      | EmptyString => EmptyString
      | String _ t => removeAllFrom icase r false k t
      end
  | O =>
      match s with
      | EmptyString => EmptyString
      | String c t =>
          match matchHere icase r bos s with
          | Some (S m) => removeAllFrom icase r false m t
          | _ => String c (removeAllFrom icase r false 0 t)
          end
      end
  end.

Definition removeAll (icase : bool) (r : regex) (s : string) : string :=
  removeAllFrom icase r true 0 s.

(** [/r/.test(subject)] for an expression without the [g] flag. *)
Fixpoint testFrom (icase : bool) (r : regex) (bos : bool) (s : string) : bool :=
  match matchHere icase r bos s with
  | Some _ => true
  | None =>
      match s with
      | EmptyString => false
      | String _ t => testFrom icase r false t
      end
  end.

Definition test (icase : bool) (r : regex) (s : string) : bool :=
  testFrom icase r true s.

(** [subject.split(/r/)]: [piece] is the text since the end of the last
    separator.  A separator match that is empty at the start of a piece
    is ignored, as SplitMatcher's [e = p] case. *)
Fixpoint splitFrom (icase : bool) (r : regex) (bos : bool) (piece : string)
    (skip : nat) (s : string) {struct s} : list string :=
  match skip with
  | S k =>
      match s with
      | EmptyString => [piece]
      | String _ t => splitFrom icase r false piece k t
      end
  | O =>
      match s with
      | EmptyString => [piece]
      | String c t =>
          match matchHere icase r bos s with
          | Some (S m) => piece :: splitFrom icase r false EmptyString m t
          | Some O =>
              match piece with
              | EmptyString => splitFrom icase r false (String c EmptyString) 0 t
              | _ => piece :: splitFrom icase r false (String c EmptyString) 0 t
              end
          | None => splitFrom icase r false (piece ++ String c EmptyString) 0 t
          end
      end
  end.

Definition split (icase : bool) (r : regex) (s : string) : list string :=
  match s with
  | EmptyString =>
      match matchHere icase r true s with
      | Some _ => []
      | None => [EmptyString]
      end
  | _ => splitFrom icase r true EmptyString 0 s
  end.

(** Pattern combinators. *)
Fixpoint lit (s : string) : regex :=
  match s with
  | EmptyString => Eps
  | String c EmptyString => Chr (CLit c)
  | String c s' => Seq (Chr (CLit c)) (lit s')
  end.

Definition plus (r : regex) : regex := Seq r (Star r).
Definition opt (r : regex) : regex := Alt r Eps.

Fixpoint seqs (rs : list regex) : regex :=
  match rs with
  | [] => Eps
  | [r] => r
  | r :: rs' => Seq r (seqs rs')
  end.

Fixpoint alts (rs : list regex) : regex :=
  match rs with
  | [] => Eps
  | [r] => r
  | r :: rs' => Alt r (alts rs')
  end.

Definition digit : regex := Chr CDigit.
Definition space : regex := Chr CSpace.
Definition notDot : regex := Chr (CNot (CLit ".")).
Definition notWord : regex := Chr (CNot CWord).

End Regex.

(** ** Fact extractor *)

Module Facts.
Import Js Regex.

Record Fact := {
  content : string;
  confidence : Q;
  source_context : string;
  suggested_tags : list string
}.

(** [extractTagsFromContent] *)
Definition extractTagsFromContent (content query : string) : list string :=
  let q := toLowerCase query in
  let c := toLowerCase content in
  let tags : list string :=
   ((if includes q "impact" then ["impact"] else []) ++
    (if includes q "education" then ["education"] else []) ++
    (if includes q "university" then ["university"] else []) ++
    (if includes q "student" then ["students"] else []) ++
    (if includes c "university" then ["university"] else []) ++
    (if includes c "student" then ["students"] else []) ++
    (if includes c "program" then ["programs"] else []) ++
    (if includes c "completion" then ["completion-rates"] else []) ++
    (if includes c "million" then ["scale"] else []) ++
    (if includes c "%" then ["statistics"] else []) ++
    (if includes c "indigenous" then ["indigenous"] else []) ++
    (if includes c "mentor" then ["mentoring"] else []))%list in
  take 4 (uniq tags).

(** A pattern with its [i] flag.  In the source every pattern of the three
    tables is wrapped in one capture group, which [match] with the [g] flag
    ignores; the comments below show the patterns without it. *)
Definition flagged : Type := (bool * regex)%type.

(** [/\d+(?:\.\d+)?%[^.]*/g] *)
Definition percentPattern : regex :=
  seqs [plus digit; opt (Seq (Chr (CLit ".")) (plus digit)); Chr (CLit "%"); Star notDot].

(** [/\d+(?:,\d{3})*(?:\.\d+)?\s+(?:students?|people|participants?|universities?|programs?)[^.]*/gi] *)
Definition countPattern : regex :=
  seqs [plus digit;
        Star (Seq (Chr (CLit ",")) (Rep 3 3 digit));
        opt (Seq (Chr (CLit ".")) (plus digit));
        plus space;
        alts [Seq (lit "student") (opt (lit "s"));
              lit "people";
              Seq (lit "participant") (opt (lit "s"));
              Seq (lit "universitie") (opt (lit "s"));
              Seq (lit "program") (opt (lit "s"))];
        Star notDot].

(** [statPatterns]; the last three are [/over \d+[^.]*/gi],
    [/more than \d+[^.]*/gi] and [/up to \d+[^.]*/gi]. *)
Definition statPatterns : list flagged :=
  [ (false, percentPattern);
    (true, countPattern);
    (true, seqs [lit "over "; plus digit; Star notDot]);
    (true, seqs [lit "more than "; plus digit; Star notDot]);
    (true, seqs [lit "up to "; plus digit; Star notDot]) ].

(** [/^[^\w]*|[^\w]*$/g] *)
Definition edgePattern : regex :=
  Alt (Seq Bol (Star notWord)) (Seq (Star notWord) Eol).

(** [aimePatterns]: [/AIME [^.]{20,150}/gi] and
    [/IMAGI-NATION [^.]{20,150}/gi]. *)
Definition aimePatterns : list flagged :=
  [ (true, Seq (lit "AIME ") (Rep 20 150 notDot));
    (true, Seq (lit "IMAGI-NATION ") (Rep 20 150 notDot)) ].

(** [conceptPatterns]:
    [/visa[^.]*(?:membership|participation|role|way to)[^.]*/gi],
    [/mentor[^.]*(?:matching|program|system)[^.]*/gi],
    [/appears to be[^.]{20,150}/gi], [/represents[^.]{20,150}/gi] and
    [/in order to[^.]{20,150}/gi]. *)
Definition conceptPatterns : list flagged :=
  [ (true, seqs [lit "visa"; Star notDot;
                 alts [lit "membership"; lit "participation"; lit "role"; lit "way to"];
                 Star notDot]);
    (true, seqs [lit "mentor"; Star notDot;
                 alts [lit "matching"; lit "program"; lit "system"];
                 Star notDot]);
    (true, Seq (lit "appears to be") (Rep 20 150 notDot));
    (true, Seq (lit "represents") (Rep 20 150 notDot));
    (true, Seq (lit "in order to") (Rep 20 150 notDot)) ].

(** [/[.!?]+/] *)
Definition sentenceBreak : regex := plus (Chr (COneOf ".!?")).

(** [/(?:is|are|seems to be|appears to be|represents|means)/i] *)
Definition definitionPattern : regex :=
  alts [lit "is"; lit "are"; lit "seems to be"; lit "appears to be";
        lit "represents"; lit "means"].

Definition keyTerms : list string :=
  ["visa"; "aime"; "imagi-nation"; "mentor"; "program"; "system"; "movement";
   "participation"].

Definition quoted (s : string) : string := dquote ++ s ++ dquote.

Definition mkFact (text : string) (conf : Q) (label query : string) : Fact :=
  {| content := text;
     confidence := conf;
     source_context := label ++ quoted query;
     suggested_tags := extractTagsFromContent text query |}.

(** One [matches.forEach] of the statistical patterns: clean the match,
    keep it when its length lies strictly between 10 and 200. *)
Definition statFact (query m : string) : list Fact :=
  let cleanMatch := removeAll false edgePattern (trim m) in
  if (10 <? String.length cleanMatch)%nat && (String.length cleanMatch <? 200)%nat
  then [mkFact cleanMatch (8 # 10) "Statistical information from: " query]
  else [].

Definition aimeFact (query m : string) : list Fact :=
  let cleanMatch := trim m in
  if (20 <? String.length cleanMatch)%nat && (String.length cleanMatch <? 200)%nat
  then [mkFact cleanMatch (7 # 10) "AIME program information from: " query]
  else [].

Definition conceptFact (query m : string) : list Fact :=
  let cleanMatch := trim m in
  if (25 <? String.length cleanMatch)%nat && (String.length cleanMatch <? 200)%nat
  then [mkFact cleanMatch (6 # 10) "Concept definition from: " query]
  else [].

(** A [for (const pattern of patterns)] loop pushing one fact per kept
    match. *)
Definition patternFacts (mk : string -> list Fact) (patterns : list flagged)
    (response : string) : list Fact :=
  flat_map (fun p : flagged => flat_map mk (matchAll (fst p) (snd p) response)) patterns.

Definition sentenceFact (query sentence : string) : list Fact :=
  let hasKeyTerm := existsb (fun term => includes (toLowerCase sentence) term) keyTerms in
  let hasDefinition := test true definitionPattern sentence in
  if hasKeyTerm && hasDefinition
     && (30 <? String.length (trim sentence))%nat
     && (String.length (trim sentence) <? 200)%nat
  then [mkFact (trim sentence) (6 # 10) "Definition from: " query]
  else [].

Definition sentences (response : string) : list string :=
  List.filter (fun s => (30 <? String.length (trim s))%nat)
              (split false sentenceBreak response).

(** [arr.findIndex(p)], [-1] when nothing satisfies [p]. *)
Fixpoint findIndexFrom {A} (p : A -> bool) (i : Z) (l : list A) : Z :=
  match l with
  | [] => (-1)%Z
  | x :: l' => if p x then i else findIndexFrom p (i + 1)%Z l'
  end.

Definition findIndex {A} (p : A -> bool) (l : list A) : Z := findIndexFrom p 0%Z l.

(** [arr.filter((x, index, self) => keep x index self)] *)
Fixpoint filterIndexedFrom {A} (keep : A -> Z -> bool) (i : Z) (l : list A) : list A :=
  match l with
  | [] => []
  | x :: l' =>
      if keep x i then x :: filterIndexedFrom keep (i + 1)%Z l'
      else filterIndexedFrom keep (i + 1)%Z l'
  end.

Definition allFacts (response query : string) : list Fact :=
  patternFacts (statFact query) statPatterns response ++
  patternFacts (aimeFact query) aimePatterns response ++
  patternFacts (conceptFact query) conceptPatterns response ++
  flat_map (sentenceFact query) (sentences response).

(** [extractFactsFromResponse]; [chunks] is accepted and never read.  No
    operation of the body can throw, so the [catch] branch is dead. *)
Definition extractFactsFromResponse {C : Type} (response query : string)
    (chunks : list C) : list Fact :=
  let facts := allFacts response query in
  let uniqueFacts :=
    take 3 (filterIndexedFrom
              (fun fact index =>
                 Z.eqb index (findIndex (fun f => String.eqb (content f) (content fact)) facts))
              0%Z facts) in
  uniqueFacts.

End Facts.

(** ** A trace of the external calls

    Functions that reach an external collaborator return the calls they
    issued, in order, next to their result. *)

Module Effects.

(** A message of the conversation: [role], [content], and whatever other
    properties the object carries (a history entry sent by the chat widget
    also has an id, a timestamp and its citations). *)
Record ChatMessage := {
  role : string;
  text : string;                          (* content *)
  others : list (string * string)
}.

Inductive Query : Type :=
  | QDocument (documentId : string)       (* .eq('document_id', id).order('chunk_index') *)
  | QDocuments (documentIds : list string) (* .in('document_id', ids).limit(15) *)
  | QTitle (title : string)               (* .eq('document_title', title).limit(2) *)
  | QAny.                                 (* .limit(5) *)

Inductive Event : Type :=
  | EmbeddingCall (input : string)
  | SupabaseSelect (q : Query)
  | SupabaseRpc (embedding : list Q)
  | AirtableFetch (table : string)
  | AnthropicCall (system : string) (messages : list ChatMessage)
  | OpenAICall (messages : list ChatMessage).

(** What an [await] of a fallible call gives. *)
Inductive outcome (A : Type) : Type :=
  | Returned (a : A)
  | Thrown (message : string).
Arguments Returned {A} a.
Arguments Thrown {A} message.

Definition Traced (A : Type) : Type := (list Event * A)%type.

Definition ret {A} (a : A) : Traced A := ([], a).

Definition bind {A B} (m : Traced A) (k : A -> Traced B) : Traced B :=
  let (t1, a) := m in
  let (t2, b) := k a in
  ((t1 ++ t2)%list, b).

Definition call {A} (e : Event) (a : A) : Traced A := ([e], a).

Definition trace {A} (m : Traced A) : list Event := fst m.
Definition value {A} (m : Traced A) : A := snd m.

Declare Scope traced_scope.
Delimit Scope traced_scope with traced.
Notation "x <- m ;; k" := (bind m (fun x => k))
  (at level 100, m at next level, right associativity) : traced_scope.

End Effects.

(** ** Candidate adapters and merger *)

Module Retrieval.
Import Js Effects.
Local Open Scope traced_scope.

(** A passage candidate.  [similarity] and [match_type] are absent on rows
    selected from the table. *)
Record Chunk := {
  chunk_id : string;
  document_id : string;
  document_title : string;
  chunk_index : Z;
  content : string;
  similarity : option Q;
  match_type : option string
}.

(** The five selected columns of a row. *)
Definition columns (c : Chunk) : Chunk :=
  {| chunk_id := chunk_id c; document_id := document_id c;
     document_title := document_title c; chunk_index := chunk_index c;
     content := content c; similarity := None; match_type := None |}.

(** [{...chunk, similarity: s, match_type: m}] *)
Definition tagged (s : Q) (m : string) (c : Chunk) : Chunk :=
  {| chunk_id := chunk_id c; document_id := document_id c;
     document_title := document_title c; chunk_index := chunk_index c;
     content := content c; similarity := Some s; match_type := Some m |}.

(** The embedding store.  [document_chunks] lists the rows of the table in
    the order an unordered scan returns them; [fails] marks the selects
    that come back with an error; [match_chunks] is the similarity
    procedure ([None]: it came back with an error).  The client resolves
    with data or an error, it does not reject. *)
Record Supabase := {
  document_chunks : list Chunk;
  fails : Query -> bool;
  match_chunks : list Q -> option (list Chunk)
}.

(** Stable insertion by ascending [chunk_index], for [.order('chunk_index')]. *)
Fixpoint insertByIndex (c : Chunk) (l : list Chunk) : list Chunk :=
  match l with
  | [] => [c]
  | d :: l' =>
      if (chunk_index c <=? chunk_index d)%Z then c :: d :: l'
      else d :: insertByIndex c l'
  end.

Definition orderByIndex (l : list Chunk) : list Chunk :=
  foldr insertByIndex [] l.

Definition rowsOf (db : Supabase) (q : Query) : list Chunk :=
  match q with
  | QDocument id =>
      orderByIndex (List.filter (fun c => String.eqb (document_id c) id) (document_chunks db))
  | QDocuments ids =>
      take 15 (List.filter (fun c => arrIncludes ids (document_id c)) (document_chunks db))
  | QTitle t =>
      take 2 (List.filter (fun c => String.eqb (document_title c) t) (document_chunks db))
  | QAny => take 5 (document_chunks db)
  end.

(** One select on [document_chunks]: [None] stands for [{data: null, error}]. *)
Definition select (db : Supabase) (q : Query) : Traced (option (list Chunk)) :=
  call (SupabaseSelect q)
       (if fails db q then None else Some (map columns (rowsOf db q))).

Definition rpcMatchChunks (db : Supabase) (embedding : list Q) : Traced (option (list Chunk)) :=
  call (SupabaseRpc embedding) (match_chunks db embedding).

(** The catalog.  A fetch can reject, answer with a status that is not ok,
    answer with a body that cannot be read as records, or give records. *)
Inductive FetchResult (A : Type) : Type :=
  | FetchRejected
  | FetchNotOk
  | FetchMalformed
  | FetchRecords (records : list A).
Arguments FetchRejected {A}.
Arguments FetchNotOk {A}.
Arguments FetchMalformed {A}.
Arguments FetchRecords {A} records.

Record CatalogDocument := {
  doc_id : string;
  doc_title : string;
  doc_themes : list string      (* fields.Themes || [] *)
}.

Record CatalogTheme := {
  theme_id : string;
  theme_name : option string    (* fields.Name *)
}.

Record Airtable := {
  AIRTABLE_API_KEY : option string;
  AIRTABLE_BASE_ID : option string;
  fetchDocuments : FetchResult CatalogDocument;
  fetchThemes : FetchResult CatalogTheme
}.

(** [Object.fromEntries]: a later entry overwrites an earlier one. *)
Definition themeMapOf (themes : list CatalogTheme) : gmap string (option string) :=
  foldl (fun m t => <[theme_id t := theme_name t]> m) ∅ themes.

(** [docThemeIds.map(id => themeMap[id]).filter(Boolean)] *)
Definition themeNames (themeMap : gmap string (option string)) (ids : list string) : list string :=
  flat_map (fun id =>
              match themeMap !! id with
              | Some (Some (String c n)) => [String c n]
              | _ => []
              end) ids.

Definition matchesThemes (themeMap : gmap string (option string))
    (selectedThemes : list string) (doc : CatalogDocument) : bool :=
  let docThemeNames := themeNames themeMap (doc_themes doc) in
  existsb (fun selectedTheme => arrIncludes docThemeNames selectedTheme) selectedThemes.

Definition isOk {A} (r : FetchResult A) : bool :=
  match r with FetchNotOk | FetchRejected => false | _ => true end.

(** The theme-filtered adapter: the body of the inner [try], whose [catch]
    logs and contributes nothing. *)
Definition themeFiltered (db : Supabase) (at_ : Airtable) (selectedThemes : list string)
    : Traced (list Chunk) :=
  if truthy (AIRTABLE_API_KEY at_) && truthy (AIRTABLE_BASE_ID at_) then
    _ <- call (AirtableFetch "Documents") tt ;;
    _ <- call (AirtableFetch "Themes") tt ;;
    match fetchDocuments at_, fetchThemes at_ with
    | FetchRejected, _ | _, FetchRejected => ret []
    | FetchNotOk, _ | _, FetchNotOk => ret []
    | FetchMalformed, _ | _, FetchMalformed => ret []
    | FetchRecords documents, FetchRecords themes =>
        let themeMap := themeMapOf themes in
        let matchingDocuments := List.filter (matchesThemes themeMap selectedThemes) documents in
        match matchingDocuments with
        | [] => ret []
        | _ =>
            let matchingDocumentIds := map doc_id matchingDocuments in
            themeChunks <- select db (QDocuments matchingDocumentIds) ;;
            match themeChunks with
            | Some themeChunks => ret (map (tagged (8 # 10) "theme_filtered") themeChunks)
            | None => ret []
            end
        end
    end
  else ret [].

(** The vector-similarity adapter. *)
Definition vectorSearch (db : Supabase) (embedding : list Q) : Traced (list Chunk) :=
  vectorData <- rpcMatchChunks db embedding ;;
  match vectorData with
  | Some vectorData => ret vectorData
  | None => ret []
  end.

(** The direct-match adapter. *)
Definition directMatch (db : Supabase) (query : option string) : Traced (list Chunk) :=
  match query with
  | Some (String c q') =>
      let query := String c q' in
      if includes (toLowerCase query) "hoodie" && includes (toLowerCase query) "economics" then
        hoodieData <- select db (QTitle "Hoodie Economics") ;;
        match hoodieData with
        | Some hoodieData => ret (map (tagged (95 # 100) "direct_match") hoodieData)
        | None => ret []
        end
      else ret []
  | _ => ret []
  end.

(** The fallback adapter. *)
Definition fallback (db : Supabase) : Traced (list Chunk) :=
  fallbackData <- select db QAny ;;
  match fallbackData with
  | Some fallbackData => ret fallbackData
  | None => ret []
  end.

(** [chunk.similarity || 0] *)
Definition score (c : Chunk) : Q :=
  match similarity c with
  | Some s => s
  | None => 0
  end.

(** [allResults.sort((a, b) => (b.similarity || 0) - (a.similarity || 0))]:
    a stable sort, descending by score. *)
Fixpoint insertByScore (c : Chunk) (l : list Chunk) : list Chunk :=
  match l with
  | [] => [c]
  | d :: l' =>
      if Qle_bool (score d) (score c) then c :: d :: l'
      else d :: insertByScore c l'
  end.

Definition sortByScore (l : list Chunk) : list Chunk :=
  foldr insertByScore [] l.

Definition maxPerDocument : nat := 2.

(** The [for (const chunk of allResults)] loop, with its three accumulators. *)
Fixpoint mergeLoop (limit : nat) (allResults : list Chunk)
    (uniqueResults : list Chunk) (seenChunks : gset string)
    (documentCounts : gmap string nat) : list Chunk :=
  match allResults with
  | [] => uniqueResults
  | chunk :: rest =>
      if decide (chunk_id chunk ∈ seenChunks)
      then mergeLoop limit rest uniqueResults seenChunks documentCounts
      else
        let docTitle := document_title chunk in
        let currentCount := default 0%nat (documentCounts !! docTitle) in
        if (currentCount <? maxPerDocument)%nat then
          let uniqueResults' := (uniqueResults ++ [chunk])%list in
          if (limit <=? length uniqueResults')%nat then uniqueResults'
          else mergeLoop limit rest uniqueResults'
                         ({[chunk_id chunk]} ∪ seenChunks)
                         (<[docTitle := S currentCount]> documentCounts)
        else mergeLoop limit rest uniqueResults seenChunks documentCounts
  end.

(** Step 4 of [searchSimilarChunks]: deduplication and document diversity. *)
Definition merge (limit : nat) (allResults : list Chunk) : list Chunk :=
  mergeLoop limit (sortByScore allResults) [] ∅ ∅.

(** The document-scoped adapter: [docChunks.slice(0, limit)]. *)
Definition documentScoped (limit : nat) (docChunks : list Chunk) : list Chunk :=
  take limit docChunks.

(** What the adapters of the multi-document branch gather before the
    fallback is considered. *)
Definition gather (db : Supabase) (at_ : Airtable) (embedding : list Q)
    (query : option string) (selectedThemes : list string) : Traced (list Chunk) :=
  first <- match selectedThemes with
           | [] => vectorSearch db embedding
           | _ => themeFiltered db at_ selectedThemes
           end ;;
  hoodie <- directMatch db query ;;
  ret (first ++ hoodie)%list.

(** [searchSimilarChunks] *)
Definition searchSimilarChunks (db : Supabase) (at_ : Airtable) (embedding : list Q)
    (limit : nat) (query : option string) (documentId : option string)
    (selectedThemes : list string) : Traced (list Chunk) :=
  if truthy documentId then
    docChunks <- select db (QDocument (default EmptyString documentId)) ;;
    match docChunks with
    | None => ret []
    | Some docChunks => ret (merge limit (documentScoped limit docChunks))
    end
  else
    gathered <- gather db at_ embedding query selectedThemes ;;
    allResults <- match gathered with
                  | [] => fallback db
                  | _ => ret gathered
                  end ;;
    ret (merge limit allResults).

End Retrieval.

(** ** Intelligence enhancement *)

Module Enhancement.
Import Js Concepts.

Record Enhancement := {
  intelligence_summary : string;
  related_concepts : list string;
  insights : list Insight;
  concept_connections : bool
}.

(** A length printed by a template literal. *)
Definition showNat (n : nat) : string := NilEmpty.string_of_uint (Nat.to_uint n).

(** The three clauses of [generateIntelligenceSummary]. *)
Definition conceptClause (queryConcepts : list string) : string :=
  "Your query connects to " ++ showNat (length queryConcepts) ++ " key concept"
  ++ (if (1 <? length queryConcepts)%nat then "s" else "") ++ ": "
  ++ join ", " queryConcepts.

Definition relatedClause (relatedConcepts : list string) : string :=
  "Related concepts to explore: " ++ join ", " (take 3 relatedConcepts).

Definition insightClause (first : Insight) : string :=
  "Key insight: " ++ insight_description first.

(** [generateIntelligenceSummary] *)
Definition generateIntelligenceSummary (query : string) (queryConcepts relatedConcepts : list string)
    (insights : list Insight) : string :=
  let parts : list string :=
    ((match queryConcepts with
      | [] => []
      | _ => [conceptClause queryConcepts]
      end) ++
     (match relatedConcepts with
      | [] => []
      | _ => [relatedClause relatedConcepts]
      end) ++
     (match insights with
      | [] => []
      | first :: _ => [insightClause first]
      end))%list in
  match parts with
  | [] => "This query shows potential for deeper concept exploration as the knowledge base expands."
  | _ => join ". " parts
  end.

(** [enhanceWithIntelligence]: nothing in its body can throw, it always
    gives an enhancement. *)
Definition enhanceWithIntelligence {C : Type} (message : string) (chunks : list C) : Enhancement :=
  let queryConcepts := findQueryConcepts message in
  let relatedConcepts := findRelatedConcepts queryConcepts in
  let insights := generateRelevantInsights queryConcepts in
  {| intelligence_summary :=
       generateIntelligenceSummary message queryConcepts relatedConcepts insights;
     related_concepts := relatedConcepts;
     insights := insights;
     concept_connections := (0 <? length queryConcepts)%nat |}.

End Enhancement.

(** ** Answer generator *)

Module Answer.
Import Js Effects Retrieval Enhancement.
Local Open Scope traced_scope.

Record Citation := {
  cite_text : string;
  source_url : string;
  cite_document_title : string;
  cite_chunk_id : string
}.

Record Response := {
  answer : string;                               (* content *)
  citations : list Citation;
  extractable_facts : list Facts.Fact;
  model_used : string;
  intelligence_enhancement : option Enhancement
}.

(** The language-model providers.  Anthropic answers with a list of content
    blocks, OpenAI with an optional message content; either call can throw. *)
Inductive Block : Type :=
  | TextBlock (t : string)
  | OtherBlock.

Record Providers := {
  ANTHROPIC_API_KEY : option string;
  anthropicCreate : string -> list ChatMessage -> outcome (list Block);
  openaiCreate : list ChatMessage -> outcome (option string)
}.

(** How one chunk is rendered into the context. *)
Definition renderChunk (chunk : Chunk) : string :=
  "Document: " ++ document_title chunk ++ nl ++ "Content: " ++ content chunk.

Definition contextOf (chunks : list Chunk) : string :=
  join (nl ++ nl) (map renderChunk chunks).

Definition promptHead : string :=
  "You are an AI assistant for the AIME Knowledge Hub. You help users find information from research documents and answer questions based on the knowledge base.

Context from relevant documents:
".

Definition enhancementBlock (e : Enhancement) : string :=
  "

🧠 INTELLIGENCE ENHANCEMENT:
" ++ intelligence_summary e ++ "

Related concepts to consider: " ++ join ", " (related_concepts e) ++ "

Key insights: " ++ join "; " (map Concepts.insight_description (insights e)).

Definition instructions : string :=
  "

Instructions:
1. Answer the user's question based on the provided context
2. If intelligence enhancement is provided, incorporate those insights naturally
3. If the context doesn't contain enough information, say so clearly
4. Always cite your sources by referencing the document titles
5. Be concise but comprehensive
6. Use a professional but friendly tone
7. If related concepts are suggested, mention them as " ++ dquote ++
  "You might also be interested in exploring..." ++ dquote ++ "

If no relevant context is provided, explain that you don't have specific information about that topic in the current knowledge base.".

(** [systemPrompt] *)
Definition systemPrompt (chunks : list Chunk) (intelligenceEnhancement : option Enhancement) : string :=
  promptHead ++ contextOf chunks ++
  match intelligenceEnhancement with
  | Some e => enhancementBlock e
  | None => EmptyString
  end ++ instructions.

(** [history.slice(-4)] *)
Definition lastFour (history : list ChatMessage) : list ChatMessage :=
  drop (length history - 4) history.

Definition messagesOf (query : string) (chunks : list Chunk) (history : list ChatMessage)
    (intelligenceEnhancement : option Enhancement) : list ChatMessage :=
  ({| role := "system"; text := systemPrompt chunks intelligenceEnhancement; others := [] |}
   :: lastFour history ++ [{| role := "user"; text := query; others := [] |}])%list.

(** The citation derived from one chunk. *)
Definition citationOf (chunk : Chunk) : Citation :=
  {| cite_text := content chunk;
     source_url := "/documents/" ++ document_id chunk;
     cite_document_title := document_title chunk;
     cite_chunk_id := chunk_id chunk |}.

(** The provider call of [generateResponse]: which provider is asked, and
    the answer text it yields.  Anthropic is sent the messages without the
    system message, each mapped to an object with [role] and [content]
    only; OpenAI is sent the messages as they are. *)
Definition complete (p : Providers) (model : string) (system : string)
    (messages : list ChatMessage) : Traced (outcome string) :=
  if String.eqb model "anthropic" && truthy (ANTHROPIC_API_KEY p) then
    let anthropicMessages :=
      map (fun m => {| role := role m; text := text m; others := [] |})
          (List.filter (fun m => negb (String.eqb (role m) "system")) messages) in
    call (AnthropicCall system anthropicMessages)
         (match anthropicCreate p system anthropicMessages with
          | Thrown e => Thrown e
          | Returned [] => Thrown "Cannot read properties of undefined (reading 'type')"
          | Returned (TextBlock t :: _) => Returned t
          | Returned (OtherBlock :: _) => Returned EmptyString
          end)
  else
    call (OpenAICall messages)
         (match openaiCreate p messages with
          | Thrown e => Thrown e
          | Returned (Some t) => Returned t
          | Returned None => Returned EmptyString
          end).

(** [generateResponse] *)
Definition generateResponse (p : Providers) (query : string) (chunks : list Chunk)
    (model : string) (history : list ChatMessage)
    (intelligenceEnhancement : option Enhancement) : Traced (outcome Response) :=
  let system := systemPrompt chunks intelligenceEnhancement in
  let messages := messagesOf query chunks history intelligenceEnhancement in
  completion <- complete p model system messages ;;
  match completion with
  | Thrown _ => ret (Thrown "Failed to generate response")
  | Returned text =>
      let citations := map citationOf chunks in
      let extractable_facts := Facts.extractFactsFromResponse text query chunks in
      ret (Returned {| answer := text;
                       citations := citations;
                       extractable_facts := extractable_facts;
                       model_used := model;
                       intelligence_enhancement := intelligenceEnhancement |})
  end.

End Answer.

(** ** The request handler *)

Module Handler.
Import Js Effects Retrieval Enhancement Answer.
Local Open Scope traced_scope.

(** The body of the request after destructuring with its defaults. *)
Record Request := {
  message : option string;
  model : string;                    (* default 'openai' *)
  history : list ChatMessage;        (* default [] *)
  enable_intelligence : bool;        (* default true *)
  request_document_id : option string;
  selectedThemes : list string       (* default [] *)
}.

Record World := {
  embeddingsCreate : string -> option (list Q);   (* [None]: the call throws *)
  supabase : Supabase;
  airtable : Airtable;
  providers : Providers
}.

Inductive HttpResponse : Type :=
  | Json (body : Response)                       (* status 200 *)
  | JsonError (status : nat) (error : string).

(** [generateEmbedding] *)
Definition generateEmbedding (w : World) (input : string) : Traced (outcome (list Q)) :=
  call (EmbeddingCall input)
       (match embeddingsCreate w input with
        | Some v => Returned v
        | None => Thrown "Failed to generate embedding"
        end).

(** [POST]: every exception of the body ends in the same [catch]. *)
Definition POST (w : World) (request : Request) : Traced HttpResponse :=
  match message request with
  | Some (String c m') =>
      let message := String c m' in
      embedding <- generateEmbedding w message ;;
      match embedding with
      | Thrown _ => ret (JsonError 500 "Internal server error")
      | Returned embedding =>
          relevantChunks <- searchSimilarChunks (supabase w) (airtable w) embedding 5
                              (Some message) (request_document_id request)
                              (selectedThemes request) ;;
          let intelligenceEnhancement :=
            if enable_intelligence request
            then Some (enhanceWithIntelligence message relevantChunks)
            else None in
          response <- generateResponse (providers w) message relevantChunks
                        (model request) (history request) intelligenceEnhancement ;;
          match response with
          | Thrown _ => ret (JsonError 500 "Internal server error")
          | Returned response => ret (Json response)
          end
      end
  | _ => ret (JsonError 400 "Message is required")
  end.

End Handler.

(** ** Vocabulary of the statements *)

Module Statements.
Import Js Effects Retrieval Answer.

(** How many entries of a result set carry a given document title, the key
    the merger counts by. *)
Definition countTitle (title : string) (l : list Chunk) : nat :=
  length (List.filter (fun c => String.eqb (document_title c) title) l).

(** Some title occurs more than [maxPerDocument] times. *)
Definition exceedsCap (l : list Chunk) : bool :=
  existsb (fun c => (maxPerDocument <? countTitle (document_title c) l)%nat) l.

(** The chunks of a pool, one per chunk identifier. *)
Fixpoint usableFrom (seen : list string) (pool : list Chunk) : list Chunk :=
  match pool with
  | [] => []
  | c :: rest =>
      if arrIncludes seen (chunk_id c) then usableFrom seen rest
      else c :: usableFrom (chunk_id c :: seen) rest
  end.

Definition usable (pool : list Chunk) : list Chunk := usableFrom [] pool.

Definition distinctDocuments (pool : list Chunk) : list string :=
  uniq (map document_title pool).

(** The most results a pool can give while every document stays within the
    cap. *)
Definition cappedCapacity (pool : list Chunk) : nat :=
  foldr (fun t acc => (Nat.min maxPerDocument (countTitle t (usable pool)) + acc)%nat) 0%nat
        (distinctDocuments pool).

(** Reaching [n] results is possible, but not within the cap. *)
Definition mustExceed (n : nat) (pool : list Chunk) : Prop :=
  (cappedCapacity pool < n)%nat /\ (n <= length (usable pool))%nat.

(** A list of chunks in ascending chunk-index order. *)
Fixpoint ascending (l : list Chunk) : Prop :=
  match l with
  | [] => True
  | c :: rest =>
      match rest with
      | [] => True
      | d :: _ => (chunk_index c <= chunk_index d)%Z /\ ascending rest
      end
  end.

(** [needle] occurs in [s]. *)
Definition occursIn (needle s : string) : Prop :=
  exists before after, s = before ++ needle ++ after.

(** The system instruction carried by a provider call. *)
Definition systemOf (e : Event) : option string :=
  match e with
  | AnthropicCall system _ => Some system
  | OpenAICall ({| role := "system"; text := system |} :: _) => Some system
  | _ => None
  end.

(** Calls to a candidate source: the embedding store and the catalog. *)
Definition isAdapterCall (e : Event) : bool :=
  match e with
  | SupabaseSelect _ | SupabaseRpc _ | AirtableFetch _ => true
  | _ => false
  end.

Definition isProviderCall (e : Event) : bool :=
  match e with
  | AnthropicCall _ _ | OpenAICall _ => true
  | _ => false
  end.




(** The query and the span of the percentage scenario. *)
Definition percentageQuery : string :=
  "What percentage of participants completed university?".


End Statements.

(** ** Invariant of the merger loop *)

Module MergerInvariant.
Import Retrieval Statements.

(** What [mergeLoop] maintains between iterations: the accumulators agree
    with the results kept so far. *)
Record loopInv (uniqueResults : list Chunk) (seenChunks : gset string)
    (documentCounts : gmap string nat) : Prop := {
  inv_nodup : NoDup (map chunk_id uniqueResults);
  inv_seen : forall c, c ∈ uniqueResults -> chunk_id c ∈ seenChunks;
  inv_counts : forall title,
    countTitle title uniqueResults = default 0%nat (documentCounts !! title);
  inv_cap : forall title, (countTitle title uniqueResults <= maxPerDocument)%nat
}.

End MergerInvariant.

(** ** Concrete stores and requests used by the scenarios *)

Module Scenarios.
Import Js Effects Retrieval Enhancement Answer Handler.

Definition row (id doc title : string) (index : Z) (body : string) : Chunk :=
  {| chunk_id := id; document_id := doc; document_title := title;
     chunk_index := index; content := body; similarity := None; match_type := None |}.

(** A table in which document [doc_42] has seven chunks, stored out of
    order, next to one chunk of another document. *)
Definition table42 : list Chunk :=
  [ row "c42-3" "doc_42" "Annual Report" 3 "third";
    row "c42-0" "doc_42" "Annual Report" 0 "zeroth";
    row "c7-0" "doc_7" "Field Notes" 0 "notes";
    row "c42-6" "doc_42" "Annual Report" 6 "sixth";
    row "c42-1" "doc_42" "Annual Report" 1 "first";
    row "c42-5" "doc_42" "Annual Report" 5 "fifth";
    row "c42-2" "doc_42" "Annual Report" 2 "second";
    row "c42-4" "doc_42" "Annual Report" 4 "fourth" ].

(** A store whose selects all succeed and whose similarity search finds
    nothing. *)
Definition store42 : Supabase :=
  {| document_chunks := table42;
     fails := fun _ => false;
     match_chunks := fun _ => Some [] |}.

(** The same table behind a store that is down: every select and the
    similarity search come back with an error. *)
Definition store42Down : Supabase :=
  {| document_chunks := table42;
     fails := fun _ => true;
     match_chunks := fun _ => None |}.

(** A catalog that is not configured. *)
Definition noCatalog : Airtable :=
  {| AIRTABLE_API_KEY := None; AIRTABLE_BASE_ID := None;
     fetchDocuments := FetchRejected; fetchThemes := FetchRejected |}.

Definition scored (id title : string) (s : Q) : Chunk :=
  {| chunk_id := id; document_id := title; document_title := title;
     chunk_index := 0; content := id; similarity := Some s; match_type := None |}.

(** Five candidates from three documents: three of A, one of B, one of C. *)
Definition pool311 : list Chunk :=
  [ scored "a1" "A" (9 # 10); scored "a2" "A" (8 # 10); scored "a3" "A" (7 # 10);
    scored "b1" "B" (6 # 10); scored "c1" "C" (5 # 10) ].

(** Providers without an Anthropic key; OpenAI answers with a fixed text. *)
Definition openaiOnly : Providers :=
  {| ANTHROPIC_API_KEY := None;
     anthropicCreate := fun _ _ => Thrown "401 missing api key";
     openaiCreate := fun _ => Returned (Some "The report describes a 34% increase in completion rates.") |}.

(** Providers whose every call throws. *)
Definition providersDown : Providers :=
  {| ANTHROPIC_API_KEY := None;
     anthropicCreate := fun _ _ => Thrown "503 overloaded";
     openaiCreate := fun _ => Thrown "503 overloaded" |}.

Definition worldUp : World :=
  {| embeddingsCreate := fun _ => Some [1 # 2; 1 # 3];
     supabase := store42; airtable := noCatalog; providers := openaiOnly |}.

(** The embedding provider throws. *)
Definition worldEmbeddingDown : World :=
  {| embeddingsCreate := fun _ => None;
     supabase := store42; airtable := noCatalog; providers := openaiOnly |}.

(** The embedding provider answers, the language model throws. *)
Definition worldGenerationDown : World :=
  {| embeddingsCreate := fun _ => Some [1 # 2; 1 # 3];
     supabase := store42; airtable := noCatalog; providers := providersDown |}.




Definition ask (question modelPreference : string) : Request :=
  {| message := Some question; model := modelPreference; history := [];
     enable_intelligence := true; request_document_id := None; selectedThemes := [] |}.

End Scenarios.

(** ** Closed forms for iterated character classes *)

Module ClassRuns.
Import Js Regex.

(** The remainders of [k*] in priority order: longest run first. *)
Fixpoint greedyRun (icase : bool) (k : cls) (s : string) : list string :=
  match s with
  | EmptyString => [EmptyString]
  | String c t => if accepts icase k c then (greedyRun icase k t ++ [s])%list else [s]
  end.

(** What is left after the longest run of [k]. *)
Fixpoint skipRun (icase : bool) (k : cls) (s : string) : string :=
  match s with
  | EmptyString => EmptyString
  | String c t => if accepts icase k c then skipRun icase k t else s
  end.

(** The longest run of [k] at the start of [s]. *)
Fixpoint takeRun (icase : bool) (k : cls) (s : string) : string :=
  match s with
  | EmptyString => EmptyString
  | String c t => if accepts icase k c then String c (takeRun icase k t) else EmptyString
  end.

Fixpoint allAccepted (icase : bool) (k : cls) (s : string) : bool :=
  match s with
  | EmptyString => true
  | String c t => accepts icase k c && allAccepted icase k t
  end.

(** The scan of [replace] with [edgePattern] once past index 0. *)
Definition stripTail (s : string) : string :=
  removeAllFrom false Facts.edgePattern false 0 s.

End ClassRuns.

(** ** Vocabulary of the further properties *)

Module Properties.
Import Js Effects Retrieval Statements.

(** A result set ranked by descending score: a later entry never scores
    higher than an earlier one. *)
Definition rankedByScore (l : list Chunk) : Prop :=
  forall i j c d,
    (i < j)%nat -> l !! i = Some c -> l !! j = Some d -> (score d <= score c)%Q.

(** [c] ranks at least as high as [d]. *)
Definition outranks (c d : Chunk) : Prop := (score d <= score c)%Q.

(** Every entry outranks all the entries after it. *)
Fixpoint sortedByScore (l : list Chunk) : Prop :=
  match l with
  | [] => True
  | c :: rest => Forall (outranks c) rest /\ sortedByScore rest
  end.

(** Kinds of calls to the candidate sources. *)
Definition isRpc (e : Event) : bool :=
  match e with SupabaseRpc _ => true | _ => false end.

Definition isFallbackSelect (e : Event) : bool :=
  match e with SupabaseSelect QAny => true | _ => false end.

Definition isCatalogFetch (e : Event) : bool :=
  match e with AirtableFetch _ => true | _ => false end.

Definition isAnthropicCall (e : Event) : bool :=
  match e with AnthropicCall _ _ => true | _ => false end.

Definition isOpenAICall (e : Event) : bool :=
  match e with OpenAICall _ => true | _ => false end.

Definition notSystem (m : ChatMessage) : bool :=
  negb (String.eqb (role m) "system").

Definition isEmpty {A} (l : list A) : bool :=
  match l with [] => true | _ => false end.

(** The concept vocabulary, in the order of the keyword table. *)
Definition conceptVocabulary : list string :=
  [ "Hoodie Economics"; "Community-Centered Economics";
    "Indigenous Knowledge Integration"; "Digital Hoodies Recognition System";
    "Relational Value Metrics"; "Scaling Impact Models" ].

(** The tags [extractTagsFromContent] can suggest. *)
Definition tagVocabulary : list string :=
  [ "impact"; "education"; "university"; "students"; "programs";
    "completion-rates"; "scale"; "statistics"; "indigenous"; "mentoring" ].

(** The sentence of the summary when no concept matched. *)
Definition genericSummary : string :=
  "This query shows potential for deeper concept exploration as the knowledge base expands.".

Definition firstChar (s : string) : option ascii :=
  match s with
  | EmptyString => None
  | String c _ => Some c
  end.

Fixpoint lastChar (s : string) : option ascii :=
  match s with
  | EmptyString => None
  | String c EmptyString => Some c
  | String _ t => lastChar t
  end.

(** A text made of characters outside [\w] only. *)
Definition nonWordOnly (s : string) : bool :=
  ClassRuns.allAccepted false (Regex.CNot Regex.CWord) s.

(** The test by which the extractor keeps a fact: its index is the first
    index of a fact with that content. *)
Definition keepFirst (facts : list Facts.Fact) (fact : Facts.Fact) (index : Z) : bool :=
  Z.eqb index
        (Facts.findIndex (fun f => String.eqb (Facts.content f) (Facts.content fact)) facts).

End Properties.

(** ** A catalog for the theme scenario *)

Module ThemeScenario.
Import Js Effects Retrieval Scenarios.

(** Two documents, the first under the theme [Education]. *)
Definition catalog : Airtable :=
  {| AIRTABLE_API_KEY := Some "key"; AIRTABLE_BASE_ID := Some "base";
     fetchDocuments :=
       FetchRecords
         [ {| doc_id := "doc_42"; doc_title := "Annual Report"; doc_themes := ["recEdu"] |};
           {| doc_id := "doc_7"; doc_title := "Field Notes"; doc_themes := ["recArt"] |} ];
     fetchThemes :=
       FetchRecords
         [ {| theme_id := "recEdu"; theme_name := Some "Education" |};
           {| theme_id := "recArt"; theme_name := Some "Art" |} ] |}.

End ThemeScenario.

(** ** Regular expression objects

    A regular expression of the source is an object: next to its pattern
    and flags it carries [lastIndex], which the built-in operations read and
    write when the [g] or [y] flag is set.  The operations below follow the
    algorithms of the language specification step by step, on positions of
    the subject, with the matcher of [Regex] as the pattern matcher. *)

Module RegExpObjects.
Import Js Regex.

Record RegExp := {
  source : regex;
  ignoreCase : bool;       (* i *)
  global : bool;           (* g *)
  sticky : bool;           (* y *)
  lastIndex : nat
}.

Definition setLastIndex (i : nat) (R : RegExp) : RegExp :=
  {| source := source R; ignoreCase := ignoreCase R; global := global R;
     sticky := sticky R; lastIndex := i |}.

(** [subject.substring(from, to)] for [from <= to]. *)
Definition substring (from to : nat) (subject : string) : string :=
  takeStr (to - from) (dropStr from subject).

(** The scan of RegExpBuiltinExec: the matcher is tried at the start of
    [s], then one position further, up to and including the end of the
    subject.  The result is the offset of the first success and the length
    of the match. *)
Fixpoint search (icase : bool) (r : regex) (bos : bool) (s : string) : option (nat * nat) :=
  match matchHere icase r bos s with
  | Some n => Some (0, n)
  | None =>
      match s with
      | EmptyString => None
      | String _ t =>
          match search icase r false t with
          | Some (o, n) => Some (S o, n)
          | None => None
          end
      end
  end.

(** RegExpBuiltinExec(R, S): the index and the length of the match, or
    [None] for [null], and the object with its [lastIndex] updated.  The
    start is [lastIndex] with the [g] or [y] flag and 0 without; a sticky
    expression matches at the start only. *)
Definition regExpBuiltinExec (subject : string) (R : RegExp)
    : option (nat * nat) * RegExp :=
  let stateful := global R || sticky R in
  let start := if stateful then lastIndex R else 0 in
  let failure := (None, if stateful then setLastIndex 0 R else R) in
  if (String.length subject <? start)%nat then failure
  else
    let rest := dropStr start subject in
    let found :=
      if sticky R then
        match matchHere (ignoreCase R) (source R) (start =? 0)%nat rest with
        | Some n => Some (0, n)
        | None => None
        end
      else search (ignoreCase R) (source R) (start =? 0)%nat rest in
    match found with
    | None => failure
    | Some (o, n) =>
        (Some (start + o, n),
         if stateful then setLastIndex (start + o + n) R else R)
    end.

(** The loop that [match] and [replace] share for an expression with the
    [g] flag: exec until it gives [null], advancing [lastIndex] by one
    after an empty match.  Every round moves [lastIndex] forward, so
    [String.length subject + 2] rounds of fuel are enough. *)
Fixpoint execAll (fuel : nat) (subject : string) (R : RegExp)
    : list (nat * nat) * RegExp :=
  match fuel with
  | O => ([], R)
  | S fuel' =>
      match regExpBuiltinExec subject R with
      | (None, R') => ([], R')
      | (Some (index, n), R') =>
          let R'' := if (n =? 0)%nat then setLastIndex (lastIndex R' + 1) R' else R' in
          let (results, Rend) := execAll fuel' subject R'' in
          ((index, n) :: results, Rend)
      end
  end.

Definition results (subject : string) (R : RegExp) : list (nat * nat) * RegExp :=
  if global R then execAll (String.length subject + 2) subject (setLastIndex 0 R)
  else
    match regExpBuiltinExec subject R with
    | (None, R') => ([], R')
    | (Some result, R') => ([result], R')
    end.

(** RegExp.prototype[Symbol.match]: the matched texts; [null] is modelled
    as the empty array, which is how the callers treat it.  (Without the
    [g] flag the array would also hold the captures, which are not
    modelled; every [match] of the source has the flag.) *)
Definition regExpMatch (subject : string) (R : RegExp) : list string * RegExp :=
  let (found, R') := results subject R in
  (map (fun result : nat * nat =>
          substring (fst result) (fst result + snd result) subject) found, R').

(** The second half of RegExp.prototype[Symbol.replace]: the subject with
    each result replaced; a result that starts before the end of the
    previous one is skipped. *)
Fixpoint assemble (subject replacement : string) (nextSourcePosition : nat)
    (found : list (nat * nat)) : string :=
  match found with
  | [] => dropStr nextSourcePosition subject
  | (position, n) :: found' =>
      if (nextSourcePosition <=? position)%nat then
        substring nextSourcePosition position subject ++ replacement
        ++ assemble subject replacement (position + n) found'
      else assemble subject replacement nextSourcePosition found'
  end.

(** RegExp.prototype[Symbol.replace] with a replacement text that holds no
    [$] pattern. *)
Definition regExpReplace (subject replacement : string) (R : RegExp) : string * RegExp :=
  let (found, R') := results subject R in
  (assemble subject replacement 0 found, R').

(** RegExp.prototype.test *)
Definition regExpTest (subject : string) (R : RegExp) : bool * RegExp :=
  match regExpBuiltinExec subject R with
  | (Some _, R') => (true, R')
  | (None, R') => (false, R')
  end.

(** The loop of RegExp.prototype[Symbol.split] on the sticky [splitter]:
    [p] is the end of the last separator, [q] the position tried.  A round
    moves [q] forward or, after an empty separator, makes [p] equal to [q]
    so that the next round moves [q]: [2 * size + 1] rounds are enough. *)
Fixpoint splitLoop (fuel : nat) (subject : string) (splitter : RegExp) (p q : nat)
    : list string * RegExp :=
  match fuel with
  | O => ([dropStr p subject], splitter)
  | S fuel' =>
      let size := String.length subject in
      if (q <? size)%nat then
        match regExpBuiltinExec subject (setLastIndex q splitter) with
        | (None, splitter') => splitLoop fuel' subject splitter' p (q + 1)
        | (Some _, splitter') =>
            let e := Nat.min (lastIndex splitter') size in
            if (e =? p)%nat then splitLoop fuel' subject splitter' p (q + 1)
            else
              let (pieces, splitter'') := splitLoop fuel' subject splitter' e e in
              (substring p q subject :: pieces, splitter'')
        end
      else ([substring p size subject], splitter)
  end.

(** RegExp.prototype[Symbol.split] without a limit, for a pattern without
    capture groups, once the splitter has been constructed. *)
Definition regExpSplit (subject : string) (splitter : RegExp) : list string * RegExp :=
  match subject with
  | EmptyString =>
      match regExpBuiltinExec subject splitter with
      | (Some _, splitter') => ([], splitter')
      | (None, splitter') => ([subject], splitter')
      end
  | _ => splitLoop (2 * String.length subject + 1) subject splitter 0 0
  end.

End RegExpObjects.

(** ** The fact extractor over regular expression objects

    The extractor once more, this time with its regular expressions as
    objects of the realm: a literal allocates a fresh object each time it
    is evaluated, and [match], [replace], [split] and [test] act on the
    object they are given. *)

Module FactRuns.
Import Js Regex Facts RegExpObjects.

(** A computation in the realm, which is the store of the regular
    expression objects; an object is referred to by its place in the
    store. *)
Definition Run (A : Type) : Type := list RegExp -> A * list RegExp.

Definition retRun {A} (a : A) : Run A := fun realm => (a, realm).

Definition bindRun {A B} (m : Run A) (k : A -> Run B) : Run B :=
  fun realm => let (a, realm') := m realm in k a realm'.

Declare Scope run_scope.
Delimit Scope run_scope with run.
Notation "x <- m ;; k" := (bindRun m (fun x => k))
  (at level 100, m at next level, right associativity) : run_scope.
Local Open Scope run_scope.

(** Evaluating a literal [/r/flags]. *)
Definition newRegExp (r : regex) (icase g : bool) : Run nat :=
  fun realm =>
    (length realm,
     (realm ++ [{| source := r; ignoreCase := icase; global := g; sticky := false;
                   lastIndex := 0 |}])%list).

(** An operation on the object at [loc]. *)
Definition onObject {A} (missing : A) (loc : nat) (op : RegExp -> A * RegExp) : Run A :=
  fun realm =>
    match realm !! loc with
    | Some R => let (a, R') := op R in (a, <[loc := R']> realm)
    | None => (missing, realm)
    end.

(** [subject.match(regexp)] *)
Definition stringMatch (subject : string) (regexp : nat) : Run (list string) :=
  onObject [] regexp (regExpMatch subject).

(** [subject.replace(regexp, replacement)] *)
Definition stringReplace (subject : string) (regexp : nat) (replacement : string)
    : Run string :=
  onObject subject regexp (regExpReplace subject replacement).

(** [regexp.test(subject)] *)
Definition testAt (regexp : nat) (subject : string) : Run bool :=
  onObject false regexp (regExpTest subject).

(** [subject.split(regexp)]: the splitter is a new object, constructed from
    [regexp] with the [y] flag added; [regexp] itself is left alone. *)
Definition stringSplit (subject : string) (regexp : nat) : Run (list string) :=
  fun realm =>
    match realm !! regexp with
    | Some R =>
        let splitter := {| source := source R; ignoreCase := ignoreCase R;
                           global := global R; sticky := true; lastIndex := 0 |} in
        let (pieces, splitter') := regExpSplit subject splitter in
        (pieces, (realm ++ [splitter'])%list)
    | None => ([subject], realm)
    end.

(** An array literal of regular expression literals. *)
Fixpoint literals (g : bool) (patterns : list flagged) : Run (list nat) :=
  match patterns with
  | [] => retRun []
  | p :: rest =>
      regexp <- newRegExp (snd p) (fst p) g ;;
      others <- literals g rest ;;
      retRun (regexp :: others)
  end.

(** A loop whose rounds push facts. *)
Fixpoint forEach {A} (body : A -> Run (list Fact)) (l : list A) : Run (list Fact) :=
  match l with
  | [] => retRun []
  | x :: rest =>
      pushed <- body x ;;
      more <- forEach body rest ;;
      retRun (pushed ++ more)%list
  end.

(** One round of [matches.forEach] for the statistical patterns; the edge
    pattern is a literal of the callback. *)
Definition statRound (query m : string) : Run (list Fact) :=
  edge <- newRegExp edgePattern false true ;;
  cleanMatch <- stringReplace (trim m) edge EmptyString ;;
  retRun (if (10 <? String.length cleanMatch)%nat && (String.length cleanMatch <? 200)%nat
          then [mkFact cleanMatch (8 # 10) "Statistical information from: " query]
          else []).

(** One round of [sentences.forEach]; the definition pattern is a literal
    of the callback. *)
Definition sentenceRound (query sentence : string) : Run (list Fact) :=
  let hasKeyTerm := existsb (fun term => includes (toLowerCase sentence) term) keyTerms in
  definition <- newRegExp definitionPattern true false ;;
  hasDefinition <- testAt definition sentence ;;
  retRun (if hasKeyTerm && hasDefinition
             && (30 <? String.length (trim sentence))%nat
             && (String.length (trim sentence) <? 200)%nat
          then [mkFact (trim sentence) (6 # 10) "Definition from: " query]
          else []).

(** [for (const pattern of patterns)] with the body of the three pattern
    loops. *)
Definition patternLoop (mk : string -> Run (list Fact)) (patterns : list nat)
    (response : string) : Run (list Fact) :=
  forEach (fun pattern => matches <- stringMatch response pattern ;; forEach mk matches)
          patterns.

(** [extractFactsFromResponse], run in a realm. *)
Definition extractFactsFromResponseIn {C : Type} (response query : string)
    (chunks : list C) : Run (list Fact) :=
  statPatterns <- literals true Facts.statPatterns ;;
  statistical <- patternLoop (statRound query) statPatterns response ;;
  aimePatterns <- literals true Facts.aimePatterns ;;
  aime <- patternLoop (fun m => retRun (Facts.aimeFact query m)) aimePatterns response ;;
  conceptPatterns <- literals true Facts.conceptPatterns ;;
  conceptual <- patternLoop (fun m => retRun (Facts.conceptFact query m)) conceptPatterns
                            response ;;
  sentenceBreak <- newRegExp Facts.sentenceBreak false false ;;
  pieces <- stringSplit response sentenceBreak ;;
  let sentences := List.filter (fun s => (30 <? String.length (trim s))%nat) pieces in
  definitions <- forEach (sentenceRound query) sentences ;;
  let facts := (statistical ++ aime ++ conceptual ++ definitions)%list in
  retRun (take 3 (filterIndexedFrom
                    (fun fact index =>
                       Z.eqb index
                             (findIndex (fun f => String.eqb (content f) (content fact)) facts))
                    0%Z facts)).

(** An expression with the [g] flag that is kept between two uses, for
    comparison: [/a/g]. *)
Definition keptPattern : RegExp :=
  {| source := Chr (CLit "a"); ignoreCase := false; global := true; sticky := false;
     lastIndex := 0 |}.

End FactRuns.

(** ** What a run keeps of the realm *)

Module RealmInvariant.
Import Regex RegExpObjects FactRuns.

(** The object at [loc] is an expression for the pattern [r] with the flags
    [icase] and [g], whatever its [lastIndex]. *)
Definition holds (realm : list RegExp) (loc : nat) (r : regex) (icase g : bool) : Prop :=
  exists R,
    realm !! loc = Some R
    /\ source R = r /\ ignoreCase R = icase /\ global R = g /\ sticky R = false.

(** [realm'] still has the expressions of [realm], at their places. *)
Definition extends (realm realm' : list RegExp) : Prop :=
  forall loc r icase g, holds realm loc r icase g -> holds realm' loc r icase g.

(** From every realm, [m] returns [v]. *)
Definition returns {A} (m : Run A) (v : A) : Prop :=
  forall realm, exists realm', m realm = (v, realm') /\ extends realm realm'.

End RealmInvariant.

(** * Proofs *)
(** ** The merger: no duplicate, and the per-document cap *)

Module MergerProofs.
Import Js Effects Retrieval Statements MergerInvariant.

Lemma countTitle_app title (l1 l2 : list Chunk) :
  countTitle title (l1 ++ l2) = (countTitle title l1 + countTitle title l2)%nat.
Proof. unfold countTitle. by rewrite List.filter_app, length_app. Qed.

Lemma countTitle_one title (c : Chunk) :
  countTitle title [c] = if String.eqb (document_title c) title then 1%nat else 0%nat.
Proof. unfold countTitle. simpl. by destruct (String.eqb _ _). Qed.

Lemma loopInv_start : loopInv [] ∅ ∅.
Proof.
  split.
  - constructor.
  - intros c Hc. by apply elem_of_nil in Hc.
  - intros title. by rewrite lookup_empty.
  - intros title. unfold countTitle. simpl. lia.
Qed.

Lemma loopInv_push uniqueResults seenChunks documentCounts (chunk : Chunk) :
  loopInv uniqueResults seenChunks documentCounts ->
  chunk_id chunk ∉ seenChunks ->
  (default 0%nat (documentCounts !! document_title chunk) < maxPerDocument)%nat ->
  loopInv (uniqueResults ++ [chunk]) ({[chunk_id chunk]} ∪ seenChunks)
          (<[document_title chunk := S (default 0%nat (documentCounts !! document_title chunk))]>
             documentCounts).
Proof.
  intros [Hnd Hseen Hcnt Hcap] Hfresh Hlt. split.
  - rewrite map_app. simpl. apply NoDup_app. split; [done|]. split.
    + intros x Hx Hx'. apply list_elem_of_singleton in Hx'. subst x.
      apply list_elem_of_fmap in Hx as (c & Hc & Hin).
      apply Hfresh. rewrite Hc. by apply Hseen.
    + apply NoDup_singleton.
  - intros c Hc. apply elem_of_app in Hc as [Hc|Hc].
    + apply elem_of_union_r. by apply Hseen.
    + apply list_elem_of_singleton in Hc. subst c. apply elem_of_union_l.
      by apply elem_of_singleton.
  - intros title. rewrite countTitle_app, countTitle_one.
    destruct (String.eqb_spec (document_title chunk) title) as [->|Hne].
    + rewrite lookup_insert_eq. simpl. rewrite Hcnt. lia.
    + rewrite lookup_insert_ne by done. rewrite Hcnt. lia.
  - intros title. rewrite countTitle_app, countTitle_one.
    destruct (String.eqb_spec (document_title chunk) title) as [Heq|Hne].
    + rewrite Heq in Hlt. rewrite Hcnt. lia.
    + specialize (Hcap title). lia.
Qed.

Lemma mergeLoop_inv limit allResults :
  forall uniqueResults seenChunks documentCounts,
    loopInv uniqueResults seenChunks documentCounts ->
    NoDup (map chunk_id (mergeLoop limit allResults uniqueResults seenChunks documentCounts))
    /\ forall title,
        (countTitle title (mergeLoop limit allResults uniqueResults seenChunks documentCounts)
         <= maxPerDocument)%nat.
Proof.
  induction allResults as [|chunk rest IH]; intros u s m Hinv; simpl.
  - split; [apply Hinv | apply Hinv].
  - destruct (decide (chunk_id chunk ∈ s)) as [Hin|Hfresh]; [by apply IH|].
    destruct (default 0%nat (m !! document_title chunk) <? maxPerDocument)%nat eqn:Hlt;
      [|by apply IH].
    apply Nat.ltb_lt in Hlt.
    pose proof (loopInv_push u s m chunk Hinv Hfresh Hlt) as Hinv'.
    destruct (limit <=? length (u ++ [chunk]))%nat; [|by apply IH].
    split; apply Hinv'.
Qed.

(** The accumulator is never shortened. *)
Lemma mergeLoop_extends limit allResults :
  forall uniqueResults seenChunks documentCounts,
    exists more,
      mergeLoop limit allResults uniqueResults seenChunks documentCounts
      = (uniqueResults ++ more)%list.
Proof.
  induction allResults as [|chunk rest IH]; intros u s m; simpl.
  - exists []. by rewrite app_nil_r.
  - destruct (decide _); [apply IH|].
    destruct (_ <? _)%nat; [|apply IH].
    destruct (_ <=? _)%nat.
    + by exists [chunk].
    + destruct (IH (u ++ [chunk])%list ({[chunk_id chunk]} ∪ s)
                  (<[document_title chunk := S (default 0%nat (m !! document_title chunk))]> m))
        as [more Hmore].
      exists (chunk :: more). rewrite Hmore. by rewrite <- app_assoc.
Qed.

(** Every result was a candidate. *)
Lemma mergeLoop_subset limit allResults :
  forall uniqueResults seenChunks documentCounts c,
    c ∈ mergeLoop limit allResults uniqueResults seenChunks documentCounts ->
    c ∈ uniqueResults \/ c ∈ allResults.
Proof.
  induction allResults as [|chunk rest IH]; intros u s m c; simpl.
  - by left.
  - destruct (decide _).
    { intros H. apply IH in H as [H|H]; [by left|right; by constructor]. }
    destruct (_ <? _)%nat.
    2:{ intros H. apply IH in H as [H|H]; [by left|right; by constructor]. }
    destruct (_ <=? _)%nat.
    + intros H. apply elem_of_app in H as [H|H]; [by left|].
      apply list_elem_of_singleton in H. subst. right. constructor.
    + intros H. apply IH in H as [H|H]; [|right; by constructor].
      apply elem_of_app in H as [H|H]; [by left|].
      apply list_elem_of_singleton in H. subst. right. constructor.
Qed.

Lemma insertByScore_elem c x l : x ∈ insertByScore c l <-> x = c \/ x ∈ l.
Proof.
  induction l as [|d l IH]; simpl.
  - rewrite list_elem_of_singleton. split; [by left|intros [?|H]; [done|by apply elem_of_nil in H]].
  - destruct (Qle_bool _ _).
    + by rewrite elem_of_cons.
    + rewrite !elem_of_cons, IH. tauto.
Qed.

Lemma sortByScore_elem x l : x ∈ sortByScore l <-> x ∈ l.
Proof.
  induction l as [|c l IH]; simpl; [done|].
  rewrite insertByScore_elem, elem_of_cons, IH. tauto.
Qed.

Lemma insertByScore_length c l : length (insertByScore c l) = S (length l).
Proof.
  induction l as [|d l IH]; simpl; [done|].
  destruct (Qle_bool _ _); simpl; [done|by rewrite IH].
Qed.

Lemma sortByScore_length l : length (sortByScore l) = length l.
Proof.
  induction l as [|c l IH]; simpl; [done|]. by rewrite insertByScore_length, IH.
Qed.

Lemma merge_nodup limit allResults : NoDup (map chunk_id (merge limit allResults)).
Proof. unfold merge. apply mergeLoop_inv, loopInv_start. Qed.

Lemma merge_cap limit allResults title :
  (countTitle title (merge limit allResults) <= maxPerDocument)%nat.
Proof. unfold merge. apply mergeLoop_inv, loopInv_start. Qed.

Lemma merge_subset limit allResults c : c ∈ merge limit allResults -> c ∈ allResults.
Proof.
  unfold merge. intros H. apply mergeLoop_subset in H as [H|H].
  - by apply elem_of_nil in H.
  - by apply sortByScore_elem.
Qed.

Lemma merge_nonempty limit allResults : allResults <> [] -> merge limit allResults <> [].
Proof.
  intros Hne. unfold merge.
  destruct (sortByScore allResults) as [|chunk rest] eqn:Hs.
  - apply (f_equal length) in Hs. rewrite sortByScore_length in Hs.
    destruct allResults; [done|discriminate].
  - simpl. destruct (decide _) as [Hin|_]; [by apply elem_of_empty in Hin|].
    rewrite lookup_empty. simpl.
    destruct (limit <=? 1)%nat; [done|].
    destruct (mergeLoop_extends limit rest [chunk] ({[chunk_id chunk]} ∪ ∅)
                (<[document_title chunk := 1%nat]> ∅)) as [more ->].
    done.
Qed.

End MergerProofs.

(** ** Retrieval scenarios *)

Module RetrievalProofs.
Import Js Effects Retrieval Statements MergerProofs Scenarios.

Lemma value_bind {A B} (m : Traced A) (k : A -> Traced B) :
  value (bind m k) = value (k (value m)).
Proof. unfold value, bind. destruct m as [t a]. simpl. by destruct (k a). Qed.

Lemma trace_bind {A B} (m : Traced A) (k : A -> Traced B) :
  trace (bind m k) = (trace m ++ trace (k (value m)))%list.
Proof. unfold value, trace, bind. destruct m as [t a]. simpl. by destruct (k a). Qed.

Lemma insertByIndex_length c l : length (insertByIndex c l) = S (length l).
Proof.
  induction l as [|d l IH]; simpl; [done|].
  destruct (_ <=? _)%Z; simpl; [done|by rewrite IH].
Qed.

Lemma orderByIndex_length l : length (orderByIndex l) = length l.
Proof.
  induction l as [|c l IH]; simpl; [done|]. by rewrite insertByIndex_length, IH.
Qed.

Lemma ascending_cons c l :
  ascending l -> (forall d, head l = Some d -> (chunk_index c <= chunk_index d)%Z) ->
  ascending (c :: l).
Proof. intros Hl Hhd. destruct l as [|d l]; simpl; [done|]. split; [by apply Hhd|done]. Qed.

Lemma ascending_tail c l : ascending (c :: l) -> ascending l.
Proof. destruct l as [|d l]; simpl; [done|]. by intros [_ ?]. Qed.

Lemma insertByIndex_ascending c l : ascending l -> ascending (insertByIndex c l).
Proof.
  induction l as [|d l IH]; intros Hl; simpl; [done|].
  destruct (chunk_index c <=? chunk_index d)%Z eqn:Hle.
  - apply Z.leb_le in Hle. apply ascending_cons; [done|]. intros ? [= <-]. done.
  - apply Z.leb_gt in Hle. apply ascending_cons.
    + apply IH. by eapply ascending_tail.
    + intros e He. destruct l as [|d' l]; simpl in He.
      * injection He as <-. lia.
      * destruct (chunk_index c <=? chunk_index d')%Z; simpl in He; injection He as <-.
        -- lia.
        -- simpl in Hl. lia.
Qed.

Lemma orderByIndex_ascending l : ascending (orderByIndex l).
Proof. induction l as [|c l IH]; simpl; [done|]. by apply insertByIndex_ascending. Qed.

Lemma ascending_take n l : ascending l -> ascending (take n l).
Proof.
  revert l. induction n as [|n IH]; intros [|c l] Hl; simpl; try done.
  apply ascending_cons.
  - apply IH. by eapply ascending_tail.
  - intros d Hd. destruct l as [|d' l]; [by destruct n|].
    destruct n; simpl in Hd; [done|]. injection Hd as <-. simpl in Hl. lia.
Qed.

Lemma ascending_columns l : ascending l -> ascending (map columns l).
Proof.
  induction l as [|c l IH]; simpl; [done|].
  destruct l as [|d l]; simpl in *; [done|]. intros [? ?]. split; [done|by apply IH].
Qed.

(** The adapter stage alone: the slice handed to the merger holds
    [min limit n] chunks of the document, in ascending index order. *)
Lemma documentScoped_stage db id limit :
  let docChunks := map columns (rowsOf db (QDocument id)) in
  length (documentScoped limit docChunks) = Nat.min limit (length docChunks)
  /\ ascending (documentScoped limit docChunks)
  /\ forall c, c ∈ documentScoped limit docChunks -> document_id c = id.
Proof.
  simpl. unfold documentScoped. split; [by rewrite length_take|]. split.
  - apply ascending_take, ascending_columns, orderByIndex_ascending.
  - intros c Hc. apply elem_of_take in Hc as (i & Hc & _).
    apply list_elem_of_lookup_2 in Hc.
    apply list_elem_of_fmap in Hc as (d & -> & Hd). simpl.
    assert (Hsub : forall l x, x ∈ orderByIndex l -> x ∈ l).
    { clear. induction l as [|c l IH]; simpl; intros x Hx; [done|].
      assert (Hins : forall l x, x ∈ insertByIndex c l -> x = c \/ x ∈ l).
      { clear. induction l as [|d l IH]; simpl; intros x Hx.
        - apply list_elem_of_singleton in Hx. by left.
        - destruct (_ <=? _)%Z.
          + apply elem_of_cons in Hx. tauto.
          + apply elem_of_cons in Hx as [->|Hx]; [right; constructor|].
            apply IH in Hx as [->|Hx]; [by left|right; by constructor]. }
      apply Hins in Hx as [->|Hx]; [constructor|]. constructor. by apply IH. }
    apply Hsub in Hd. apply list_elem_of_In, filter_In in Hd as [_ Hd].
    by apply String.eqb_eq in Hd.
Qed.

End RetrievalProofs.

Module RetrievalClaims.
Import Js Effects Retrieval Statements MergerProofs RetrievalProofs Scenarios.

Lemma mergeLoop_length limit allResults :
  forall uniqueResults seenChunks documentCounts,
    (length (mergeLoop limit allResults uniqueResults seenChunks documentCounts)
     <= length uniqueResults + length allResults)%nat.
Proof.
  induction allResults as [|chunk rest IH]; intros u s m; simpl; [lia|].
  destruct (decide _); [specialize (IH u s m); lia|].
  destruct (_ <? _)%nat; [|specialize (IH u s m); lia].
  destruct (_ <=? _)%nat.
  - rewrite length_app. simpl. lia.
  - etrans; [apply IH|]. rewrite length_app. simpl. lia.
Qed.

Lemma merge_length limit allResults :
  (length (merge limit allResults) <= length allResults)%nat.
Proof.
  unfold merge. etrans; [apply mergeLoop_length|]. simpl. by rewrite sortByScore_length.
Qed.

(** Every path of [searchSimilarChunks] ends in the merger or in an empty
    result. *)
Lemma search_shape db at_ embedding limit query documentId themes :
  value (searchSimilarChunks db at_ embedding limit query documentId themes) = []
  \/ exists allResults,
      value (searchSimilarChunks db at_ embedding limit query documentId themes)
      = merge limit allResults.
Proof.
  unfold searchSimilarChunks. destruct (truthy documentId).
  - rewrite value_bind. simpl. destruct (fails db _); simpl; [by left|].
    right. by eexists.
  - rewrite !value_bind. right. by eexists.
Qed.

(** Without a document scope, an empty gathering hands the merger what the
    fallback select returned. *)
Lemma search_fallback db at_ embedding limit query documentId themes :
  truthy documentId = false ->
  value (gather db at_ embedding query themes) = [] ->
  value (searchSimilarChunks db at_ embedding limit query documentId themes)
  = merge limit (if fails db QAny then [] else map columns (take 5 (document_chunks db))).
Proof.
  intros Hdoc Hgather. unfold searchSimilarChunks. rewrite Hdoc.
  rewrite value_bind, Hgather, value_bind. simpl. unfold fallback.
  rewrite value_bind. simpl. by destruct (fails db QAny).
Qed.

End RetrievalClaims.

(** ** Strings *)

Module StringFacts.
Import Js Statements.

Lemma str_app_cons (x : ascii) (a b : string) : String x a ++ b = String x (a ++ b).
Proof. reflexivity. Qed.

Lemma str_app_nil_l (b : string) : "" ++ b = b.
Proof. reflexivity. Qed.

Lemma str_app_assoc (a b c : string) : (a ++ b) ++ c = a ++ (b ++ c).
Proof.
  induction a as [|x a IH]; [done|]. rewrite !str_app_cons. f_equal. exact IH.
Qed.

Lemma str_app_nil_r (a : string) : a ++ "" = a.
Proof. induction a as [|x a IH]; [done|]. rewrite str_app_cons. f_equal. exact IH. Qed.

Lemma str_length_app (a b : string) :
  String.length (a ++ b) = (String.length a + String.length b)%nat.
Proof.
  induction a as [|x a IH]; [done|]. rewrite str_app_cons. simpl. f_equal. exact IH.
Qed.

Lemma occursIn_refl (s : string) : occursIn s s.
Proof. exists "", "". by rewrite str_app_nil_l, str_app_nil_r. Qed.

Lemma occursIn_app_l (x a b : string) : occursIn x a -> occursIn x (a ++ b).
Proof.
  intros (u & v & ->). exists u, (v ++ b). by rewrite !str_app_assoc.
Qed.

Lemma occursIn_app_r (x a b : string) : occursIn x b -> occursIn x (a ++ b).
Proof.
  intros (u & v & ->). exists (a ++ u), v. by rewrite !str_app_assoc.
Qed.

Lemma occursIn_join (sep x : string) (parts : list string) :
  x ∈ parts -> occursIn x (join sep parts).
Proof.
  induction parts as [|p rest IH]; intros Hx; [by apply elem_of_nil in Hx|].
  apply elem_of_cons in Hx as [->|Hx].
  - destruct rest; simpl; [apply occursIn_refl|apply occursIn_app_l, occursIn_refl].
  - specialize (IH Hx). destruct rest as [|q rest]; [by apply elem_of_nil in Hx|].
    change (join sep (p :: q :: rest)) with (p ++ sep ++ join sep (q :: rest)).
    by apply occursIn_app_r, occursIn_app_r.
Qed.

End StringFacts.

(** ** Answer generator and request handler *)

Module AnswerProofs.
Import Js Effects Retrieval Enhancement Answer Handler Statements StringFacts RetrievalProofs.

(** A rendered chunk occurs in the system instruction built from a list
    that holds it. *)
Lemma rendered_in_prompt chunks e chunk :
  chunk ∈ chunks -> occursIn (renderChunk chunk) (systemPrompt chunks e).
Proof.
  intros Hin. unfold systemPrompt, contextOf.
  apply occursIn_app_r, occursIn_app_l, occursIn_join.
  apply list_elem_of_fmap. by exists chunk.
Qed.

(** [complete] issues exactly one provider call, which carries the system
    instruction it was given as first message or as system parameter. *)
Lemma complete_call p model query chunks history e :
  exists ev,
    trace (complete p model (systemPrompt chunks e) (messagesOf query chunks history e)) = [ev]
    /\ isProviderCall ev = true
    /\ systemOf ev = Some (systemPrompt chunks e).
Proof.
  unfold complete. destruct (_ && _); eexists; (split; [reflexivity|split; reflexivity]).
Qed.

(** [generateResponse] unfolded: one provider call, then the response
    record or the rethrown error. *)
Lemma generateResponse_unfold p query chunks model history e :
  generateResponse p query chunks model history e
  = (trace (complete p model (systemPrompt chunks e) (messagesOf query chunks history e)),
     match value (complete p model (systemPrompt chunks e) (messagesOf query chunks history e)) with
     | Thrown _ => Thrown "Failed to generate response"
     | Returned t =>
         Returned {| answer := t;
                     citations := map citationOf chunks;
                     extractable_facts := Facts.extractFactsFromResponse t query chunks;
                     model_used := model;
                     intelligence_enhancement := e |}
     end).
Proof.
  unfold generateResponse.
  destruct (complete p model _ _) as [t [txt|err]]; simpl; by rewrite app_nil_r.
Qed.

End AnswerProofs.

(** ** Concept enhancer *)

Module ConceptProofs.
Import Js Concepts.

Lemma arrIncludes_In (arr : list string) (x : string) :
  arrIncludes arr x = true <-> In x arr.
Proof.
  unfold arrIncludes. rewrite existsb_exists. split.
  - intros (y & Hy & Heq). apply String.eqb_eq in Heq. by subst.
  - intros Hx. exists x. split; [done|apply String.eqb_refl].
Qed.


End ConceptProofs.

(** ** The matcher on iterated classes *)

Module RegexProofs.
Import Js Regex ClassRuns StringFacts.

Lemma shorter_tail c t : shorter t (String c t) = true.
Proof. unfold shorter. simpl. apply Nat.ltb_lt. lia. Qed.

(** With enough fuel, [star] over a class is the closed form. *)
Lemma star_class icase k fuel :
  forall bos s, (String.length s <= fuel)%nat ->
    star (run icase (Chr k)) fuel bos s = greedyRun icase k s.
Proof.
  induction fuel as [|fuel IH]; intros bos s Hlen.
  - destruct s; [done|simpl in Hlen; lia].
  - destruct s as [|c t]; [done|]. simpl in Hlen.
    cbn [star run greedyRun]. destruct (accepts icase k c); [|done].
    cbn [flat_map]. rewrite shorter_tail, IH by lia. by rewrite app_nil_r.
Qed.

Lemma run_star_class icase k bos s :
  run icase (Star (Chr k)) bos s = greedyRun icase k s.
Proof. cbn [run]. by apply star_class. Qed.

Lemma greedyRun_head icase k s :
  exists rest, greedyRun icase k s = skipRun icase k s :: rest.
Proof.
  induction s as [|c t [rest IH]]; [by exists []|]. simpl.
  destruct (accepts icase k c); [|by exists []].
  rewrite IH. by eexists.
Qed.

Lemma takeRun_skipRun icase k s : s = takeRun icase k s ++ skipRun icase k s.
Proof.
  induction s as [|c t IH]; [done|]. simpl.
  destruct (accepts icase k c); [|done]. rewrite str_app_cons. by f_equal.
Qed.



(** [$] after an iterated class succeeds exactly when the class accepts the
    whole rest of the subject. *)
Lemma run_class_eol icase k (f : string -> bool) s :
  flat_map (fun s' => run icase Eol (f s') s') (greedyRun icase k s)
  = if allAccepted icase k s then [EmptyString] else [].
Proof.
  induction s as [|c t IH]; [done|]. cbn [greedyRun allAccepted].
  destruct (accepts icase k c); cbn [andb]; [|done].
  rewrite flat_map_app, IH. cbn [flat_map run]. by rewrite !app_nil_r.
Qed.

End RegexProofs.

(** ** Fact extractor *)

Module FactProofs.
Import Js Regex ClassRuns StringFacts RegexProofs Facts Statements.

Lemma run_Seq icase r1 r2 bos s :
  run icase (Seq r1 r2) bos s
  = flat_map (fun s' => run icase r2 (bos && sameLen s' s) s') (run icase r1 bos s).
Proof. reflexivity. Qed.

Lemma run_Alt icase r1 r2 bos s :
  run icase (Alt r1 r2) bos s = (run icase r1 bos s ++ run icase r2 bos s)%list.
Proof. reflexivity. Qed.



Lemma run_Bol icase bos s : run icase Bol bos s = if bos then [s] else [].
Proof. reflexivity. Qed.






(** *** Trimming and the edge pattern *)



Lemma trimEnd_prefix s : exists r, s = trimEnd s ++ r.
Proof.
  induction s as [|c s [r IH]]; [by exists ""|]. cbn [trimEnd].
  destruct (trimEnd s) as [|y u] eqn:Hu.
  - destruct (isSpace c).
    + by exists (String c s).
    + exists s. by rewrite str_app_cons, str_app_nil_l.
  - exists r. rewrite str_app_cons. by f_equal.
Qed.

Lemma removeAllFrom_skip icase r t :
  forall bos, removeAllFrom icase r bos (String.length t) t = EmptyString.
Proof. induction t as [|c t IH]; intros bos; [done|]. cbn [String.length removeAllFrom]. apply IH. Qed.

Lemma edge_inside s :
  matchHere false edgePattern false s
  = if allAccepted false (CNot CWord) s then Some (String.length s) else None.
Proof.
  unfold matchHere, edgePattern, notWord.
  rewrite run_Alt, run_Seq, run_Bol, run_Seq, run_star_class. cbn [flat_map app].
  rewrite (run_class_eol false (CNot CWord) (fun s' => false && sameLen s' s)).
  destruct (allAccepted false (CNot CWord) s); [|done].
  cbn [String.length]. by rewrite Nat.sub_0_r.
Qed.

Lemma stripTail_cons c t :
  stripTail (String c t)
  = if allAccepted false (CNot CWord) (String c t) then EmptyString
    else String c (stripTail t).
Proof.
  unfold stripTail. cbn [removeAllFrom]. rewrite edge_inside.
  destruct (allAccepted false (CNot CWord) (String c t)); [|done].
  cbn [String.length]. apply removeAllFrom_skip.
Qed.



Lemma stripTail_prefix s : exists r, s = stripTail s ++ r.
Proof.
  induction s as [|c s [r IH]]; [by exists ""|]. rewrite stripTail_cons.
  destruct (allAccepted false (CNot CWord) (String c s)).
  - by exists (String c s).
  - exists r. rewrite str_app_cons. by f_equal.
Qed.


(** *** Substring tests *)

Lemma startsWith_app a b n : startsWith a n = true -> startsWith (a ++ b) n = true.
Proof.
  revert a. induction n as [|x n IH]; intros a; [done|].
  destruct a as [|y a]; [intros H; cbn in H; discriminate|].
  rewrite str_app_cons. cbn [startsWith].
  intros H. apply andb_true_iff in H as [Hx Hn]. rewrite Hx. by apply IH.
Qed.





End FactProofs.

(** ** The percentage match that covers the span *)

Module CoveringMatch.
Import Js Regex ClassRuns StringFacts RegexProofs Facts Statements FactProofs.



Lemma take_drop_str n (s : string) : s = takeStr n s ++ dropStr n s.
Proof.
  revert s. induction n as [|n IH]; intros [|c s]; try done.
  cbn [takeStr dropStr]. rewrite str_app_cons. f_equal. apply IH.
Qed.




(** *** What the percentage pattern matches *)






(** *** The match that covers the span *)





(** *** Cleaning the covering match *)






(** *** From a match to a returned fact *)









End CoveringMatch.

(** ** The operations on regular expression objects *)

Module RegExpProofs.
Import Js Regex StringFacts RegExpObjects CoveringMatch.

(** *** Positions of a subject *)

Lemma dropStr_nil n : dropStr n "" = "".
Proof. by destruct n. Qed.

Lemma dropStr_add a b (s : string) : dropStr (a + b) s = dropStr b (dropStr a s).
Proof.
  revert s. induction a as [|a IH]; intros s; [done|].
  destruct s as [|c s]; [by rewrite !dropStr_nil|]. apply IH.
Qed.

Lemma dropStr_length n (s : string) :
  String.length (dropStr n s) = (String.length s - n)%nat.
Proof.
  revert s. induction n as [|n IH]; intros [|c s]; simpl; first [done|lia].
Qed.

Lemma dropStr_all n (s : string) : (String.length s <= n)%nat -> dropStr n s = "".
Proof.
  revert s. induction n as [|n IH]; intros [|c s] H; simpl in *; try done; try lia.
  apply IH. lia.
Qed.

Lemma takeStr_all n (s : string) : (String.length s <= n)%nat -> takeStr n s = s.
Proof.
  revert s. induction n as [|n IH]; intros [|c s] H; simpl in *; try done; try lia.
  f_equal. apply IH. lia.
Qed.

Lemma takeStr_add a b (s : string) :
  takeStr (a + b) s = takeStr a s ++ takeStr b (dropStr a s).
Proof.
  revert s. induction a as [|a IH]; intros s; [done|].
  destruct s as [|c s]; [by destruct b|].
  cbn [Nat.add takeStr dropStr]. rewrite str_app_cons. f_equal. apply IH.
Qed.

Lemma substring_app p k j (s : string) :
  (p <= k)%nat -> (k <= j)%nat ->
  substring p k s ++ substring k j s = substring p j s.
Proof.
  intros Hpk Hkj. unfold substring.
  assert (Hk : dropStr k s = dropStr (k - p) (dropStr p s)).
  { rewrite <- dropStr_add. f_equal. lia. }
  rewrite Hk. replace (j - p)%nat with ((k - p) + (j - k))%nat by lia.
  by rewrite takeStr_add.
Qed.

Lemma substring_empty p (s : string) : substring p p s = "".
Proof. unfold substring. rewrite Nat.sub_diag. by destruct (dropStr p s). Qed.

Lemma substring_to_end p k (s : string) :
  (String.length s <= k)%nat -> substring p k s = dropStr p s.
Proof.
  intros H. unfold substring. apply takeStr_all. rewrite dropStr_length. lia.
Qed.

Lemma substring_rest p k (s : string) :
  (p <= k)%nat -> substring p k s ++ dropStr k s = dropStr p s.
Proof.
  intros H. unfold substring.
  assert (Hk : dropStr k s = dropStr (k - p) (dropStr p s)).
  { rewrite <- dropStr_add. f_equal. lia. }
  rewrite Hk. symmetry. apply take_drop_str.
Qed.

(** The character at a position. *)
Lemma substring_char q c t (s : string) :
  dropStr q s = String c t -> substring q (q + 1) s = String c "" /\ dropStr (q + 1) s = t.
Proof.
  intros H. unfold substring. rewrite dropStr_add, H.
  replace (q + 1 - q)%nat with 1%nat by lia. by destruct t.
Qed.

(** *** The scan *)

Lemma matchHere_bound icase r bos s n :
  matchHere icase r bos s = Some n -> (n <= String.length s)%nat.
Proof.
  unfold matchHere. destruct (run icase r bos s); [done|]. intros [= <-]. lia.
Qed.

Lemma search_bound icase r s :
  forall bos o n, search icase r bos s = Some (o, n) -> (o + n <= String.length s)%nat.
Proof.
  induction s as [|c t IH]; intros bos o n; cbn [search].
  - destruct (matchHere icase r bos "") as [m|] eqn:Hm; [|done].
    intros [= <- <-]. by apply matchHere_bound in Hm.
  - destruct (matchHere icase r bos (String c t)) as [m|] eqn:Hm.
    + intros [= <- <-]. by apply matchHere_bound in Hm.
    + destruct (search icase r false t) as [[o' n']|] eqn:Hs; [|done].
      intros [= <- <-]. apply IH in Hs. simpl. lia.
Qed.

(** *** [match] *)

Lemma matchAllFrom_beyond icase r (s : string) :
  forall bos k, (String.length s < k)%nat -> matchAllFrom icase r bos k s = [].
Proof.
  induction s as [|c t IH]; intros bos [|k] H; simpl in H; try lia; [done|].
  cbn [matchAllFrom]. apply IH. lia.
Qed.

Lemma matchAllFrom_skip icase r k :
  forall (s : string) bos j, (k <= String.length s)%nat ->
    matchAllFrom icase r bos (k + j) s
    = matchAllFrom icase r (bos && (k =? 0)%nat) j (dropStr k s).
Proof.
  induction k as [|k IH]; intros s bos j H.
  - by rewrite andb_true_r.
  - destruct s as [|c t]; [simpl in H; lia|]. simpl in H.
    cbn [Nat.add matchAllFrom dropStr]. rewrite IH by lia.
    by rewrite andb_false_r.
Qed.

Lemma matchAllFrom_start icase r bos c t :
  matchAllFrom icase r bos 0 (String c t)
  = match matchHere icase r bos (String c t) with
    | Some n => takeStr n (String c t) :: matchAllFrom icase r false (Nat.pred n) t
    | None => matchAllFrom icase r false 0 t
    end.
Proof. reflexivity. Qed.

Lemma matchAllFrom_next icase r bos k c t :
  matchAllFrom icase r bos (S k) (String c t) = matchAllFrom icase r false k t.
Proof. reflexivity. Qed.

(** The matches from a position on: the first one is where the scan finds
    it, the others follow it. *)
Lemma matchAllFrom_search icase r (s : string) :
  forall bos,
    matchAllFrom icase r bos 0 s
    = match search icase r bos s with
      | None => []
      | Some (o, n) =>
          takeStr n (dropStr o s) :: matchAllFrom icase r false (o + Nat.max n 1) s
      end.
Proof.
  induction s as [|c t IH]; intros bos.
  - cbn [search]. change (matchAllFrom icase r bos 0 "")
      with (match matchHere icase r bos "" with
            | Some n => [takeStr n ""]
            | None => []
            end).
    destruct (matchHere icase r bos "") as [n|]; [|done].
    by rewrite (matchAllFrom_beyond icase r "" false (0 + Nat.max n 1)) by (simpl; lia).
  - rewrite matchAllFrom_start. cbn [search].
    destruct (matchHere icase r bos (String c t)) as [n|].
    + replace (0 + Nat.max n 1)%nat with (S (Nat.pred n)) by lia.
      by rewrite matchAllFrom_next.
    + rewrite IH. destruct (search icase r false t) as [[o n]|]; [|done].
      by rewrite Nat.add_succ_l, matchAllFrom_next.
Qed.

Lemma setLastIndex_twice i j R : setLastIndex i (setLastIndex j R) = setLastIndex i R.
Proof. reflexivity. Qed.

(** The loop of [match] and [replace] from [lastIndex] on: it ends with
    [lastIndex] back at 0, and the texts at the positions it found are the
    matches of the scan from that position. *)
Lemma execAll_matches (subject : string) (R : RegExp) fuel :
  global R = true -> sticky R = false ->
  forall k,
    (k <= String.length subject + 1)%nat ->
    (String.length subject + 2 <= fuel + k)%nat ->
    snd (execAll fuel subject (setLastIndex k R)) = setLastIndex 0 R
    /\ map (fun result : nat * nat =>
              substring (fst result) (fst result + snd result) subject)
           (fst (execAll fuel subject (setLastIndex k R)))
       = matchAllFrom (ignoreCase R) (source R) (k =? 0)%nat k subject.
Proof.
  intros Hg Hy. induction fuel as [|fuel IH]; intros k Hk Hfuel; [lia|].
  cbn [execAll]. unfold regExpBuiltinExec.
  cbn [global sticky lastIndex setLastIndex source ignoreCase]. rewrite Hg. cbn [orb].
  rewrite Hy.
  destruct (String.length subject <? k)%nat eqn:Hend.
  { apply Nat.ltb_lt in Hend. split; [done|]. by rewrite matchAllFrom_beyond. }
  apply Nat.ltb_ge in Hend.
  pose proof (matchAllFrom_skip (ignoreCase R) (source R) k subject (k =? 0)%nat 0 Hend)
    as Hskip.
  rewrite Nat.add_0_r, andb_diag in Hskip. rewrite Hskip, matchAllFrom_search.
  destruct (search (ignoreCase R) (source R) (k =? 0)%nat (dropStr k subject))
    as [[o n]|] eqn:Hsearch; [|done].
  apply search_bound in Hsearch as Hbound. rewrite dropStr_length in Hbound.
  assert (Hnext : (if (n =? 0)%nat
                   then setLastIndex (lastIndex (setLastIndex (k + o + n) (setLastIndex k R)) + 1)
                          (setLastIndex (k + o + n) (setLastIndex k R))
                   else setLastIndex (k + o + n) (setLastIndex k R))
                  = setLastIndex (k + o + Nat.max n 1) R).
  { destruct (Nat.eqb_spec n 0) as [->|Hn].
    - unfold setLastIndex. cbn [lastIndex source ignoreCase global sticky Nat.eqb].
      f_equal. lia.
    - unfold setLastIndex.
      cbn [lastIndex source ignoreCase global sticky]. f_equal. lia. }
  rewrite Hnext.
  destruct (IH (k + o + Nat.max n 1)%nat) as [Hend' Hrest]; [lia|lia|].
  destruct (execAll fuel subject (setLastIndex (k + o + Nat.max n 1) R)) as [found Rend].
  cbn [fst snd] in *. split; [done|]. cbn [map fst snd]. f_equal.
  - unfold substring. rewrite dropStr_add. f_equal; lia.
  - rewrite Hrest.
    replace (k + o + Nat.max n 1 =? 0)%nat with false by (symmetry; apply Nat.eqb_neq; lia).
    rewrite <- Nat.add_assoc, (matchAllFrom_skip _ _ k) by done. done.
Qed.

(** [match] with the [g] flag gives all the matches of the subject,
    whatever [lastIndex] was, and leaves it at 0. *)
Lemma regExpMatch_global (subject : string) (R : RegExp) :
  global R = true -> sticky R = false ->
  regExpMatch subject R
  = (matchAll (ignoreCase R) (source R) subject, setLastIndex 0 R).
Proof.
  intros Hg Hy. unfold regExpMatch, results. rewrite Hg.
  destruct (execAll_matches subject R (String.length subject + 2) Hg Hy 0%nat)
    as [Hend Hall]; [lia|lia|].
  destruct (execAll _ subject (setLastIndex 0 R)) as [found Rend].
  cbn [fst snd] in *. by rewrite Hend, Hall.
Qed.

(** *** [replace] *)

Lemma removeAllFrom_start icase r bos c t :
  removeAllFrom icase r bos 0 (String c t)
  = match matchHere icase r bos (String c t) with
    | Some (S m) => removeAllFrom icase r false m t
    | _ => String c (removeAllFrom icase r false 0 t)
    end.
Proof. reflexivity. Qed.

Lemma removeAllFrom_next icase r bos k c t :
  removeAllFrom icase r bos (S k) (String c t) = removeAllFrom icase r false k t.
Proof. reflexivity. Qed.

Lemma removeAllFrom_nil icase r bos k : removeAllFrom icase r bos k "" = "".
Proof. by destruct k. Qed.

Lemma removeAllFrom_beyond icase r (s : string) :
  forall bos k, (String.length s < k)%nat -> removeAllFrom icase r bos k s = "".
Proof.
  induction s as [|c t IH]; intros bos [|k] H; simpl in H; try lia; [done|].
  rewrite removeAllFrom_next. apply IH. lia.
Qed.

Lemma removeAllFrom_drop icase r k :
  forall (s : string) bos j, (k <= String.length s)%nat ->
    removeAllFrom icase r bos (k + j) s
    = removeAllFrom icase r (bos && (k =? 0)%nat) j (dropStr k s).
Proof.
  induction k as [|k IH]; intros s bos j H.
  - by rewrite andb_true_r.
  - destruct s as [|c t]; [simpl in H; lia|]. simpl in H.
    cbn [Nat.add dropStr]. rewrite removeAllFrom_next, IH by lia.
    by rewrite andb_false_r.
Qed.

(** What is left of a text from a position on: the scan finds the first
    text to remove; a character that follows an empty match is kept. *)
Lemma removeAllFrom_search icase r (s : string) :
  forall bos,
    removeAllFrom icase r bos 0 s
    = match search icase r bos s with
      | None => s
      | Some (o, n) =>
          takeStr (if (n =? 0)%nat then o + 1 else o) s
          ++ removeAllFrom icase r false (o + Nat.max n 1) s
      end.
Proof.
  induction s as [|c t IH]; intros bos.
  - cbn [search]. rewrite removeAllFrom_nil.
    destruct (matchHere icase r bos "") as [n|]; [|done].
    rewrite removeAllFrom_nil. by destruct (n =? 0)%nat.
  - rewrite removeAllFrom_start. cbn [search].
    destruct (matchHere icase r bos (String c t)) as [[|m]|].
    + change (0 + Nat.max 0 1)%nat with 1%nat. by rewrite removeAllFrom_next.
    + replace (0 + Nat.max (S m) 1)%nat with (S m) by lia.
      by rewrite removeAllFrom_next.
    + rewrite IH. destruct (search icase r false t) as [[o n]|]; [|done].
      rewrite !Nat.add_succ_l, removeAllFrom_next.
      by destruct (n =? 0)%nat.
Qed.

(** The subject assembled from the results of the loop, from [lastIndex]
    on, is what the scan leaves of it. *)
Lemma execAll_removed (subject : string) (R : RegExp) fuel :
  global R = true -> sticky R = false ->
  forall k p,
    (p <= k)%nat ->
    (k <= String.length subject + 1)%nat ->
    (String.length subject + 2 <= fuel + k)%nat ->
    assemble subject "" p (fst (execAll fuel subject (setLastIndex k R)))
    = substring p k subject
      ++ removeAllFrom (ignoreCase R) (source R) (k =? 0)%nat k subject.
Proof.
  intros Hg Hy. induction fuel as [|fuel IH]; intros k p Hp Hk Hfuel; [lia|].
  cbn [execAll]. unfold regExpBuiltinExec.
  cbn [global sticky lastIndex setLastIndex source ignoreCase]. rewrite Hg. cbn [orb].
  rewrite Hy.
  destruct (String.length subject <? k)%nat eqn:Hend.
  { apply Nat.ltb_lt in Hend. cbn [fst assemble].
    rewrite removeAllFrom_beyond, str_app_nil_r by done.
    symmetry. apply substring_to_end. lia. }
  apply Nat.ltb_ge in Hend.
  pose proof (removeAllFrom_drop (ignoreCase R) (source R) k subject (k =? 0)%nat 0 Hend)
    as Hskip.
  rewrite Nat.add_0_r, andb_diag in Hskip. rewrite Hskip, removeAllFrom_search.
  destruct (search (ignoreCase R) (source R) (k =? 0)%nat (dropStr k subject))
    as [[o n]|] eqn:Hsearch.
  2:{ cbn [fst assemble]. symmetry. by apply substring_rest. }
  apply search_bound in Hsearch as Hbound. rewrite dropStr_length in Hbound.
  assert (Hnext : (if (n =? 0)%nat
                   then setLastIndex (lastIndex (setLastIndex (k + o + n) (setLastIndex k R)) + 1)
                          (setLastIndex (k + o + n) (setLastIndex k R))
                   else setLastIndex (k + o + n) (setLastIndex k R))
                  = setLastIndex (k + o + Nat.max n 1) R).
  { destruct (Nat.eqb_spec n 0) as [->|Hn].
    - unfold setLastIndex. cbn [lastIndex source ignoreCase global sticky Nat.eqb].
      f_equal. lia.
    - unfold setLastIndex. cbn [lastIndex source ignoreCase global sticky]. f_equal. lia. }
  rewrite Hnext.
  specialize (IH (k + o + Nat.max n 1)%nat (k + o + n)%nat).
  destruct (execAll fuel subject (setLastIndex (k + o + Nat.max n 1) R)) as [found Rend].
  cbn [fst assemble] in *.
  rewrite (proj2 (Nat.leb_le p (k + o))) by lia. rewrite str_app_nil_l.
  rewrite IH by lia.
  replace (k + o + Nat.max n 1 =? 0)%nat with false by (symmetry; apply Nat.eqb_neq; lia).
  assert (Hrest : removeAllFrom (ignoreCase R) (source R) false (k + o + Nat.max n 1) subject
                  = removeAllFrom (ignoreCase R) (source R) false (o + Nat.max n 1)
                      (dropStr k subject)).
  { rewrite <- Nat.add_assoc, (removeAllFrom_drop _ _ k) by done. done. }
  rewrite Hrest, <- !str_app_assoc. f_equal.
  assert (Htake : forall j, takeStr j (dropStr k subject) = substring k (k + j) subject).
  { intros j. unfold substring. f_equal. lia. }
  rewrite Htake, substring_app by lia.
  destruct (Nat.eqb_spec n 0) as [->|Hn].
  - replace (k + o + 0)%nat with (k + o)%nat by lia.
    rewrite substring_app by lia. f_equal; lia.
  - replace (Nat.max n 1) with n by lia.
    by rewrite substring_empty, str_app_nil_r.
Qed.

(** [replace] with the [g] flag and an empty replacement removes all the
    matches, whatever [lastIndex] was, and leaves it at 0. *)
Lemma regExpReplace_global (subject : string) (R : RegExp) :
  global R = true -> sticky R = false ->
  regExpReplace subject "" R
  = (removeAll (ignoreCase R) (source R) subject, setLastIndex 0 R).
Proof.
  intros Hg Hy. unfold regExpReplace, results. rewrite Hg.
  destruct (execAll_matches subject R (String.length subject + 2) Hg Hy 0%nat)
    as [Hend _]; [lia|lia|].
  pose proof (execAll_removed subject R (String.length subject + 2) Hg Hy 0%nat 0%nat)
    as Hall.
  destruct (execAll _ subject (setLastIndex 0 R)) as [found Rend].
  cbn [fst snd] in *. rewrite Hend, Hall by lia.
  by rewrite substring_empty, str_app_nil_l.
Qed.

(** *** [test] *)

Lemma testFrom_search icase r (s : string) :
  forall bos,
    testFrom icase r bos s
    = match search icase r bos s with Some _ => true | None => false end.
Proof.
  induction s as [|c t IH]; intros bos; cbn [testFrom search].
  - by destruct (matchHere icase r bos "").
  - destruct (matchHere icase r bos (String c t)); [done|].
    rewrite IH. by destruct (search icase r false t) as [[o n]|].
Qed.

(** [test] without the [g] and [y] flags does not read [lastIndex] and
    does not write it. *)
Lemma regExpTest_plain (subject : string) (R : RegExp) :
  global R = false -> sticky R = false ->
  regExpTest subject R = (Regex.test (ignoreCase R) (source R) subject, R).
Proof.
  intros Hg Hy. unfold regExpTest, regExpBuiltinExec. rewrite Hg, Hy. cbn [orb].
  change (String.length subject <? 0)%nat with false. cbn [dropStr Nat.eqb].
  unfold Regex.test. rewrite testFrom_search.
  by destruct (search (ignoreCase R) (source R) true subject) as [[o n]|].
Qed.

(** *** [split] *)

Lemma splitFrom_nil icase r bos piece k : splitFrom icase r bos piece k "" = [piece].
Proof. by destruct k. Qed.

Lemma splitFrom_start icase r bos piece c t :
  splitFrom icase r bos piece 0 (String c t)
  = match matchHere icase r bos (String c t) with
    | Some (S m) => piece :: splitFrom icase r false EmptyString m t
    | Some O =>
        match piece with
        | EmptyString => splitFrom icase r false (String c EmptyString) 0 t
        | _ => piece :: splitFrom icase r false (String c EmptyString) 0 t
        end
    | None => splitFrom icase r false (piece ++ String c EmptyString) 0 t
    end.
Proof. reflexivity. Qed.

Lemma splitFrom_next icase r bos piece k c t :
  splitFrom icase r bos piece (S k) (String c t) = splitFrom icase r false piece k t.
Proof. reflexivity. Qed.

Lemma splitFrom_drop icase r piece k :
  forall (s : string) bos j, (k <= String.length s)%nat ->
    splitFrom icase r bos piece (k + j) s
    = splitFrom icase r (bos && (k =? 0)%nat) piece j (dropStr k s).
Proof.
  induction k as [|k IH]; intros s bos j H.
  - by rewrite andb_true_r.
  - destruct s as [|c t]; [simpl in H; lia|]. simpl in H.
    cbn [Nat.add dropStr]. rewrite splitFrom_next, IH by lia.
    by rewrite andb_false_r.
Qed.

Lemma substring_nonempty p q (s : string) :
  (p < q)%nat -> (q <= String.length s)%nat -> substring p q s <> "".
Proof.
  intros Hpq Hq Hempty. apply (f_equal String.length) in Hempty.
  pose proof (substring_rest p q s) as Hrest.
  apply (f_equal String.length) in Hrest; [|lia].
  rewrite str_length_app, !dropStr_length, Hempty in Hrest. simpl in Hrest. lia.
Qed.

(** The loop of [split] with the end of the last separator at [p] and the
    position tried at [q]: the pieces are those of the scan that holds the
    text between [p] and [q] as its current piece. *)
Lemma splitLoop_pieces (subject : string) icase r fuel :
  forall (splitter : RegExp) p q,
    source splitter = r -> ignoreCase splitter = icase -> sticky splitter = true ->
    (p <= q)%nat -> (q <= String.length subject)%nat ->
    (2 * (String.length subject - q) + (if (p <? q)%nat then 1 else 0) < fuel)%nat ->
    fst (splitLoop fuel subject splitter p q)
    = splitFrom icase r (q =? 0)%nat (substring p q subject) 0 (dropStr q subject).
Proof.
  induction fuel as [|fuel IH]; intros splitter p q Hr Hi Hy Hpq Hq Hfuel; [lia|].
  cbn [splitLoop].
  destruct (q <? String.length subject)%nat eqn:Hend.
  2:{ apply Nat.ltb_ge in Hend. assert (q = String.length subject) as -> by lia.
      cbn [fst]. by rewrite dropStr_all, splitFrom_nil by lia. }
  apply Nat.ltb_lt in Hend.
  destruct (dropStr q subject) as [|c t] eqn:Hrest.
  { apply (f_equal String.length) in Hrest. rewrite dropStr_length in Hrest.
    simpl in Hrest. lia. }
  destruct (substring_char q c t subject Hrest) as [Hchar Htail].
  assert (Hgrow : substring p (q + 1) subject = substring p q subject ++ String c "").
  { by rewrite <- (substring_app p q (q + 1)), Hchar by lia. }
  unfold regExpBuiltinExec.
  cbn [global sticky lastIndex setLastIndex source ignoreCase].
  rewrite Hy, orb_true_r, Hr, Hi, Hrest.
  rewrite (proj2 (Nat.ltb_ge (String.length subject) q)) by lia.
  rewrite splitFrom_start.
  destruct (matchHere icase r (q =? 0)%nat (String c t)) as [n|] eqn:Hmatch.
  - apply matchHere_bound in Hmatch as Hbound.
    assert (Hlen : String.length (String c t) = (String.length subject - q)%nat).
    { by rewrite <- Hrest, dropStr_length. }
    rewrite Hlen in Hbound.
    cbn [lastIndex]. rewrite Nat.add_0_r.
    rewrite (Nat.min_l (q + n)) by lia.
    destruct (Nat.eqb_spec (q + n) p) as [Hsame|Hother].
    + assert (n = 0%nat) as -> by lia. assert (p = q) as -> by lia.
      rewrite substring_empty.
      rewrite IH; [|done|done|done|lia|lia|].
      * replace (q + 1 =? 0)%nat with false by (symmetry; apply Nat.eqb_neq; lia).
        by rewrite Hchar, Htail.
      * rewrite (proj2 (Nat.ltb_lt q (q + 1))) by lia.
        rewrite Nat.ltb_irrefl in Hfuel. lia.
    + specialize (IH (setLastIndex (q + n) (setLastIndex q splitter)) (q + n)%nat (q + n)%nat).
      destruct (splitLoop fuel subject _ (q + n) (q + n)) as [pieces splitter'].
      cbn [fst] in *. rewrite IH; [|done|done|done|lia|lia|].
      * rewrite substring_empty.
        destruct n as [|m].
        -- rewrite Nat.add_0_r, Hrest, splitFrom_start.
           assert (Hfalse : (q =? 0)%nat = false) by (apply Nat.eqb_neq; lia).
           rewrite Hfalse in Hmatch |- *. rewrite Hmatch.
           destruct (substring p q subject) eqn:Hpiece; [|done].
           exfalso. apply (substring_nonempty p q subject); [lia|lia|done].
        -- f_equal.
           replace (q + S m =? 0)%nat with false by (symmetry; apply Nat.eqb_neq; lia).
           replace (q + S m)%nat with ((q + 1) + m)%nat by lia.
           rewrite dropStr_add, Htail.
           pose proof (splitFrom_drop icase r "" m t false 0) as Hskip.
           rewrite Nat.add_0_r in Hskip. rewrite Hskip by (simpl in Hlen; lia). done.
      * rewrite Nat.ltb_irrefl. destruct (p <? q)%nat eqn:Hlt.
        -- lia.
        -- apply Nat.ltb_ge in Hlt. lia.
  - rewrite IH; [|done|done|done|lia|lia|].
    + replace (q + 1 =? 0)%nat with false by (symmetry; apply Nat.eqb_neq; lia).
      by rewrite Hgrow, Htail.
    + rewrite (proj2 (Nat.ltb_lt p (q + 1))) by lia.
      destruct (p <? q)%nat; lia.
Qed.

(** [split] with a splitter for the pattern gives the pieces of the scan. *)
Lemma regExpSplit_pieces (subject : string) (splitter : RegExp) :
  sticky splitter = true -> lastIndex splitter = 0%nat ->
  fst (regExpSplit subject splitter)
  = Regex.split (ignoreCase splitter) (source splitter) subject.
Proof.
  intros Hy H0. unfold regExpSplit, Regex.split. destruct subject as [|c t].
  - unfold regExpBuiltinExec. rewrite Hy, orb_true_r, H0.
    change (String.length "" <? 0)%nat with false. cbn [dropStr Nat.eqb].
    by destruct (matchHere (ignoreCase splitter) (source splitter) true "").
  - rewrite (splitLoop_pieces (String c t) (ignoreCase splitter) (source splitter));
      [by rewrite substring_empty|done|done|done|lia|lia|].
    rewrite Nat.ltb_irrefl. lia.
Qed.

End RegExpProofs.

(** ** The extractor over the realm *)

Module FactRunProofs.
Import Js Regex Facts RegExpObjects FactRuns RealmInvariant RegExpProofs.
Local Open Scope run_scope.

Lemma extends_refl realm : extends realm realm.
Proof. by intros loc r icase g H. Qed.

Lemma extends_trans realm1 realm2 realm3 :
  extends realm1 realm2 -> extends realm2 realm3 -> extends realm1 realm3.
Proof. intros H12 H23 loc r icase g H. by apply H23, H12. Qed.

Lemma extends_app (realm more : list RegExp) : extends realm (realm ++ more)%list.
Proof.
  intros loc r icase g (R & Hloc & H). exists R. split; [|done].
  by apply lookup_app_l_Some.
Qed.

(** Writing [lastIndex] leaves every expression in place. *)
Lemma extends_lastIndex realm loc R i :
  realm !! loc = Some R -> extends realm (<[loc := setLastIndex i R]> realm).
Proof.
  intros Hloc loc' r icase g (R' & Hloc' & H).
  destruct (decide (loc' = loc)) as [->|Hne].
  - rewrite Hloc in Hloc'. injection Hloc' as <-. exists (setLastIndex i R).
    split; [|done]. apply list_lookup_insert_eq. by eapply lookup_lt_Some.
  - exists R'. split; [|done]. by rewrite list_lookup_insert_ne.
Qed.

Lemma returns_ret {A} (v : A) : returns (retRun v) v.
Proof. intros realm. exists realm. split; [done|apply extends_refl]. Qed.

Lemma returns_bind {A B} (m : Run A) (k : A -> Run B) a b :
  returns m a -> returns (k a) b -> returns (bindRun m k) b.
Proof.
  intros Hm Hk realm. destruct (Hm realm) as (realm1 & H1 & E1).
  destruct (Hk realm1) as (realm2 & H2 & E2).
  exists realm2. unfold bindRun. rewrite H1. split; [done|by eapply extends_trans].
Qed.

(** A literal gives a fresh object at the end of the store. *)
Lemma newRegExp_spec r icase g realm :
  exists realm',
    newRegExp r icase g realm = (length realm, realm')
    /\ extends realm realm' /\ holds realm' (length realm) r icase g.
Proof.
  eexists. split; [reflexivity|]. split; [apply extends_app|].
  eexists. split; [by apply list_lookup_middle|done].
Qed.

Lemma stringMatch_spec subject loc r icase realm :
  holds realm loc r icase true ->
  exists realm',
    stringMatch subject loc realm = (matchAll icase r subject, realm')
    /\ extends realm realm'.
Proof.
  intros (R & Hloc & <- & <- & Hg & Hy). unfold stringMatch, onObject.
  rewrite Hloc, (regExpMatch_global subject R Hg Hy).
  eexists. split; [reflexivity|]. by apply extends_lastIndex.
Qed.

Lemma stringReplace_spec subject loc r icase realm :
  holds realm loc r icase true ->
  exists realm',
    stringReplace subject loc "" realm = (removeAll icase r subject, realm')
    /\ extends realm realm'.
Proof.
  intros (R & Hloc & <- & <- & Hg & Hy). unfold stringReplace, onObject.
  rewrite Hloc, (regExpReplace_global subject R Hg Hy).
  eexists. split; [reflexivity|]. by apply extends_lastIndex.
Qed.

Lemma test_spec subject loc r icase realm :
  holds realm loc r icase false ->
  exists realm',
    FactRuns.testAt loc subject realm = (Regex.test icase r subject, realm')
    /\ extends realm realm'.
Proof.
  intros (R & Hloc & <- & <- & Hg & Hy). unfold FactRuns.testAt, onObject.
  rewrite Hloc, (regExpTest_plain subject R Hg Hy).
  eexists. split; [reflexivity|]. rewrite list_insert_id by done. apply extends_refl.
Qed.

Lemma stringSplit_spec subject loc r icase g realm :
  holds realm loc r icase g ->
  exists realm',
    stringSplit subject loc realm = (Regex.split icase r subject, realm')
    /\ extends realm realm'.
Proof.
  intros (R & Hloc & <- & <- & Hg & Hy). unfold stringSplit. rewrite Hloc.
  pose proof (regExpSplit_pieces subject
                {| source := source R; ignoreCase := ignoreCase R; global := global R;
                   sticky := true; lastIndex := 0 |} eq_refl eq_refl) as Hpieces.
  destruct (regExpSplit subject _) as [pieces splitter']. cbn [fst] in Hpieces.
  rewrite Hpieces. eexists. split; [reflexivity|]. apply extends_app.
Qed.

(** One round for a statistical match: the edge pattern is a fresh object
    each time, so the round returns what the scan computes. *)
Lemma statFact_returns query m : returns (FactRuns.statRound query m) (Facts.statFact query m).
Proof.
  intros realm. unfold FactRuns.statRound, bindRun.
  destruct (newRegExp_spec edgePattern false true realm) as (realm1 & -> & E1 & Hedge).
  destruct (stringReplace_spec (trim m) _ _ _ _ Hedge) as (realm2 & -> & E2).
  exists realm2. split; [reflexivity|by eapply extends_trans].
Qed.

Lemma sentenceFact_returns query sentence :
  returns (FactRuns.sentenceRound query sentence) (Facts.sentenceFact query sentence).
Proof.
  intros realm. unfold FactRuns.sentenceRound, bindRun.
  destruct (newRegExp_spec definitionPattern true false realm) as (realm1 & -> & E1 & Hdef).
  destruct (test_spec sentence _ _ _ _ Hdef) as (realm2 & -> & E2).
  exists realm2. split; [reflexivity|by eapply extends_trans].
Qed.

Lemma forEach_returns {A} (body : A -> Run (list Fact)) (pushes : A -> list Fact) l :
  (forall x, returns (body x) (pushes x)) ->
  returns (forEach body l) (flat_map pushes l).
Proof.
  intros Hbody. induction l as [|x l IH]; [apply returns_ret|].
  cbn [forEach flat_map]. eapply returns_bind; [apply Hbody|].
  eapply returns_bind; [apply IH|]. apply returns_ret.
Qed.

(** An array of literals gives one fresh object per pattern. *)
Lemma literals_spec g patterns :
  forall realm,
  exists locs realm',
    literals g patterns realm = (locs, realm')
    /\ extends realm realm'
    /\ Forall2 (fun loc (p : flagged) => holds realm' loc (snd p) (fst p) g) locs patterns.
Proof.
  induction patterns as [|p rest IH]; intros realm.
  - exists [], realm. split; [done|]. split; [apply extends_refl|constructor].
  - cbn [literals]. unfold bindRun.
    destruct (newRegExp_spec (snd p) (fst p) g realm) as (realm1 & -> & E1 & Hp).
    destruct (IH realm1) as (locs & realm2 & -> & E2 & Hrest).
    exists (length realm :: locs), realm2. split; [done|].
    split; [by eapply extends_trans|]. constructor; [by apply E2|done].
Qed.

(** A loop over the patterns of an array returns the facts of the scan,
    pattern by pattern. *)
Lemma patternFacts_spec (mk : string -> Run (list Fact)) (pushes : string -> list Fact)
    response locs patterns :
  (forall m, returns (mk m) (pushes m)) ->
  forall realm,
    Forall2 (fun loc (p : flagged) => holds realm loc (snd p) (fst p) true) locs patterns ->
    exists realm',
      FactRuns.patternLoop mk locs response realm
      = (Facts.patternFacts pushes patterns response, realm')
      /\ extends realm realm'.
Proof.
  intros Hmk realm Hlocs. revert realm Hlocs. unfold FactRuns.patternLoop, Facts.patternFacts.
  revert patterns. induction locs as [|loc locs IH]; intros patterns realm Hlocs.
  - apply Forall2_nil_inv_l in Hlocs as ->. exists realm. split; [done|apply extends_refl].
  - apply Forall2_cons_inv_l in Hlocs as (p & rest & Hp & Hrest & ->).
    cbn [forEach flat_map]. unfold bindRun at 1. unfold bindRun at 1.
    destruct (stringMatch_spec response loc _ _ realm Hp) as (realm1 & -> & E1).
    destruct (forEach_returns mk pushes (matchAll (fst p) (snd p) response) Hmk realm1)
      as (realm2 & -> & E2).
    unfold bindRun at 1.
    destruct (IH rest realm2) as (realm3 & -> & E3).
    { eapply Forall2_impl; [exact Hrest|]. intros l q Hq. by apply E2, E1. }
    exists realm3. split; [done|]. eapply extends_trans; [|exact E3].
    by eapply extends_trans.
Qed.

(** From every realm the extractor over regular expression objects returns
    the facts of the scan: no object that was there before is read, and
    the objects the run creates start with [lastIndex] 0. *)
Lemma extractFacts_returns {C} response query (chunks : list C) :
  returns (FactRuns.extractFactsFromResponseIn response query chunks)
          (Facts.extractFactsFromResponse response query chunks).
Proof.
  intros realm. unfold FactRuns.extractFactsFromResponseIn, bindRun.
  destruct (literals_spec true statPatterns realm) as (l1 & realm1 & -> & E1 & H1).
  destruct (patternFacts_spec _ _ response l1 statPatterns (statFact_returns query) realm1 H1)
    as (realm2 & -> & E2).
  destruct (literals_spec true aimePatterns realm2) as (l3 & realm3 & -> & E3 & H3).
  destruct (patternFacts_spec _ (Facts.aimeFact query) response l3 aimePatterns
              (fun m => returns_ret _) realm3 H3) as (realm4 & -> & E4).
  destruct (literals_spec true conceptPatterns realm4) as (l5 & realm5 & -> & E5 & H5).
  destruct (patternFacts_spec _ (Facts.conceptFact query) response l5 conceptPatterns
              (fun m => returns_ret _) realm5 H5) as (realm6 & -> & E6).
  destruct (newRegExp_spec sentenceBreak false false realm6) as (realm7 & -> & E7 & H7).
  destruct (stringSplit_spec response _ _ _ _ _ H7) as (realm8 & -> & E8).
  destruct (forEach_returns (FactRuns.sentenceRound query) (Facts.sentenceFact query)
              (List.filter (fun s => (30 <? String.length (trim s))%nat)
                           (Regex.split false sentenceBreak response))
              (sentenceFact_returns query) realm8) as (realm9 & -> & E9).
  exists realm9. split; [reflexivity|].
  repeat (eapply extends_trans; [eassumption|]). apply extends_refl.
Qed.

(** An expression with the [g] flag that is kept between two calls of
    [test] answers differently the second time: the state of these objects
    is what a run could depend on. *)
Lemma kept_pattern_remembers :
  fst (regExpTest "a" keptPattern) = true
  /\ fst (regExpTest "a" (snd (regExpTest "a" keptPattern))) = false.
Proof. split; reflexivity. Qed.

End FactRunProofs.

(** * The claims *)

Module Claims.
Import Js Effects Retrieval Statements MergerProofs RetrievalProofs RetrievalClaims Scenarios.

(** C1 (code evaluated at the failing input).  For a request scoped to
    [doc_42], a document with seven chunks, and result cap 5, the
    document-scoped slice holds five chunks, but [searchSimilarChunks]
    returns only the two of lowest index: the merger's per-document cap
    applies to them as to any other candidate. *)
Theorem C1_document_scope_returns_two :
  length (documentScoped 5 (map columns (rowsOf store42 (QDocument "doc_42")))) = 5%nat
  /\ map chunk_id
       (value (searchSimilarChunks store42 noCatalog [] 5 (Some "What is in it?")
                 (Some "doc_42") []))
     = ["c42-0"; "c42-1"].
Proof. split; vm_compute; reflexivity. Qed.

(** C2 as stated fails, in two ways, each with a corpus that is not empty:
    a request scoped to a document without chunks gets an empty result,
    because the fallback is only reached in the branch without a document
    scope; and when the store is down, so that every adapter fails, the
    fallback select fails with them and the result is empty as well. *)
Lemma C2_counterexample :
  ~ (document_chunks store42 <> [] ->
     value (searchSimilarChunks store42 noCatalog [] 5 (Some "What is in it?")
              (Some "doc_404") []) <> [])
  /\ ~ (document_chunks store42Down <> [] ->
        value (searchSimilarChunks store42Down noCatalog [] 5 (Some "What is in it?")
                 None []) <> []).
Proof.
  split; intros H; (apply H; [discriminate|]); vm_compute; reflexivity.
Qed.

(** C2 (amended).  For every request without a document scope whose
    adapters gathered nothing, the merged result set is not empty exactly
    when the fallback select succeeds and the corpus is not empty; in any
    case it holds at most five chunks, all of them rows of the corpus.  A
    request with a document scope has no fallback: when its select fails, or
    the corpus holds no chunk of that document, the result is empty and the
    scoped select is the only call made. *)
Theorem C2_fallback_supplies_context db at_ embedding limit query documentId themes :
  (truthy documentId = false ->
   value (gather db at_ embedding query themes) = [] ->
   (value (searchSimilarChunks db at_ embedding limit query documentId themes) <> []
    <-> fails db QAny = false /\ document_chunks db <> [])
   /\ (length (value (searchSimilarChunks db at_ embedding limit query documentId themes))
       <= 5)%nat
   /\ forall c,
        c ∈ value (searchSimilarChunks db at_ embedding limit query documentId themes) ->
        c ∈ map columns (document_chunks db))
  /\ (truthy documentId = true ->
      fails db (QDocument (default EmptyString documentId)) = true
      \/ (forall c, c ∈ document_chunks db ->
                    document_id c <> default EmptyString documentId) ->
      searchSimilarChunks db at_ embedding limit query documentId themes
      = ([SupabaseSelect (QDocument (default EmptyString documentId))], [])).
Proof.
  split.
  - intros Hdoc Hgather.
    rewrite (search_fallback _ _ _ _ _ _ _ Hdoc Hgather).
    destruct (fails db QAny) eqn:Hfails.
    + split; [|split].
      * split; [intros H; by destruct H|intros [? _]; discriminate].
      * simpl. lia.
      * intros c Hc. by apply elem_of_nil in Hc.
    + split; [|split].
      * split.
        -- intros H. split; [done|]. intros Hrows. apply H. by rewrite Hrows.
        -- intros [_ Hrows]. apply merge_nonempty.
           destruct (document_chunks db); [done|discriminate].
      * etrans; [apply merge_length|]. rewrite length_map, length_take. lia.
      * intros c Hc. apply merge_subset in Hc.
        apply list_elem_of_fmap in Hc as (d & -> & Hd).
        apply list_elem_of_fmap. exists d. split; [done|].
        apply elem_of_take in Hd as (i & Hd & _). by eapply list_elem_of_lookup_2.
  - intros Hdoc Hnone. unfold searchSimilarChunks. rewrite Hdoc.
    unfold select, call, bind.
    destruct (fails db (QDocument (default EmptyString documentId))) eqn:Hfails;
      [reflexivity|].
    destruct Hnone as [Hnone|Hnone]; [discriminate|].
    assert (Hrows : rowsOf db (QDocument (default EmptyString documentId)) = []).
    { unfold rowsOf.
      assert (Hfilter : List.filter
                (fun c => String.eqb (document_id c) (default EmptyString documentId))
                (document_chunks db) = []).
      { induction (document_chunks db) as [|c l IH]; [done|]. simpl.
        destruct (String.eqb_spec (document_id c) (default EmptyString documentId)) as [He|_].
        - exfalso. apply (Hnone c); [left|exact He].
        - apply IH. intros d Hd. apply Hnone. by right. }
      by rewrite Hfilter. }
    rewrite Hrows. unfold documentScoped. simpl. by rewrite take_nil.
Qed.

Lemma C2_fallback_supplies_context_witness :
  (value (searchSimilarChunks store42 noCatalog [] 5 (Some "What is in it?") None []) <> []
   <-> fails store42 QAny = false /\ document_chunks store42 <> [])
  /\ searchSimilarChunks store42 noCatalog [] 5 (Some "What is in it?") (Some "doc_404") []
     = ([SupabaseSelect (QDocument "doc_404")], []).
Proof.
  split.
  - apply (C2_fallback_supplies_context store42 noCatalog [] 5 (Some "What is in it?") None []);
      reflexivity.
  - apply (C2_fallback_supplies_context store42 noCatalog [] 5 (Some "What is in it?")
             (Some "doc_404") []); [reflexivity|].
    right. intros c Hc. vm_compute in Hc.
    repeat (apply elem_of_cons in Hc as [->|Hc]; [discriminate|]).
    by apply elem_of_nil in Hc.
Defined.

(** C4 as stated fails: in a pool of five usable candidates from three
    documents (fewer than 2 x 3), five results can only be reached by taking
    three from one document; the merger still keeps to the cap and returns
    four. *)
Lemma C4_counterexample :
  ~ (exceedsCap (merge 5 pool311) = true <->
     (length (usable pool311) < maxPerDocument * length (distinctDocuments pool311))%nat
     /\ mustExceed 5 pool311).
Proof.
  intros [_ H]. assert (Hex : exceedsCap (merge 5 pool311) = true).
  { apply H. split; [|split]; vm_compute; lia. }
  vm_compute in Hex. discriminate.
Qed.

(** C4 (amended).  In every merged result set no document title occurs more
    than [maxPerDocument] = 2 times; the cap is never exceeded, whatever the
    pool and the requested count. *)
Theorem C4_cap_never_exceeded limit allResults :
  (forall title, (countTitle title (merge limit allResults) <= 2)%nat)
  /\ exceedsCap (merge limit allResults) = false.
Proof.
  split; [intros title; apply merge_cap|].
  unfold exceedsCap. apply not_true_is_false. intros H.
  apply existsb_exists in H as (c & _ & Hc). apply Nat.ltb_lt in Hc.
  pose proof (merge_cap limit allResults (document_title c)). lia.
Qed.

(** C5.  No chunk identifier appears twice in a merged result set: in the
    output of the merger, and so in whatever [searchSimilarChunks] returns. *)
Theorem C5_no_duplicate_chunk limit allResults db at_ embedding query documentId themes :
  NoDup (map chunk_id (merge limit allResults))
  /\ NoDup (map chunk_id
              (value (searchSimilarChunks db at_ embedding limit query documentId themes))).
Proof.
  split; [apply merge_nodup|].
  destruct (search_shape db at_ embedding limit query documentId themes) as [->|[l ->]].
  - constructor.
  - apply merge_nodup.
Qed.

Import Enhancement Answer Handler StringFacts AnswerProofs.

(** C3 as stated fails: an embedding failure is answered like a generation
    failure, with the same generic body and status, not with an error kind
    of its own. *)
Lemma C3_counterexample :
  ~ (value (POST worldEmbeddingDown (ask "What is hoodie economics?" "openai"))
     <> value (POST worldGenerationDown (ask "What is hoodie economics?" "openai"))).
Proof. intros H. apply H. vm_compute. reflexivity. Qed.

(** C3 (amended).  For every request in which the embedding provider call
    throws, the handler answers with the generic status-500 body
    [Internal server error], after the embedding call and nothing else: no
    call to any candidate source, and no call to a language model. *)
Theorem C3_embedding_failure_stops_pipeline w request c m :
  message request = Some (String c m) ->
  embeddingsCreate w (String c m) = None ->
  value (POST w request) = JsonError 500 "Internal server error"
  /\ trace (POST w request) = [EmbeddingCall (String c m)]
  /\ List.filter isAdapterCall (trace (POST w request)) = [].
Proof.
  intros Hmsg Hemb. unfold POST. rewrite Hmsg.
  unfold generateEmbedding. rewrite Hemb. by vm_compute.
Qed.

Lemma C3_embedding_failure_stops_pipeline_witness :
  value (POST worldEmbeddingDown (ask "Why?" "openai")) = JsonError 500 "Internal server error"
  /\ trace (POST worldEmbeddingDown (ask "Why?" "openai")) = [EmbeddingCall "Why?"]
  /\ List.filter isAdapterCall (trace (POST worldEmbeddingDown (ask "Why?" "openai"))) = [].
Proof.
  apply (C3_embedding_failure_stops_pipeline worldEmbeddingDown (ask "Why?" "openai")
           "W"%char "hy?"); reflexivity.
Defined.

(** C6.  For every generated response, the citation list is the
    position-by-position projection (chunk identifier, text, title and
    document locator) of the chunks handed to the generator, and the one
    provider call carries a system instruction in which every citation's
    passage stands: its title after [Document: ] and its text after
    [Content: ].  The context of that instruction is made of the passages of
    the citations, in order, and of nothing else: no citation refers to a
    passage that was not sent, and no passage was sent without a
    citation. *)
Theorem C6_citations_project_prompt p query chunks model history e t r :
  generateResponse p query chunks model history e = (t, Returned r) ->
  citations r = map citationOf chunks
  /\ length (citations r) = length chunks
  /\ exists ev prompt,
       t = [ev] /\ isProviderCall ev = true /\ systemOf ev = Some prompt
       /\ prompt = systemPrompt chunks e
       /\ prompt
          = promptHead
            ++ join (nl ++ nl)
                 (map (fun cit => "Document: " ++ cite_document_title cit ++ nl
                                  ++ "Content: " ++ cite_text cit)
                      (citations r))
            ++ match e with
               | Some e => enhancementBlock e
               | None => EmptyString
               end
            ++ instructions
       /\ forall i cit,
            citations r !! i = Some cit ->
            occursIn ("Document: " ++ cite_document_title cit ++ nl
                      ++ "Content: " ++ cite_text cit) prompt
            /\ exists chunk,
                 chunks !! i = Some chunk
                 /\ cite_chunk_id cit = chunk_id chunk
                 /\ cite_text cit = content chunk
                 /\ cite_document_title cit = document_title chunk
                 /\ source_url cit = "/documents/" ++ document_id chunk.
Proof.
  rewrite generateResponse_unfold. intros Heq. injection Heq as Ht Hr.
  destruct (value (complete _ _ _ _)) as [txt|err]; [|discriminate].
  injection Hr as <-. simpl.
  split; [done|]. split; [by rewrite length_map|].
  destruct (complete_call p model query chunks history e) as (ev & Hev & Hprov & Hsys).
  exists ev, (systemPrompt chunks e).
  split; [by rewrite <- Ht|]. split; [done|]. split; [done|]. split; [done|]. split.
  - unfold systemPrompt, contextOf. rewrite map_map. reflexivity.
  - intros i cit Hcit. rewrite list_lookup_fmap in Hcit.
    destruct (chunks !! i) as [chunk|] eqn:Hchunk; [|discriminate].
    injection Hcit as <-. split.
    + change (occursIn (renderChunk chunk) (systemPrompt chunks e)).
      apply rendered_in_prompt. by eapply list_elem_of_lookup_2.
    + by exists chunk.
Qed.

Lemma C6_citations_project_prompt_witness :
  exists t r,
    generateResponse openaiOnly "What changed?" (map columns table42) "openai" [] None
    = (t, Returned r)
    /\ citations r = map citationOf (map columns table42)
    /\ exists ev prompt,
         t = [ev] /\ systemOf ev = Some prompt
         /\ forall i cit,
              citations r !! i = Some cit ->
              occursIn ("Document: " ++ cite_document_title cit ++ nl
                        ++ "Content: " ++ cite_text cit) prompt.
Proof.
  eexists _, _. split; [vm_compute; reflexivity|].
  match goal with
  | |- context [citations ?r] =>
      destruct (C6_citations_project_prompt openaiOnly "What changed?" (map columns table42)
                  "openai" [] None
                  (trace (generateResponse openaiOnly "What changed?" (map columns table42)
                            "openai" [] None))
                  r) as (Hc & _ & ev & prompt & Ht & _ & Hsys & _ & _ & Hall)
  end.
  - vm_compute. reflexivity.
  - split; [exact Hc|]. exists ev, prompt. split; [exact Ht|]. split; [exact Hsys|].
    intros i cit Hi. exact (proj1 (Hall i cit Hi)).
Defined.

(** C10.  The [model_used] field of a response echoes the requested model
    string.  In particular, for a request with model preference [anthropic]
    in an environment without an Anthropic key, the one provider call goes
    to OpenAI, whose answer becomes the response text, while [model_used]
    still reads [anthropic]. *)
Theorem C10_model_used_echoes_request p query chunks history e :
  (forall model t r,
     generateResponse p query chunks model history e = (t, Returned r) ->
     model_used r = model)
  /\ (truthy (ANTHROPIC_API_KEY p) = false ->
      forall reply,
        openaiCreate p (messagesOf query chunks history e) = Returned reply ->
        exists r,
          generateResponse p query chunks "anthropic" history e
          = ([OpenAICall (messagesOf query chunks history e)], Returned r)
          /\ model_used r = "anthropic"
          /\ answer r = default "" reply).
Proof.
  split.
  - intros model t r. rewrite generateResponse_unfold. intros Heq.
    injection Heq as _ Hr. destruct (value _); [|discriminate]. by injection Hr as <-.
  - intros Hkey reply Hreply. rewrite generateResponse_unfold.
    unfold complete. rewrite Hkey, andb_false_r. simpl. rewrite Hreply.
    destruct reply as [txt|]; eexists; (split; [reflexivity|by split]).
Qed.

Lemma C10_model_used_echoes_request_witness :
  exists r,
    generateResponse openaiOnly "What changed?" [] "anthropic" [] None
    = ([OpenAICall (messagesOf "What changed?" [] [] None)], Returned r)
    /\ model_used r = "anthropic"
    /\ answer r = "The report describes a 34% increase in completion rates.".
Proof.
  destruct (C10_model_used_echoes_request openaiOnly "What changed?" [] [] None) as [_ H].
  apply (H eq_refl (Some "The report describes a 34% increase in completion rates.") eq_refl).
Defined.

Import Concepts ConceptProofs.




Import Regex ClassRuns Facts RegexProofs FactProofs CoveringMatch FactRunProofs.

(** C7.  Two runs of the fact extractor on the same answer text and query
    return the same list, in whatever realm each of them starts and
    whatever chunks are passed along.  The realm holds the regular
    expression objects with their [lastIndex], the state a run could depend
    on: the second of two runs in a row starts in the realm the first has
    left and still returns the same list.  That list is the one the scan
    computes, and it never holds more than three facts. *)
Theorem C7_extractor_deterministic_capped {C D : Type} (response query : string)
    (chunks1 : list C) (chunks2 : list D) (realm1 realm2 : list RegExpObjects.RegExp) :
  fst (FactRuns.extractFactsFromResponseIn response query chunks1 realm1)
  = fst (FactRuns.extractFactsFromResponseIn response query chunks2 realm2)
  /\ fst (FactRuns.extractFactsFromResponseIn response query chunks2
            (snd (FactRuns.extractFactsFromResponseIn response query chunks1 realm1)))
     = fst (FactRuns.extractFactsFromResponseIn response query chunks1 realm1)
  /\ fst (FactRuns.extractFactsFromResponseIn response query chunks1 realm1)
     = extractFactsFromResponse response query chunks1
  /\ (length (fst (FactRuns.extractFactsFromResponseIn response query chunks1 realm1)) <= 3)%nat.
Proof.
  destruct (extractFacts_returns response query chunks1 realm1) as (realm1' & H1 & _).
  destruct (extractFacts_returns response query chunks2 realm2) as (realm2' & H2 & _).
  rewrite H1, H2. cbn [fst snd].
  destruct (extractFacts_returns response query chunks2 realm1') as (realm3 & H3 & _).
  rewrite H3. cbn [fst]. split; [done|]. split; [done|]. split; [done|].
  unfold extractFactsFromResponse. rewrite length_take. lia.
Qed.




End Claims.

(** ** Further properties of the merger *)

Module MergerMore.
Import Js Effects Retrieval Statements MergerInvariant MergerProofs Properties.

Lemma mergeLoop_within limit allResults :
  forall uniqueResults seenChunks documentCounts,
    (length uniqueResults < limit)%nat ->
    (length (mergeLoop limit allResults uniqueResults seenChunks documentCounts) <= limit)%nat.
Proof.
  induction allResults as [|chunk rest IH]; intros u s m Hlen; simpl; [lia|].
  destruct (decide _); [by apply IH|].
  destruct (_ <? _)%nat; [|by apply IH].
  destruct (limit <=? length (u ++ [chunk]))%nat eqn:Hfull.
  - rewrite length_app. simpl. lia.
  - apply Nat.leb_gt in Hfull. by apply IH.
Qed.

Lemma merge_within limit allResults :
  (1 <= limit)%nat -> (length (merge limit allResults) <= limit)%nat.
Proof. intros Hlimit. unfold merge. apply mergeLoop_within. simpl. lia. Qed.

(** The results are the accumulator followed by candidates in their order. *)
Lemma mergeLoop_sublist limit allResults :
  forall uniqueResults seenChunks documentCounts,
    exists more,
      mergeLoop limit allResults uniqueResults seenChunks documentCounts
      = (uniqueResults ++ more)%list
      /\ more `sublist_of` allResults.
Proof.
  induction allResults as [|chunk rest IH]; intros u s m; simpl.
  - exists []. split; [by rewrite app_nil_r|constructor].
  - destruct (decide _).
    { destruct (IH u s m) as (more & -> & Hsub). exists more. split; [done|by constructor]. }
    destruct (_ <? _)%nat.
    2:{ destruct (IH u s m) as (more & -> & Hsub). exists more. split; [done|by constructor]. }
    destruct (_ <=? _)%nat.
    + exists [chunk]. split; [done|]. constructor. apply sublist_nil_l.
    + destruct (IH (u ++ [chunk])%list ({[chunk_id chunk]} ∪ s)
                  (<[document_title chunk := S (default 0%nat (m !! document_title chunk))]> m))
        as (more & -> & Hsub).
      exists (chunk :: more). split; [by rewrite <- app_assoc|by constructor].
Qed.

Lemma merge_sublist limit allResults :
  merge limit allResults `sublist_of` sortByScore allResults.
Proof.
  unfold merge. destruct (mergeLoop_sublist limit (sortByScore allResults) [] ∅ ∅)
    as (more & -> & Hsub). done.
Qed.

Lemma insertByScore_sorted c l :
  sortedByScore l -> sortedByScore (insertByScore c l).
Proof.
  induction l as [|d l IH]; intros Hl; simpl.
  - split; [constructor|done].
  - destruct Hl as [Hd Hl].
    destruct (Qle_bool (score d) (score c)) eqn:Hle.
    + apply Qle_bool_iff in Hle. simpl. split; [|done].
      constructor; [done|]. eapply Forall_impl; [exact Hd|].
      intros e He. unfold outranks in *. by apply Qle_trans with (score d).
    + assert (Hcd : (score c <= score d)%Q).
      { apply Qlt_le_weak, Qnot_le_lt. intros H. apply Qle_bool_iff in H. congruence. }
      simpl. split; [|by apply IH].
      apply Forall_forall. intros e He. apply insertByScore_elem in He as [->|He]; [done|].
      rewrite Forall_forall in Hd. by apply Hd.
Qed.

Lemma sortByScore_sorted l : sortedByScore (sortByScore l).
Proof. induction l as [|c l IH]; simpl; [done|by apply insertByScore_sorted]. Qed.

Lemma sorted_sublist (l1 l2 : list Chunk) :
  l1 `sublist_of` l2 -> sortedByScore l2 -> sortedByScore l1.
Proof.
  induction 1 as [|x l1 l2 Hsub IH|x l1 l2 Hsub IH]; intros Hs.
  - done.
  - destruct Hs as [Hx Hs]. simpl. split; [|by apply IH].
    rewrite Forall_forall in Hx |- *. intros e He. apply Hx.
    by eapply elem_of_sublist.
  - destruct Hs as [_ Hs]. by apply IH.
Qed.

Lemma sorted_ranked l : sortedByScore l -> rankedByScore l.
Proof.
  induction l as [|x l IH]; intros Hs i j c d Hij Hi Hj.
  - by rewrite lookup_nil in Hi.
  - destruct Hs as [Hx Hs]. destruct j as [|j]; [lia|]. simpl in Hj.
    destruct i as [|i]; simpl in Hi.
    + injection Hi as <-. rewrite Forall_forall in Hx. apply Hx.
      by eapply list_elem_of_lookup_2.
    + eapply IH; [done| |exact Hi|exact Hj]. lia.
Qed.

Lemma merge_ranked limit allResults : rankedByScore (merge limit allResults).
Proof.
  apply sorted_ranked, (sorted_sublist _ _ (merge_sublist limit allResults)),
    sortByScore_sorted.
Qed.

End MergerMore.

Module MergerMaximal.
Import Js Effects Retrieval Statements MergerInvariant MergerProofs Properties MergerMore.

Lemma countTitle_prefix title (u more : list Chunk) :
  (countTitle title u <= countTitle title (u ++ more))%nat.
Proof. rewrite countTitle_app. lia. Qed.

(** When the loop ends below the limit, every candidate it saw is either
    represented by identifier or belongs to a document at the cap. *)
Lemma mergeLoop_maximal limit allResults :
  forall uniqueResults seenChunks documentCounts,
    loopInv uniqueResults seenChunks documentCounts ->
    (forall x, x ∈ seenChunks -> x ∈ map chunk_id uniqueResults) ->
    (length (mergeLoop limit allResults uniqueResults seenChunks documentCounts) < limit)%nat ->
    forall c, c ∈ allResults ->
      chunk_id c ∈ map chunk_id (mergeLoop limit allResults uniqueResults seenChunks documentCounts)
      \/ (maxPerDocument
          <= countTitle (document_title c)
               (mergeLoop limit allResults uniqueResults seenChunks documentCounts))%nat.
Proof.
  induction allResults as [|chunk rest IH]; intros u s m Hinv Hseen Hshort c Hc.
  - by apply elem_of_nil in Hc.
  - simpl in Hshort |- *.
    destruct (decide (chunk_id chunk ∈ s)) as [Hin|Hfresh].
    { apply elem_of_cons in Hc as [->|Hc]; [|by apply IH].
      left. destruct (mergeLoop_extends limit rest u s m) as [more ->].
      rewrite map_app. apply elem_of_app. left. by apply Hseen. }
    destruct (default 0%nat (m !! document_title chunk) <? maxPerDocument)%nat eqn:Hlt.
    2:{ apply elem_of_cons in Hc as [->|Hc]; [|by apply IH].
        right. apply Nat.ltb_ge in Hlt.
        destruct (mergeLoop_extends limit rest u s m) as [more ->].
        pose proof (countTitle_prefix (document_title chunk) u more).
        rewrite <- (inv_counts _ _ _ Hinv) in Hlt. lia. }
    apply Nat.ltb_lt in Hlt.
    pose proof (loopInv_push u s m chunk Hinv Hfresh Hlt) as Hinv'.
    destruct (limit <=? length (u ++ [chunk]))%nat eqn:Hfull.
    { apply Nat.leb_le in Hfull. lia. }
    assert (Hseen' : forall x, x ∈ {[chunk_id chunk]} ∪ s
                               -> x ∈ map chunk_id (u ++ [chunk])).
    { intros x Hx. rewrite map_app. apply elem_of_app.
      apply elem_of_union in Hx as [Hx|Hx].
      - right. apply elem_of_singleton in Hx. subst. simpl. constructor.
      - left. by apply Hseen. }
    apply elem_of_cons in Hc as [->|Hc]; [|by apply IH].
    left.
    destruct (mergeLoop_extends limit rest (u ++ [chunk])%list ({[chunk_id chunk]} ∪ s)
                (<[document_title chunk := S (default 0%nat (m !! document_title chunk))]> m))
      as [more ->].
    rewrite !map_app. apply elem_of_app. left. apply elem_of_app. right. simpl. constructor.
Qed.

Lemma merge_maximal limit allResults c :
  (length (merge limit allResults) < limit)%nat ->
  c ∈ allResults ->
  chunk_id c ∈ map chunk_id (merge limit allResults)
  \/ (maxPerDocument <= countTitle (document_title c) (merge limit allResults))%nat.
Proof.
  intros Hshort Hc. unfold merge in *.
  apply mergeLoop_maximal; [apply loopInv_start| |done|by apply sortByScore_elem].
  intros x Hx. by apply elem_of_empty in Hx.
Qed.

(** The candidate that sorts first is always the first result. *)
Lemma merge_top limit allResults :
  allResults <> [] ->
  exists top,
    head (merge limit allResults) = Some top
    /\ top ∈ allResults
    /\ forall c, c ∈ allResults -> (score c <= score top)%Q.
Proof.
  intros Hne. pose proof (sortByScore_sorted allResults) as Hsorted.
  unfold merge. destruct (sortByScore allResults) as [|top rest] eqn:Hs.
  - apply (f_equal length) in Hs. rewrite sortByScore_length in Hs.
    destruct allResults; [done|discriminate].
  - exists top. split; [|split].
    + simpl. destruct (decide _) as [Hin|_]; [by apply elem_of_empty in Hin|].
      rewrite lookup_empty. simpl. destruct (limit <=? 1)%nat; [done|].
      destruct (mergeLoop_extends limit rest [top] ({[chunk_id top]} ∪ ∅)
                  (<[document_title top := 1%nat]> ∅)) as [more ->]. done.
    + apply sortByScore_elem. rewrite Hs. constructor.
    + intros c Hc. apply sortByScore_elem in Hc. rewrite Hs in Hc.
      destruct Hsorted as [Htop _].
      apply elem_of_cons in Hc as [->|Hc]; [apply Qle_refl|].
      rewrite Forall_forall in Htop. by apply Htop.
Qed.

End MergerMaximal.

(** ** Which sources a search calls *)

Module SearchCalls.
Import Js Effects Retrieval Statements RetrievalProofs Properties.

Lemma themeFiltered_calls db at_ themes :
  existsb isRpc (trace (themeFiltered db at_ themes)) = false
  /\ existsb isFallbackSelect (trace (themeFiltered db at_ themes)) = false
  /\ (existsb isCatalogFetch (trace (themeFiltered db at_ themes))
      = truthy (AIRTABLE_API_KEY at_) && truthy (AIRTABLE_BASE_ID at_)).
Proof.
  unfold themeFiltered.
  destruct (truthy (AIRTABLE_API_KEY at_) && truthy (AIRTABLE_BASE_ID at_)); [|done].
  destruct (fetchDocuments at_), (fetchThemes at_); try done.
  destruct (List.filter _ _); [done|]. simpl. by destruct (fails db _).
Qed.

Lemma directMatch_calls db query :
  existsb isRpc (trace (directMatch db query)) = false
  /\ existsb isFallbackSelect (trace (directMatch db query)) = false
  /\ existsb isCatalogFetch (trace (directMatch db query)) = false.
Proof.
  unfold directMatch. destruct query as [[|c q]|]; try done.
  destruct (_ && _); [|done]. simpl. by destruct (fails db _).
Qed.

Lemma vectorSearch_calls db embedding :
  trace (vectorSearch db embedding) = [SupabaseRpc embedding].
Proof. unfold vectorSearch. simpl. by destruct (match_chunks db embedding). Qed.

Lemma fallback_calls db : trace (fallback db) = [SupabaseSelect QAny].
Proof. unfold fallback. simpl. by destruct (fails db QAny). Qed.

Lemma gather_trace db at_ embedding query themes :
  trace (gather db at_ embedding query themes)
  = (trace (match themes with
            | [] => vectorSearch db embedding
            | _ => themeFiltered db at_ themes
            end) ++ trace (directMatch db query))%list.
Proof.
  unfold gather. rewrite trace_bind. f_equal. rewrite trace_bind. simpl.
  by rewrite app_nil_r.
Qed.

Lemma search_trace_scoped db at_ embedding limit query id themes :
  truthy (Some id) = true ->
  trace (searchSimilarChunks db at_ embedding limit query (Some id) themes)
  = [SupabaseSelect (QDocument id)].
Proof.
  intros Hid. unfold searchSimilarChunks. rewrite Hid, trace_bind. simpl.
  by destruct (fails db _).
Qed.

Lemma search_trace_open db at_ embedding limit query documentId themes :
  truthy documentId = false ->
  trace (searchSimilarChunks db at_ embedding limit query documentId themes)
  = (trace (gather db at_ embedding query themes)
     ++ if isEmpty (value (gather db at_ embedding query themes))
        then [SupabaseSelect QAny] else [])%list.
Proof.
  intros Hdoc. unfold searchSimilarChunks. rewrite Hdoc, trace_bind. f_equal.
  rewrite trace_bind. simpl. rewrite app_nil_r.
  destruct (value (gather _ _ _ _ _)); [apply fallback_calls|done].
Qed.

End SearchCalls.

(** ** Document-scoped search *)

Module ScopedSearch.
Import Js Effects Retrieval Statements MergerProofs RetrievalProofs Properties MergerMore SearchCalls.

Lemma mergeLoop_zero allResults :
  forall uniqueResults seenChunks documentCounts,
    mergeLoop 0 allResults uniqueResults seenChunks documentCounts
    = mergeLoop 1 allResults uniqueResults seenChunks documentCounts.
Proof.
  induction allResults as [|chunk rest IH]; intros u s m; simpl; [done|].
  destruct (decide _); [apply IH|]. destruct (_ <? _)%nat; [|apply IH].
  rewrite length_app. simpl.
  replace (length u + 1)%nat with (S (length u)) by lia. done.
Qed.

Lemma merge_bounded limit allResults :
  (length (merge limit allResults) <= Nat.max 1 limit)%nat.
Proof.
  destruct limit as [|limit].
  - unfold merge. rewrite mergeLoop_zero. apply (merge_within 1). lia.
  - etrans; [apply merge_within; lia|lia].
Qed.

(** Rows without a similarity keep their order in the sort. *)
Lemma sortByScore_unscored l :
  (forall c, c ∈ l -> similarity c = None) -> sortByScore l = l.
Proof.
  induction l as [|c l IH]; intros Hnone; [done|]. simpl.
  rewrite IH by (intros d Hd; apply Hnone; by constructor).
  destruct l as [|d l]; [done|]. simpl. unfold score.
  rewrite (Hnone c) by constructor.
  rewrite (Hnone d) by (constructor; constructor). done.
Qed.

Lemma ascending_head l :
  forall x, ascending (x :: l) ->
    forall k e, l !! k = Some e -> (chunk_index x <= chunk_index e)%Z.
Proof.
  induction l as [|y l IHl]; intros x Hl k e Hk; [by rewrite lookup_nil in Hk|].
  destruct Hl as [Hxy Hl]. destruct k as [|k]; simpl in Hk.
  - by injection Hk as <-.
  - etrans; [exact Hxy|]. by eapply (IHl y).
Qed.

(** Ascending order, every entry against all later ones. *)
Lemma ascending_all l :
  ascending l ->
  forall i j c d, (i < j)%nat -> l !! i = Some c -> l !! j = Some d ->
                  (chunk_index c <= chunk_index d)%Z.
Proof.
  induction l as [|x l IH]; intros Hl i j c d Hij Hi Hj; [by rewrite lookup_nil in Hi|].
  destruct j as [|j]; [lia|]. simpl in Hj.
  destruct i as [|i]; simpl in Hi.
  - injection Hi as <-. by eapply ascending_head.
  - eapply IH; [by eapply ascending_tail| |exact Hi|exact Hj]. lia.
Qed.

Lemma all_ascending l :
  (forall i j c d, (i < j)%nat -> l !! i = Some c -> l !! j = Some d ->
                   (chunk_index c <= chunk_index d)%Z) ->
  ascending l.
Proof.
  induction l as [|x l IH]; intros H; [done|].
  apply ascending_cons.
  - apply IH. intros i j c d Hij Hi Hj. apply (H (S i) (S j)); [lia|done|done].
  - intros d Hd. destruct l as [|y l]; [done|]. simpl in Hd. injection Hd as <-.
    apply (H 0%nat 1%nat); [lia|done|done].
Qed.

Lemma sublist_lookup {A} (l1 l2 : list A) :
  l1 `sublist_of` l2 ->
  forall i j c d, (i < j)%nat -> l1 !! i = Some c -> l1 !! j = Some d ->
    exists i' j', (i' < j')%nat /\ l2 !! i' = Some c /\ l2 !! j' = Some d.
Proof.
  induction 1 as [|x l1 l2 Hsub IH|x l1 l2 Hsub IH]; intros i j c d Hij Hi Hj.
  - by rewrite lookup_nil in Hi.
  - destruct j as [|j]; [lia|]. simpl in Hj. destruct i as [|i]; simpl in Hi.
    + injection Hi as <-.
      assert (Hd : d ∈ l2).
      { eapply elem_of_sublist; [|exact Hsub]. by eapply list_elem_of_lookup_2. }
      apply list_elem_of_lookup_1 in Hd as [j' Hj'].
      exists 0%nat, (S j'). split; [lia|done].
    + destruct (IH i j c d) as (i' & j' & H1 & H2 & H3); [lia|done|done|].
      exists (S i'), (S j'). split; [lia|done].
  - destruct (IH i j c d Hij Hi Hj) as (i' & j' & H1 & H2 & H3).
    exists (S i'), (S j'). split; [lia|done].
Qed.

Lemma ascending_sublist l1 l2 : l1 `sublist_of` l2 -> ascending l2 -> ascending l1.
Proof.
  intros Hsub Hl2. apply all_ascending. intros i j c d Hij Hi Hj.
  destruct (sublist_lookup _ _ Hsub i j c d Hij Hi Hj) as (i' & j' & H1 & H2 & H3).
  by eapply (ascending_all l2).
Qed.

(** What a document-scoped search returns: a selection, in order, of the
    slice of the document's chunks. *)
Lemma search_scoped_value db at_ embedding limit query id themes :
  truthy (Some id) = true ->
  value (searchSimilarChunks db at_ embedding limit query (Some id) themes)
    `sublist_of` documentScoped limit (map columns (rowsOf db (QDocument id))).
Proof.
  intros Hid. unfold searchSimilarChunks. rewrite Hid, value_bind. simpl.
  destruct (fails db _); simpl; [apply sublist_nil_l|].
  set (slice := documentScoped limit _).
  rewrite <- (sortByScore_unscored slice) at 2; [apply merge_sublist|].
  intros c Hc. unfold slice, documentScoped in Hc.
  apply elem_of_take in Hc as (i & Hc & _). apply list_elem_of_lookup_2 in Hc.
  by apply list_elem_of_fmap in Hc as (d & -> & _).
Qed.

End ScopedSearch.

(** ** Sets of strings and the concept tables *)

Module ConceptMore.
Import Js Concepts Enhancement ConceptProofs StringFacts Statements Properties.

Lemma uniqFrom_In seen arr x :
  In x (uniqFrom seen arr) <-> In x arr /\ ~ In x seen.
Proof.
  revert seen. induction arr as [|y rest IH]; intros seen; simpl; [tauto|].
  destruct (arrIncludes seen y) eqn:Hy.
  - apply arrIncludes_In in Hy. rewrite IH. split.
    + intros [? ?]. tauto.
    + intros [[->|?] ?]; tauto.
  - assert (Hny : ~ In y seen).
    { intros H. apply arrIncludes_In in H. congruence. }
    simpl. rewrite IH, in_app_iff. simpl.
    destruct (string_dec y x) as [->|Hne]; [tauto|]. tauto.
Qed.

Lemma uniqFrom_NoDup seen arr : List.NoDup (uniqFrom seen arr).
Proof.
  revert seen. induction arr as [|y rest IH]; intros seen; simpl; [constructor|].
  destruct (arrIncludes seen y); [apply IH|].
  constructor; [|apply IH]. rewrite uniqFrom_In, in_app_iff. simpl. tauto.
Qed.

Lemma uniq_In arr x : In x (uniq arr) <-> In x arr.
Proof. unfold uniq. rewrite uniqFrom_In. simpl. tauto. Qed.

Lemma uniq_NoDup arr : List.NoDup (uniq arr).
Proof. apply uniqFrom_NoDup. Qed.

Lemma filter_NoDup {A} (f : A -> bool) l : List.NoDup l -> List.NoDup (List.filter f l).
Proof.
  induction 1 as [|x l Hx Hl IH]; simpl; [constructor|].
  destruct (f x); [|done]. constructor; [|done]. rewrite filter_In. tauto.
Qed.

Lemma lowerChar_idem c : lowerChar (lowerChar c) = lowerChar c.
Proof. destruct c as [[] [] [] [] [] [] [] []]; reflexivity. Qed.

Lemma toLowerCase_idem s : toLowerCase (toLowerCase s) = toLowerCase s.
Proof. induction s as [|c s IH]; simpl; [done|]. by rewrite lowerChar_idem, IH. Qed.

Lemma startsWith_join p rest sep prefix :
  startsWith p prefix = true -> startsWith (join sep (p :: rest)) prefix = true.
Proof.
  intros H. destruct rest; [done|].
  change (join sep (p :: s :: rest)) with (p ++ sep ++ join sep (s :: rest)).
  by apply FactProofs.startsWith_app.
Qed.

End ConceptMore.

(** ** The edge pattern in closed form *)

Module EdgePattern.
Import Js Regex ClassRuns Facts StringFacts RegexProofs FactProofs Statements Properties.

Lemma removeAllFrom_skip_app icase r (a b : string) :
  removeAllFrom icase r false (String.length a) (a ++ b) = removeAllFrom icase r false 0 b.
Proof.
  induction a as [|c a IH]; [done|]. rewrite str_app_cons. cbn [String.length removeAllFrom].
  exact IH.
Qed.

Lemma skipRun_length icase k s :
  (String.length (skipRun icase k s) <= String.length s)%nat.
Proof.
  induction s as [|c t IH]; [done|]. cbn [skipRun]. destruct (accepts icase k c); simpl; lia.
Qed.

(** At index 0 the first alternative always matches: the leading run of
    characters outside [\w]. *)
Lemma edge_at_start s :
  matchHere false edgePattern true s
  = Some (String.length s - String.length (skipRun false (CNot CWord) s))%nat.
Proof.
  unfold matchHere, edgePattern, notWord.
  rewrite run_Alt, run_Seq, run_Bol. cbn [flat_map].
  rewrite run_star_class, app_nil_r.
  destruct (greedyRun_head false (CNot CWord) s) as [rest ->]. done.
Qed.

(** [replace] with the edge pattern removes the leading run, then what
    [stripTail] removes. *)
Lemma removeAll_edge s :
  removeAll false edgePattern s = stripTail (skipRun false (CNot CWord) s).
Proof.
  destruct s as [|c t]; [done|].
  unfold removeAll. cbn [removeAllFrom]. rewrite edge_at_start. cbn [skipRun].
  destruct (accepts false (CNot CWord) c) eqn:Hc.
  - pose proof (skipRun_length false (CNot CWord) t) as Hlen.
    cbn [String.length].
    replace (S (String.length t) - String.length (skipRun false (CNot CWord) t))%nat
      with (S (String.length t - String.length (skipRun false (CNot CWord) t))) by lia.
    rewrite (takeRun_skipRun false (CNot CWord) t) at 1 3.
    rewrite str_length_app.
    replace (_ + _ - _)%nat with (String.length (takeRun false (CNot CWord) t)) by lia.
    by rewrite removeAllFrom_skip_app.
  - rewrite Nat.sub_diag, stripTail_cons. cbn [allAccepted]. by rewrite Hc.
Qed.

Lemma stripTail_empty s : stripTail s = EmptyString -> nonWordOnly s = true.
Proof.
  destruct s as [|c t]; [done|]. rewrite stripTail_cons. unfold nonWordOnly.
  by destruct (allAccepted false (CNot CWord) (String c t)).
Qed.

Lemma stripTail_trail s :
  exists trail, s = stripTail s ++ trail /\ nonWordOnly trail = true.
Proof.
  induction s as [|c t (trail & Ht & Htrail)]; [by exists ""|]. rewrite stripTail_cons.
  destruct (allAccepted false (CNot CWord) (String c t)) eqn:Hall.
  - by exists (String c t).
  - exists trail. split; [|done]. rewrite str_app_cons. by f_equal.
Qed.

Lemma stripTail_last s c : lastChar (stripTail s) = Some c -> isWord c = true.
Proof.
  induction s as [|x t IH]; [done|]. rewrite stripTail_cons.
  destruct (allAccepted false (CNot CWord) (String x t)) eqn:Hall; [done|].
  cbn [lastChar]. destruct (stripTail t) as [|y u] eqn:Hu; [|exact IH].
  intros [= <-]. apply stripTail_empty in Hu. unfold nonWordOnly in Hu.
  cbn [allAccepted accepts] in Hall. rewrite Hu, andb_true_r in Hall.
  by apply negb_false_iff in Hall.
Qed.

Lemma skipRun_first s c :
  firstChar (skipRun false (CNot CWord) s) = Some c -> isWord c = true.
Proof.
  induction s as [|x t IH]; [done|]. cbn [skipRun].
  destruct (accepts false (CNot CWord) x) eqn:Hx; [exact IH|].
  intros [= <-]. cbn [accepts] in Hx. by apply negb_false_iff in Hx.
Qed.

Lemma stripTail_first s c :
  firstChar (stripTail s) = Some c -> firstChar s = Some c.
Proof.
  destruct s as [|x t]; [done|]. rewrite stripTail_cons.
  by destruct (allAccepted false (CNot CWord) (String x t)).
Qed.

Lemma takeRun_all icase k s : allAccepted icase k (takeRun icase k s) = true.
Proof.
  induction s as [|c t IH]; [done|]. cbn [takeRun].
  destruct (accepts icase k c) eqn:Hc; [|done]. cbn [allAccepted]. by rewrite Hc.
Qed.

End EdgePattern.

(** ** What the extractor returns *)

Module FactMore.
Import Js Regex ClassRuns Facts StringFacts RegexProofs FactProofs Statements Properties
       EdgePattern.

(** *** Deduplication *)

Lemma findIndexFrom_bounds {A} (p : A -> bool) l :
  forall i, (findIndexFrom p i l = -1 \/ i <= findIndexFrom p i l)%Z.
Proof.
  induction l as [|x l IH]; intros i; simpl; [by left|].
  destruct (p x); [right; lia|]. destruct (IH (i + 1)%Z); [by left|right; lia].
Qed.

Lemma findIndexFrom_early {A} (p : A -> bool) pre l y :
  In y pre -> p y = true ->
  forall i, (0 <= i ->
             0 <= findIndexFrom p i (pre ++ l) < i + Z.of_nat (length pre))%Z.
Proof.
  induction pre as [|x pre IH]; intros Hy Hp i Hi; [done|]. simpl.
  destruct (p x) eqn:Hx; [lia|].
  destruct Hy as [->|Hy]; [congruence|].
  specialize (IH Hy Hp (i + 1)%Z). lia.
Qed.

Section Dedup.
Variable facts : list Fact.

Lemma keepFirst_fresh pre x l :
  facts = (pre ++ x :: l)%list ->
  keepFirst facts x (Z.of_nat (length pre)) = true ->
  ~ In (content x) (map content pre).
Proof.
  intros Hfacts Hkeep Hin. apply in_map_iff in Hin as (y & Hy & Hpre).
  unfold keepFirst, findIndex in Hkeep. apply Z.eqb_eq in Hkeep. rewrite Hfacts in Hkeep.
  pose proof (findIndexFrom_early (fun f => String.eqb (content f) (content x))
                pre (x :: l) y Hpre) as Hearly.
  cbv beta in Hearly. rewrite Hy, String.eqb_refl in Hearly.
  specialize (Hearly eq_refl 0%Z). lia.
Qed.

Lemma filterIndexed_distinct l :
  forall pre, facts = (pre ++ l)%list ->
    List.NoDup (map content (filterIndexedFrom (keepFirst facts) (Z.of_nat (length pre)) l))
    /\ forall f, In f (filterIndexedFrom (keepFirst facts) (Z.of_nat (length pre)) l) ->
                 ~ In (content f) (map content pre).
Proof.
  induction l as [|x l IH]; intros pre Hfacts; simpl.
  - split; [constructor|tauto].
  - assert (Hnext : facts = ((pre ++ [x]) ++ l)%list) by by rewrite <- app_assoc.
    destruct (IH (pre ++ [x])%list Hnext) as [Hnd Hfresh].
    rewrite length_app in Hnd, Hfresh. simpl in Hnd, Hfresh.
    replace (Z.of_nat (length pre + 1)) with (Z.of_nat (length pre) + 1)%Z in Hnd, Hfresh
      by lia.
    assert (Hold : forall f,
               In f (filterIndexedFrom (keepFirst facts) (Z.of_nat (length pre) + 1) l) ->
               ~ In (content f) (map content pre) /\ content f <> content x).
    { intros f Hf. specialize (Hfresh f Hf). rewrite map_app, in_app_iff in Hfresh.
      simpl in Hfresh. split; [tauto|]. intros Heq. apply Hfresh. right. by left. }
    destruct (keepFirst facts x (Z.of_nat (length pre))) eqn:Hkeep.
    + simpl. split.
      * constructor; [|done]. intros Hin. apply in_map_iff in Hin as (f & Hc & Hf).
        by apply Hold in Hf as [_ Hne].
      * intros f [<-|Hf]; [by eapply keepFirst_fresh|]. by apply Hold in Hf as [? _].
    + split; [done|]. intros f Hf. by apply Hold in Hf as [? _].
Qed.

End Dedup.

Lemma filterIndexedFrom_In {A} (keep : A -> Z -> bool) l :
  forall i x, In x (filterIndexedFrom keep i l) -> In x l.
Proof.
  induction l as [|y l IH]; intros i x; simpl; [done|].
  destruct (keep y i); simpl; [intros [->|H]; [by left|right; by eapply IH]|].
  intros H. right. by eapply IH.
Qed.

Lemma take_In {A} n (l : list A) x : In x (take n l) -> In x l.
Proof.
  revert l. induction n as [|n IH]; intros [|y l]; simpl; try done.
  intros [->|H]; [by left|right; by apply IH].
Qed.

Lemma take_NoDup {A} n (l : list A) : List.NoDup l -> List.NoDup (take n l).
Proof.
  revert l. induction n as [|n IH]; intros [|y l] Hl; simpl; try constructor.
  - apply NoDup_cons_iff in Hl as [Hy Hl]. intros H. by apply Hy, (take_In n).
  - apply NoDup_cons_iff in Hl as [_ Hl]. by apply IH.
Qed.

Lemma extract_subset {C} response query (chunks : list C) fact :
  In fact (extractFactsFromResponse response query chunks) ->
  In fact (allFacts response query).
Proof.
  unfold extractFactsFromResponse. intros H. apply take_In in H.
  by eapply filterIndexedFrom_In.
Qed.

Lemma extract_distinct {C} response query (chunks : list C) :
  List.NoDup (map content (extractFactsFromResponse response query chunks)).
Proof.
  unfold extractFactsFromResponse.
  destruct (filterIndexed_distinct (allFacts response query) (allFacts response query) [])
    as [Hnd _]; [done|].
  change (Z.of_nat (length (@nil Fact))) with 0%Z in Hnd.
  change (fun fact index =>
            Z.eqb index (findIndex (fun f => String.eqb (content f) (content fact))
                                   (allFacts response query)))
    with (keepFirst (allFacts response query)).
  rewrite <- firstn_map. by apply take_NoDup.
Qed.

End FactMore.

(** ** Where a fact comes from *)

Module FactOrigin.
Import Js Regex ClassRuns Facts StringFacts RegexProofs FactProofs Statements Properties
       EdgePattern FactMore.

Lemma occursIn_trans a b c : occursIn a b -> occursIn b c -> occursIn a c.
Proof.
  intros (u & v & ->) (u' & v' & ->). exists (u' ++ u), (v ++ v').
  by rewrite !str_app_assoc.
Qed.

Lemma occursIn_cons x c t : occursIn x t -> occursIn x (String c t).
Proof. intros (u & v & ->). exists (String c u), v. by rewrite str_app_cons. Qed.

Lemma occursIn_prefix p r : occursIn p (p ++ r).
Proof. exists "", r. by rewrite str_app_nil_l. Qed.

Lemma occursIn_suffix a s : occursIn s (a ++ s).
Proof. exists a, "". by rewrite str_app_nil_r. Qed.

Lemma takeStr_prefix n s : exists r, s = takeStr n s ++ r.
Proof.
  revert s. induction n as [|n IH]; intros s; [by exists s; destruct s|].
  destruct s as [|c t]; [by exists ""|]. destruct (IH t) as [r Hr].
  exists r. cbn [takeStr]. rewrite str_app_cons. by f_equal.
Qed.

Lemma matchAllFrom_occurs icase r s :
  forall bos skip m, In m (matchAllFrom icase r bos skip s) -> occursIn m s.
Proof.
  induction s as [|c t IH]; intros bos skip m.
  - destruct skip; cbn [matchAllFrom]; [|done].
    destruct (matchHere icase r bos ""); [|done].
    intros [<-|[]]. destruct n; apply occursIn_refl.
  - destruct skip as [|k]; cbn [matchAllFrom].
    + destruct (matchHere icase r bos (String c t)) as [n|].
      * intros [<-|Hm].
        -- destruct (takeStr_prefix n (String c t)) as [rest Hrest].
           rewrite Hrest at 2. apply occursIn_prefix.
        -- apply occursIn_cons. by eapply IH.
      * intros Hm. apply occursIn_cons. by eapply IH.
    + intros Hm. apply occursIn_cons. by eapply IH.
Qed.

Lemma matchAll_occurs icase r s m : In m (matchAll icase r s) -> occursIn m s.
Proof. apply matchAllFrom_occurs. Qed.

Lemma trimStart_suffix s : exists a, s = a ++ trimStart s.
Proof.
  induction s as [|c t [a IH]]; [by exists ""|]. cbn [trimStart].
  destruct (isSpace c); [|by exists ""].
  exists (String c a). rewrite str_app_cons. by f_equal.
Qed.

Lemma trim_occurs s : occursIn (trim s) s.
Proof.
  unfold trim. destruct (trimStart_suffix s) as [a Ha].
  destruct (trimEnd_prefix (trimStart s)) as [r Hr].
  exists a, r. by rewrite <- Hr.
Qed.

Lemma skipRun_suffix icase k s : exists a, s = a ++ skipRun icase k s.
Proof. exists (takeRun icase k s). apply takeRun_skipRun. Qed.

Lemma clean_occurs s : occursIn (removeAll false edgePattern s) s.
Proof.
  rewrite removeAll_edge. destruct (skipRun_suffix false (CNot CWord) s) as [a Ha].
  destruct (stripTail_prefix (skipRun false (CNot CWord) s)) as [r Hr].
  exists a, r. by rewrite <- Hr.
Qed.

(** The pieces of [split] are spans of the subject. *)
Lemma splitFrom_occurs icase r s :
  forall bos,
    (forall skip x, In x (splitFrom icase r bos EmptyString skip s) -> occursIn x s)
    /\ (forall piece x, In x (splitFrom icase r bos piece 0 s) ->
          (exists p rest, x = piece ++ p /\ s = p ++ rest) \/ occursIn x s).
Proof.
  induction s as [|c t IH]; intros bos.
  - split.
    + intros skip x. destruct skip; cbn [splitFrom]; intros [<-|[]]; apply occursIn_refl.
    + intros piece x. cbn [splitFrom]. intros [<-|[]]. left. exists "", "".
      by rewrite str_app_nil_r.
  - assert (Hzero : forall piece x, In x (splitFrom icase r bos piece 0 (String c t)) ->
              (exists p rest, x = piece ++ p /\ String c t = p ++ rest)
              \/ occursIn x (String c t)).
    { intros piece x. cbn [splitFrom].
      destruct (IH false) as [IHskip IHzero].
      destruct (matchHere icase r bos (String c t)) as [[|m]|].
      - assert (Hrest : In x (splitFrom icase r false (String c "") 0 t) ->
                        occursIn x (String c t)).
        { intros Hx. apply IHzero in Hx as [(p & rest & -> & ->)|Hx].
          - rewrite <- str_app_cons. change (String c "" ++ p) with (String c p).
            apply occursIn_prefix.
          - by apply occursIn_cons. }
        destruct piece as [|y piece].
        + intros Hx. right. by apply Hrest.
        + intros [<-|Hx]; [|right; by apply Hrest].
          left. exists "", (String c t). by rewrite str_app_nil_r.
      - intros [<-|Hx].
        + left. exists "", (String c t). by rewrite str_app_nil_r.
        + right. apply occursIn_cons. by eapply IHskip.
      - intros Hx. apply IHzero in Hx as [(p & rest & -> & ->)|Hx].
        + left. exists (String c p), rest. split; [|done].
          rewrite str_app_assoc. done.
        + right. by apply occursIn_cons. }
    split; [|exact Hzero].
    intros skip x. destruct skip as [|k].
    + intros Hx. apply Hzero in Hx as [(p & rest & -> & ->)|Hx]; [|done].
      rewrite str_app_nil_l. apply occursIn_prefix.
    + cbn [splitFrom]. intros Hx. apply occursIn_cons.
      destruct (IH false) as [IHskip _]. by eapply IHskip.
Qed.

Lemma split_occurs icase r s x : In x (split icase r s) -> occursIn x s.
Proof.
  unfold split. destruct s as [|c t].
  - destruct (matchHere icase r true ""); [done|]. intros [<-|[]]. apply occursIn_refl.
  - destruct (splitFrom_occurs icase r (String c t) true) as [Hskip _]. apply Hskip.
Qed.

(** The four ways a fact gets into the list. *)
Lemma allFacts_cases response query fact :
  In fact (allFacts response query) ->
  exists text conf label lo,
    fact = mkFact text conf label query
    /\ occursIn text response
    /\ (lo < String.length text < 200)%nat
    /\ ((conf = 8 # 10 /\ lo = 10%nat /\ label = "Statistical information from: ")
        \/ (conf = 7 # 10 /\ lo = 20%nat /\ label = "AIME program information from: ")
        \/ (conf = 6 # 10 /\ lo = 25%nat /\ label = "Concept definition from: ")
        \/ (conf = 6 # 10 /\ lo = 30%nat /\ label = "Definition from: ")).
Proof.
  unfold allFacts, patternFacts. rewrite !in_app_iff, !in_flat_map.
  intros [(p & _ & Hm)|[(p & _ & Hm)|[(p & _ & Hm)|(s & Hs & Hf)]]].
  - apply in_flat_map in Hm as (m & Hm & Hf). unfold statFact in Hf.
    destruct (_ && _) eqn:Hlen; [|done]. destruct Hf as [<-|[]].
    apply andb_true_iff in Hlen as [Hlo Hhi].
    apply Nat.ltb_lt in Hlo. apply Nat.ltb_lt in Hhi.
    eexists _, _, _, 10%nat. split; [done|]. split; [|split; [lia|tauto]].
    eapply occursIn_trans; [apply clean_occurs|].
    eapply occursIn_trans; [apply trim_occurs|]. by eapply matchAll_occurs.
  - apply in_flat_map in Hm as (m & Hm & Hf). unfold aimeFact in Hf.
    destruct (_ && _) eqn:Hlen; [|done]. destruct Hf as [<-|[]].
    apply andb_true_iff in Hlen as [Hlo Hhi].
    apply Nat.ltb_lt in Hlo. apply Nat.ltb_lt in Hhi.
    eexists _, _, _, 20%nat. split; [done|]. split; [|split; [lia|tauto]].
    eapply occursIn_trans; [apply trim_occurs|]. by eapply matchAll_occurs.
  - apply in_flat_map in Hm as (m & Hm & Hf). unfold conceptFact in Hf.
    destruct (_ && _) eqn:Hlen; [|done]. destruct Hf as [<-|[]].
    apply andb_true_iff in Hlen as [Hlo Hhi].
    apply Nat.ltb_lt in Hlo. apply Nat.ltb_lt in Hhi.
    eexists _, _, _, 25%nat. split; [done|]. split; [|split; [lia|tauto]].
    eapply occursIn_trans; [apply trim_occurs|]. by eapply matchAll_occurs.
  - unfold sentences in Hs. apply filter_In in Hs as [Hs _]. unfold sentenceFact in Hf.
    destruct (_ && _ && _ && _) eqn:Hlen; [|done]. destruct Hf as [<-|[]].
    apply andb_true_iff in Hlen as [Hlen Hhi]. apply andb_true_iff in Hlen as [_ Hlo].
    apply Nat.ltb_lt in Hlo. apply Nat.ltb_lt in Hhi.
    eexists _, _, _, 30%nat. split; [done|]. split; [|split; [lia|tauto]].
    eapply occursIn_trans; [apply trim_occurs|]. by eapply split_occurs.
Qed.

Lemma short_answer_no_fact {C} response query (chunks : list C) :
  (String.length response <= 10)%nat ->
  extractFactsFromResponse response query chunks = [].
Proof.
  intros Hshort.
  destruct (extractFactsFromResponse response query chunks) as [|fact rest] eqn:Hout;
    [done|].
  assert (Hin : In fact (extractFactsFromResponse response query chunks))
    by (rewrite Hout; by left).
  apply extract_subset, allFacts_cases in Hin
    as (text & conf & label & lo & _ & (before & after & Hocc) & Hlen & Hcase).
  apply (f_equal String.length) in Hocc. rewrite !str_length_app in Hocc.
  destruct Hcase as [(_ & -> & _)|[(_ & -> & _)|[(_ & -> & _)|(_ & -> & _)]]]; lia.
Qed.

End FactOrigin.

(** ** The handler, call by call *)

Module HandlerMore.
Import Js Effects Retrieval Enhancement Answer Handler Statements RetrievalProofs
       AnswerProofs Properties SearchCalls.

Lemma themeFiltered_adapter db at_ themes :
  forallb isAdapterCall (trace (themeFiltered db at_ themes)) = true
  /\ (trace (themeFiltered db at_ themes) = [] -> value (themeFiltered db at_ themes) = []).
Proof.
  unfold themeFiltered.
  destruct (truthy (AIRTABLE_API_KEY at_) && truthy (AIRTABLE_BASE_ID at_)); [|done].
  destruct (fetchDocuments at_), (fetchThemes at_); try done.
  destruct (List.filter _ _); [done|]. simpl. by destruct (fails db _).
Qed.

Lemma directMatch_adapter db query :
  forallb isAdapterCall (trace (directMatch db query)) = true
  /\ (trace (directMatch db query) = [] -> value (directMatch db query) = []).
Proof.
  unfold directMatch. destruct query as [[|c q]|]; try done.
  destruct (_ && _); [|done]. simpl. by destruct (fails db _).
Qed.

Lemma gather_value db at_ embedding query themes :
  value (gather db at_ embedding query themes)
  = (value (match themes with
            | [] => vectorSearch db embedding
            | _ => themeFiltered db at_ themes
            end) ++ value (directMatch db query))%list.
Proof. unfold gather. by rewrite !value_bind. Qed.

(** A search only calls candidate sources, and calls at least one. *)
Lemma search_adapters db at_ embedding limit query documentId themes :
  forallb isAdapterCall
          (trace (searchSimilarChunks db at_ embedding limit query documentId themes)) = true
  /\ trace (searchSimilarChunks db at_ embedding limit query documentId themes) <> [].
Proof.
  destruct (truthy documentId) eqn:Hdoc.
  - destruct documentId as [id|]; [|done]. by rewrite search_trace_scoped.
  - rewrite search_trace_open, gather_trace, gather_value by done.
    destruct (directMatch_adapter db query) as [Hd1 Hd2].
    destruct themes as [|t themes].
    + rewrite vectorSearch_calls. split; [|done]. simpl. rewrite forallb_app, Hd1.
      by destruct (isEmpty _).
    + destruct (themeFiltered_adapter db at_ (t :: themes)) as [Ht1 Ht2].
      split.
      * rewrite !forallb_app, Ht1, Hd1. by destruct (isEmpty _).
      * destruct (trace (themeFiltered db at_ (t :: themes))) eqn:Htt; [|done].
        destruct (trace (directMatch db query)) eqn:Htd; [|done].
        by rewrite Ht2, Hd2.
Qed.

(** [POST] once the message is there and the embedding was computed. *)
Lemma POST_unfold w request c m embedding :
  message request = Some (String c m) ->
  embeddingsCreate w (String c m) = Some embedding ->
  let found := searchSimilarChunks (supabase w) (airtable w) embedding 5
                 (Some (String c m)) (request_document_id request)
                 (selectedThemes request) in
  let enhancement :=
    if enable_intelligence request
    then Some (enhanceWithIntelligence (String c m) (value found)) else None in
  let generated := generateResponse (providers w) (String c m) (value found)
                     (model request) (history request) enhancement in
  POST w request
  = ((EmbeddingCall (String c m) :: trace found ++ trace generated)%list,
     match value generated with
     | Thrown _ => JsonError 500 "Internal server error"
     | Returned response => Json response
     end).
Proof.
  intros Hmsg Hemb. simpl. unfold POST, generateEmbedding. rewrite Hmsg, Hemb.
  unfold bind at 1. simpl.
  destruct (searchSimilarChunks _ _ _ _ _ _ _) as [t1 found]. simpl.
  destruct (generateResponse _ _ _ _ _ _) as [t2 [response|err]]; simpl;
    by rewrite app_nil_r.
Qed.

(** The three ways through [POST]. *)
Lemma POST_cases w request :
  (truthy (message request) = false
   /\ POST w request = ([], JsonError 400 "Message is required"))
  \/ (exists c m,
        message request = Some (String c m)
        /\ embeddingsCreate w (String c m) = None
        /\ POST w request
           = ([EmbeddingCall (String c m)], JsonError 500 "Internal server error"))
  \/ (exists c m embedding,
        message request = Some (String c m)
        /\ embeddingsCreate w (String c m) = Some embedding).
Proof.
  destruct (message request) as [[|c m]|] eqn:Hmsg.
  - left. split; [done|]. unfold POST. by rewrite Hmsg.
  - destruct (embeddingsCreate w (String c m)) as [embedding|] eqn:Hemb.
    + right. right. by exists c, m, embedding.
    + right. left. exists c, m. split; [done|]. split; [done|].
      unfold POST, generateEmbedding. by rewrite Hmsg, Hemb.
  - left. split; [done|]. unfold POST. by rewrite Hmsg.
Qed.

Lemma lastFour_window (history : list ChatMessage) :
  length (lastFour history) = Nat.min 4 (length history)
  /\ exists older, history = (older ++ lastFour history)%list.
Proof.
  unfold lastFour. split; [rewrite length_drop; lia|].
  exists (take (length history - 4) history). by rewrite take_drop.
Qed.

Lemma cited_ids (chunks : list Chunk) :
  map cite_chunk_id (map citationOf chunks) = map chunk_id chunks.
Proof. induction chunks as [|c l IH]; simpl; [done|by rewrite IH]. Qed.

End HandlerMore.

(** ** The enhancement of a query *)

Module EnhancementMore.
Import Js Concepts Enhancement ConceptProofs StringFacts Statements Properties ConceptMore.

Lemma related_In queryConcepts related :
  In related (findRelatedConcepts queryConcepts)
  <-> (exists matched, In matched queryConcepts /\ In related (adjacency matched))
      /\ ~ In related queryConcepts.
Proof.
  unfold findRelatedConcepts. rewrite filter_In, uniq_In, in_flat_map.
  split; intros [H1 H2]; (split; [done|]).
  - intros H. apply arrIncludes_In in H. by rewrite H in H2.
  - apply negb_true_iff. apply not_true_is_false. by rewrite arrIncludes_In.
Qed.

Lemma related_NoDup queryConcepts : List.NoDup (findRelatedConcepts queryConcepts).
Proof. unfold findRelatedConcepts. apply filter_NoDup, uniq_NoDup. Qed.

Lemma join_last sep parts last :
  exists before, join sep (parts ++ [last]) = before ++ last.
Proof.
  induction parts as [|p parts [before IH]]; [by exists ""|].
  destruct parts as [|q parts].
  - exists (p ++ sep). simpl. by rewrite str_app_assoc.
  - change (join sep ((p :: q :: parts) ++ [last]))
      with (p ++ sep ++ join sep ((q :: parts) ++ [last])).
    rewrite IH. exists (p ++ sep ++ before). by rewrite !str_app_assoc.
Qed.

(** The summary when at least one insight fired: it ends with the clause
    of the first one. *)
Lemma summary_last query queryConcepts relatedConcepts first rest :
  exists before,
    generateIntelligenceSummary query queryConcepts relatedConcepts (first :: rest)
    = before ++ insightClause first.
Proof.
  unfold generateIntelligenceSummary.
  set (parts := (match queryConcepts with [] => [] | _ => [conceptClause queryConcepts] end
                 ++ match relatedConcepts with [] => [] | _ => [relatedClause relatedConcepts] end)%list).
  destruct (join_last ". " parts (insightClause first)) as [before Hbefore].
  exists before. rewrite <- Hbefore.
  replace (match queryConcepts with [] => [] | _ => [conceptClause queryConcepts] end
           ++ match relatedConcepts with [] => [] | _ => [relatedClause relatedConcepts] end
           ++ [insightClause first])%list with (parts ++ [insightClause first])%list
    by (unfold parts; by rewrite <- app_assoc).
  by destruct (parts ++ [insightClause first])%list eqn:Hp; [destruct parts|].
Qed.

Lemma summary_first query queryConcepts relatedConcepts insights :
  queryConcepts <> [] ->
  startsWith (generateIntelligenceSummary query queryConcepts relatedConcepts insights)
             "Your query connects to " = true.
Proof.
  intros Hne. unfold generateIntelligenceSummary.
  destruct queryConcepts as [|c qc]; [done|]. cbn [app].
  apply startsWith_join. unfold conceptClause. by apply FactProofs.startsWith_app.
Qed.

(** The insights when [Hoodie Economics] is the first matched concept. *)
Lemma insights_hoodie others :
  exists first rest,
    generateRelevantInsights ("Hoodie Economics" :: others) = first :: rest
    /\ insight_title first = "Cross-Domain Innovation Pattern"
    /\ insight_confidence first = 85 # 100
    /\ (In "Indigenous Knowledge Integration" others ->
        exists other, In other rest /\ insight_confidence other = 9 # 10).
Proof.
  unfold generateRelevantInsights. cbn [existsb].
  change (includes "Hoodie Economics" "Economics") with true.
  change (includes "Hoodie Economics" "Indigenous" || includes "Hoodie Economics" "Cultural")
    with false.
  cbn [orb app]. eexists _, _. split; [reflexivity|]. split; [done|]. split; [done|].
  intros Hind.
  assert (Hfire : existsb (fun c => includes c "Indigenous" || includes c "Cultural")
                          others = true).
  { apply existsb_exists. exists "Indigenous Knowledge Integration". by split. }
  rewrite Hfire. eexists. split; [by left|done].
Qed.

End EnhancementMore.

(** ** The keyword and theme adapters, and merging twice *)

Module AdapterMore.
Import Js Effects Retrieval Statements MergerInvariant MergerProofs RetrievalProofs Properties
       MergerMore MergerMaximal SearchCalls ScopedSearch HandlerMore.

Lemma take_elem {A} n (l : list A) x : x ∈ take n l -> x ∈ l.
Proof. intros H. apply elem_of_take in H as (i & H & _). by eapply list_elem_of_lookup_2. Qed.

(** The rows a direct match can return. *)
Lemma directMatch_value db query c :
  c ∈ value (directMatch db query) ->
  document_title c = "Hoodie Economics"
  /\ similarity c = Some (95 # 100)
  /\ match_type c = Some "direct_match"
  /\ exists row, row ∈ document_chunks db /\ chunk_id c = chunk_id row.
Proof.
  unfold directMatch. destruct query as [[|x q]|]; try (intros H; by apply elem_of_nil in H).
  destruct (_ && _); [|intros H; by apply elem_of_nil in H].
  simpl. destruct (fails db _); simpl; [intros H; by apply elem_of_nil in H|].
  intros H. apply list_elem_of_fmap in H as (d & -> & Hd).
  apply list_elem_of_fmap in Hd as (row & -> & Hrow). simpl.
  apply take_elem in Hrow. apply list_elem_of_In, filter_In in Hrow as [Hrow Htitle].
  apply String.eqb_eq in Htitle. split; [done|]. split; [done|]. split; [done|].
  exists row. split; [by apply list_elem_of_In|done].
Qed.

Lemma directMatch_length db query : (length (value (directMatch db query)) <= 2)%nat.
Proof.
  unfold directMatch. destruct query as [[|x q]|]; try (simpl; lia).
  destruct (_ && _); [|simpl; lia]. simpl. destruct (fails db _); simpl; [lia|].
  rewrite !length_map, length_take. lia.
Qed.

Lemma directMatch_idle db query :
  default EmptyString query = EmptyString
  \/ includes (toLowerCase (default EmptyString query)) "hoodie"
     && includes (toLowerCase (default EmptyString query)) "economics" = false ->
  directMatch db query = ret [].
Proof.
  unfold directMatch. destruct query as [[|x q]|]; try done. simpl.
  intros [H|H]; [done|]. by rewrite H.
Qed.

(** The rows a theme-filtered search can return. *)
Lemma themeFiltered_value db at_ themes c :
  c ∈ value (themeFiltered db at_ themes) ->
  similarity c = Some (8 # 10)
  /\ match_type c = Some "theme_filtered"
  /\ exists documents catalogThemes doc,
       fetchDocuments at_ = FetchRecords documents
       /\ fetchThemes at_ = FetchRecords catalogThemes
       /\ In doc documents
       /\ matchesThemes (themeMapOf catalogThemes) themes doc = true
       /\ document_id c = doc_id doc.
Proof.
  unfold themeFiltered.
  destruct (truthy (AIRTABLE_API_KEY at_) && truthy (AIRTABLE_BASE_ID at_));
    [|intros H; by apply elem_of_nil in H].
  destruct (fetchDocuments at_) as [| | |documents] eqn:Hd,
           (fetchThemes at_) as [| | |catalogThemes] eqn:Ht;
    try (intros H; by apply elem_of_nil in H).
  destruct (List.filter _ documents) as [|d0 ds] eqn:Hmatch;
    [intros H; by apply elem_of_nil in H|].
  simpl. destruct (fails db _); simpl; [intros H; by apply elem_of_nil in H|].
  intros H. apply list_elem_of_fmap in H as (d & -> & Hd').
  apply list_elem_of_fmap in Hd' as (row & -> & Hrow). simpl.
  split; [done|]. split; [done|].
  apply take_elem in Hrow. apply list_elem_of_In, filter_In in Hrow as [_ Hin].
  change (arrIncludes (map doc_id (d0 :: ds)) (document_id row) = true) in Hin.
  apply ConceptProofs.arrIncludes_In in Hin as Hid.
  rewrite <- Hmatch in Hid. apply in_map_iff in Hid as (doc & Hdoc & Hfilter).
  apply filter_In in Hfilter as [Hdocs Hthemes].
  exists documents, catalogThemes, doc. repeat (split; [done|]). congruence.
Qed.

(** A list the merger returned is merged into itself. *)
Lemma mergeLoop_stable limit rest :
  forall uniqueResults seenChunks documentCounts,
    loopInv uniqueResults seenChunks documentCounts ->
    (forall x, x ∈ seenChunks -> x ∈ map chunk_id uniqueResults) ->
    NoDup (map chunk_id (uniqueResults ++ rest)) ->
    (forall title, (countTitle title (uniqueResults ++ rest) <= maxPerDocument)%nat) ->
    (length (uniqueResults ++ rest) <= limit)%nat ->
    mergeLoop limit rest uniqueResults seenChunks documentCounts
    = (uniqueResults ++ rest)%list.
Proof.
  induction rest as [|chunk rest IH]; intros u s m Hinv Hseen Hnd Hcap Hlen; simpl.
  - by rewrite app_nil_r.
  - assert (Hfresh : chunk_id chunk ∉ s).
    { intros Hin. apply Hseen in Hin. rewrite map_app in Hnd.
      apply NoDup_app in Hnd as (_ & Hdisj & _). apply (Hdisj _ Hin). simpl. constructor. }
    destruct (decide (chunk_id chunk ∈ s)) as [Hin|_]; [done|].
    assert (Hlt : (default 0%nat (m !! document_title chunk) < maxPerDocument)%nat).
    { rewrite <- (inv_counts _ _ _ Hinv). specialize (Hcap (document_title chunk)).
      rewrite countTitle_app in Hcap.
      change (chunk :: rest) with ([chunk] ++ rest)%list in Hcap.
      rewrite countTitle_app, countTitle_one, String.eqb_refl in Hcap. lia. }
    apply Nat.ltb_lt in Hlt as Hltb. rewrite Hltb.
    assert (Hshift : ((u ++ [chunk]) ++ rest = u ++ chunk :: rest)%list)
      by by rewrite <- app_assoc.
    destruct (limit <=? length (u ++ [chunk]))%nat eqn:Hfull.
    + apply Nat.leb_le in Hfull. rewrite !length_app in Hfull, Hlen. simpl in Hfull, Hlen.
      destruct rest; [done|simpl in Hlen; lia].
    + rewrite IH; [done| | | | |].
      * by apply loopInv_push.
      * intros x Hx. rewrite map_app. apply elem_of_app.
        apply elem_of_union in Hx as [Hx|Hx].
        -- right. apply elem_of_singleton in Hx. subst. simpl. constructor.
        -- left. by apply Hseen.
      * by rewrite Hshift.
      * intros title. by rewrite Hshift.
      * by rewrite Hshift.
Qed.

Lemma sortByScore_sorted_id l : sortedByScore l -> sortByScore l = l.
Proof.
  induction l as [|c l IH]; intros Hs; [done|]. destruct Hs as [Hc Hs]. simpl.
  rewrite IH by done. destruct l as [|d l]; [done|]. simpl.
  apply Forall_cons in Hc as [Hd _]. unfold outranks in Hd.
  apply Qle_bool_iff in Hd. by rewrite Hd.
Qed.

Lemma merge_sorted limit allResults : sortedByScore (merge limit allResults).
Proof.
  apply (sorted_sublist _ _ (merge_sublist limit allResults)), sortByScore_sorted.
Qed.

Lemma merge_idempotent limit allResults :
  merge limit (merge limit allResults) = merge limit allResults.
Proof.
  assert (Hone : forall lim, (1 <= lim)%nat ->
             merge lim (merge lim allResults) = merge lim allResults).
  { intros lim Hlim. unfold merge at 1.
    rewrite (sortByScore_sorted_id _ (merge_sorted lim allResults)).
    apply mergeLoop_stable.
    - apply loopInv_start.
    - intros x Hx. by apply elem_of_empty in Hx.
    - apply merge_nodup.
    - intros title. apply merge_cap.
    - by apply merge_within. }
  destruct limit as [|limit]; [|apply Hone; lia].
  assert (Hzero : forall l, merge 0 l = merge 1 l).
  { intros l. unfold merge. apply mergeLoop_zero. }
  rewrite !Hzero. apply Hone. lia.
Qed.

End AdapterMore.

(** * Further properties of the route *)

Module Extra.
Import Js Effects Retrieval Statements MergerProofs RetrievalProofs RetrievalClaims Scenarios
       Properties MergerMore MergerMaximal SearchCalls ScopedSearch.

(** X1.  The merger returns at most [limit] chunks, and at most one when
    [limit] is 0 (the limit is tested after a chunk is pushed); so does
    [searchSimilarChunks]. *)
Theorem X1_result_count_bounded db at_ embedding limit query documentId themes allResults :
  (length (merge limit allResults) <= Nat.max 1 limit)%nat
  /\ (length (value (searchSimilarChunks db at_ embedding limit query documentId themes))
      <= Nat.max 1 limit)%nat.
Proof.
  split; [apply merge_bounded|].
  destruct (search_shape db at_ embedding limit query documentId themes) as [->|[l ->]].
  - simpl. lia.
  - apply merge_bounded.
Qed.

(** X2.  A merged result set is ranked: no entry has a higher score than an
    entry before it (an absent similarity counts as 0); and every entry is
    one of the candidates. *)
Theorem X2_results_ranked_candidates limit allResults :
  rankedByScore (merge limit allResults)
  /\ forall c, c ∈ merge limit allResults -> c ∈ allResults.
Proof. split; [apply merge_ranked|intros c; apply merge_subset]. Qed.

(** X3.  When the merger returns fewer than [limit] chunks, no candidate was
    left out for another reason than the two guards: every candidate has
    its identifier among the results, or its document title already holds
    [maxPerDocument] results. *)
Theorem X3_merge_leaves_nothing_eligible limit allResults c :
  (length (merge limit allResults) < limit)%nat ->
  c ∈ allResults ->
  chunk_id c ∈ map chunk_id (merge limit allResults)
  \/ (maxPerDocument <= countTitle (document_title c) (merge limit allResults))%nat.
Proof. apply merge_maximal. Qed.

Lemma X3_merge_leaves_nothing_eligible_witness :
  chunk_id (scored "a3" "A" (7 # 10)) ∈ map chunk_id (merge 5 pool311)
  \/ (maxPerDocument
      <= countTitle (document_title (scored "a3" "A" (7 # 10))) (merge 5 pool311))%nat.
Proof.
  apply (X3_merge_leaves_nothing_eligible 5 pool311 (scored "a3" "A" (7 # 10))).
  - vm_compute. lia.
  - apply list_elem_of_In. simpl. tauto.
Defined.

(** X4.  When there is any candidate, the first result is a candidate of
    maximal score. *)
Theorem X4_best_candidate_first limit allResults :
  allResults <> [] ->
  exists top,
    head (merge limit allResults) = Some top
    /\ top ∈ allResults
    /\ forall c, c ∈ allResults -> (score c <= score top)%Q.
Proof. apply merge_top. Qed.

Lemma X4_best_candidate_first_witness :
  exists top,
    head (merge 5 pool311) = Some top
    /\ top ∈ pool311
    /\ forall c, c ∈ pool311 -> (score c <= score top)%Q.
Proof. apply (X4_best_candidate_first 5 pool311). discriminate. Defined.

(** X5.  A document-scoped search issues exactly one call, the select of
    that document's chunks; what it returns are chunks of that document,
    in ascending chunk-index order, taken from the first [limit] of them. *)
Theorem X5_document_scope db at_ embedding limit query c id themes :
  let documentId := String c id in
  let result :=
    value (searchSimilarChunks db at_ embedding limit query (Some documentId) themes) in
  trace (searchSimilarChunks db at_ embedding limit query (Some documentId) themes)
  = [SupabaseSelect (QDocument documentId)]
  /\ result `sublist_of` take limit (map columns (rowsOf db (QDocument documentId)))
  /\ ascending result
  /\ forall chunk, chunk ∈ result -> document_id chunk = documentId.
Proof.
  simpl.
  pose proof (search_scoped_value db at_ embedding limit query (String c id) themes eq_refl)
    as Hsub.
  destruct (documentScoped_stage db (String c id) limit) as (_ & Hasc & Hdoc).
  split; [by apply search_trace_scoped|]. split; [exact Hsub|]. split.
  - by eapply ascending_sublist.
  - intros chunk Hchunk. apply Hdoc. by eapply elem_of_sublist.
Qed.

(** X6.  The similarity procedure [match_chunks] is called exactly when the
    request has neither a document scope nor selected themes. *)
Theorem X6_vector_search_only_unscoped db at_ embedding limit query documentId themes :
  existsb isRpc (trace (searchSimilarChunks db at_ embedding limit query documentId themes))
  = negb (truthy documentId) && isEmpty themes.
Proof.
  destruct (truthy documentId) eqn:Hdoc.
  - destruct documentId as [id|]; [|done]. by rewrite search_trace_scoped.
  - rewrite search_trace_open, gather_trace by done. rewrite !existsb_app.
    destruct (directMatch_calls db query) as (-> & _ & _).
    destruct themes as [|t themes].
    + rewrite vectorSearch_calls. done.
    + destruct (themeFiltered_calls db at_ (t :: themes)) as (-> & _ & _).
      by destruct (isEmpty _).
Qed.

(** X7.  The fallback select is issued exactly when the request has no
    document scope and its adapters gathered nothing. *)
Theorem X7_fallback_only_when_empty db at_ embedding limit query documentId themes :
  existsb isFallbackSelect
          (trace (searchSimilarChunks db at_ embedding limit query documentId themes))
  = negb (truthy documentId) && isEmpty (value (gather db at_ embedding query themes)).
Proof.
  destruct (truthy documentId) eqn:Hdoc.
  - destruct documentId as [id|]; [|done]. by rewrite search_trace_scoped.
  - rewrite search_trace_open, gather_trace by done. rewrite !existsb_app.
    destruct (directMatch_calls db query) as (_ & -> & _).
    assert (Hfirst : existsb isFallbackSelect
                       (trace match themes with
                              | [] => vectorSearch db embedding
                              | _ => themeFiltered db at_ themes
                              end) = false).
    { destruct themes as [|t themes]; [by rewrite vectorSearch_calls|].
      by destruct (themeFiltered_calls db at_ (t :: themes)) as (_ & -> & _). }
    rewrite Hfirst. by destruct (isEmpty _).
Qed.

(** X8.  The catalog is fetched exactly when themes are selected, there is
    no document scope, and both catalog credentials are configured. *)
Theorem X8_catalog_only_for_themes db at_ embedding limit query documentId themes :
  existsb isCatalogFetch
          (trace (searchSimilarChunks db at_ embedding limit query documentId themes))
  = negb (truthy documentId) && negb (isEmpty themes)
    && truthy (AIRTABLE_API_KEY at_) && truthy (AIRTABLE_BASE_ID at_).
Proof.
  destruct (truthy documentId) eqn:Hdoc.
  - destruct documentId as [id|]; [|done]. by rewrite search_trace_scoped.
  - rewrite search_trace_open, gather_trace by done. rewrite !existsb_app.
    destruct (directMatch_calls db query) as (_ & _ & ->).
    destruct themes as [|t themes].
    + rewrite vectorSearch_calls. by destruct (isEmpty _).
    + destruct (themeFiltered_calls db at_ (t :: themes)) as (_ & _ & ->).
      destruct (isEmpty _); simpl; by rewrite ?orb_false_r.
Qed.

Import Concepts Enhancement ConceptProofs ConceptMore EnhancementMore.

(** X9.  The matched concepts of a query are a selection of the concept
    vocabulary in table order: each of the six concepts at most once, and
    nothing else. *)
Theorem X9_concepts_from_vocabulary query :
  findQueryConcepts query `sublist_of` conceptVocabulary.
Proof.
  unfold findQueryConcepts.
  destruct (includes _ "hoodie" || includes _ "economics");
    destruct (includes _ "relational");
    destruct (includes _ "indigenous" || includes _ "cultural");
    destruct (includes _ "digital" || includes _ "recognition");
    destruct (includes _ "business" || includes _ "cases");
    destruct (includes _ "scale" || includes _ "impact");
    cbn [app]; unfold conceptVocabulary;
    repeat first [apply sublist_nil_l | apply sublist_skip | apply sublist_cons].
Qed.

(** X10.  A concept is in the related list exactly when the adjacency table
    links it to some matched concept and it is not itself matched; the
    related list has no duplicate. *)
Theorem X10_related_concepts_characterised queryConcepts :
  (forall related,
      In related (findRelatedConcepts queryConcepts)
      <-> (exists matched, In matched queryConcepts /\ In related (adjacency matched))
          /\ ~ In related queryConcepts)
  /\ NoDup (findRelatedConcepts queryConcepts).
Proof. split; [apply related_In|apply NoDup_ListNoDup, related_NoDup]. Qed.

(** X11.  When no concept matches, the enhancement is the generic sentence
    with no related concept, no insight and the connection flag off; when
    some concept matches, the flag is on and the summary starts with the
    matched-concept clause. *)
Theorem X11_enhancement_by_match {C : Type} query (chunks : list C) :
  (findQueryConcepts query = [] ->
   enhanceWithIntelligence query chunks
   = {| intelligence_summary := genericSummary; related_concepts := [];
        insights := []; concept_connections := false |})
  /\ (findQueryConcepts query <> [] ->
      concept_connections (enhanceWithIntelligence query chunks) = true
      /\ startsWith (intelligence_summary (enhanceWithIntelligence query chunks))
                    "Your query connects to " = true).
Proof.
  unfold enhanceWithIntelligence. split.
  - intros ->. reflexivity.
  - intros Hne. cbn [concept_connections intelligence_summary]. split.
    + by destruct (findQueryConcepts query).
    + by apply summary_first.
Qed.

Lemma X11_enhancement_by_match_witness :
  enhanceWithIntelligence "How is the weather?" (@nil Chunk)
  = {| intelligence_summary := genericSummary; related_concepts := [];
       insights := []; concept_connections := false |}
  /\ concept_connections (enhanceWithIntelligence "What is the impact?" (@nil Chunk)) = true
  /\ startsWith (intelligence_summary (enhanceWithIntelligence "What is the impact?" (@nil Chunk)))
                "Your query connects to " = true.
Proof.
  split.
  - apply (X11_enhancement_by_match "How is the weather?" (@nil Chunk)). reflexivity.
  - apply (X11_enhancement_by_match "What is the impact?" (@nil Chunk)). discriminate.
Defined.

(** X12.  For every query that mentions [hoodie] or [economics], the first
    insight is the Cross-Domain Innovation Pattern (confidence 0.85) and the
    summary ends with its clause; this also holds when the query mentions
    [indigenous], although the insight list then holds an insight of
    confidence 0.9. *)
Theorem X12_key_insight_is_first_rule {C : Type} query (chunks : list C) :
  includes (toLowerCase query) "hoodie" || includes (toLowerCase query) "economics" = true ->
  exists first rest before,
    insights (enhanceWithIntelligence query chunks) = first :: rest
    /\ insight_title first = "Cross-Domain Innovation Pattern"
    /\ insight_confidence first = 85 # 100
    /\ intelligence_summary (enhanceWithIntelligence query chunks)
       = before ++ "Key insight: " ++ insight_description first
    /\ (includes (toLowerCase query) "indigenous" = true ->
        exists other, In other rest /\ insight_confidence other = 9 # 10).
Proof.
  intros Hq. unfold enhanceWithIntelligence. cbn [insights intelligence_summary].
  assert (Hconcepts : exists others,
             findQueryConcepts query = "Hoodie Economics" :: others
             /\ (includes (toLowerCase query) "indigenous" = true ->
                 In "Indigenous Knowledge Integration" others)).
  { unfold findQueryConcepts. rewrite Hq. eexists. split; [reflexivity|].
    intros ->. cbn [orb]. rewrite !in_app_iff. right. left. by left. }
  destruct Hconcepts as (others & Hc & Hind). rewrite Hc.
  destruct (insights_hoodie others) as (first & rest & -> & Htitle & Hconf & Hother).
  destruct (summary_last query ("Hoodie Economics" :: others)
              (findRelatedConcepts ("Hoodie Economics" :: others)) first rest)
    as [before Hsum].
  exists first, rest, before. split; [done|]. split; [done|]. split; [done|].
  split; [exact Hsum|]. intros Hi. by apply Hother, Hind.
Qed.

Lemma X12_key_insight_is_first_rule_witness :
  exists first rest before,
    insights (enhanceWithIntelligence "indigenous economics" (@nil Chunk)) = first :: rest
    /\ insight_title first = "Cross-Domain Innovation Pattern"
    /\ insight_confidence first = 85 # 100
    /\ intelligence_summary (enhanceWithIntelligence "indigenous economics" (@nil Chunk))
       = before ++ "Key insight: " ++ insight_description first
    /\ (includes (toLowerCase "indigenous economics") "indigenous" = true ->
        exists other, In other rest /\ insight_confidence other = 9 # 10).
Proof.
  apply (X12_key_insight_is_first_rule "indigenous economics" (@nil Chunk)). reflexivity.
Defined.

Import Regex ClassRuns Facts RegexProofs FactProofs StringFacts EdgePattern FactMore FactOrigin.

(** X13.  The suggested tags of any content and query are at most four,
    pairwise distinct, and taken from the ten tags of the lookup. *)
Theorem X13_tags_bounded content query :
  (length (extractTagsFromContent content query) <= 4)%nat
  /\ NoDup (extractTagsFromContent content query)
  /\ forall tag, In tag (extractTagsFromContent content query) -> In tag tagVocabulary.
Proof.
  unfold extractTagsFromContent. cbv zeta. split; [rewrite length_take; lia|]. split.
  - apply NoDup_ListNoDup, take_NoDup, uniq_NoDup.
  - intros tag Htag. apply take_In in Htag. apply (proj1 (uniq_In _ _)) in Htag.
    rewrite !in_app_iff in Htag.
    repeat (destruct Htag as [Htag|Htag]);
      (destruct (includes _ _) in Htag; [destruct Htag as [<-|[]]|destruct Htag]);
      vm_compute; tauto.
Qed.

(** X14.  No two facts returned by the extractor have the same content. *)
Theorem X14_facts_distinct {C : Type} response query (chunks : list C) :
  NoDup (map Facts.content (extractFactsFromResponse response query chunks)).
Proof. apply NoDup_ListNoDup, extract_distinct. Qed.

(** X15.  Every returned fact has a content of more than 10 and fewer than
    200 characters, tags computed from that content and the query, a source
    context that quotes the query, and one of three confidences, each with
    its own lower bound on the length: 0.8 (statistical, above 10), 0.7
    (AIME, above 20) and 0.6 (concept or definition, above 25). *)
Theorem X15_fact_shape {C : Type} response query (chunks : list C) fact :
  In fact (extractFactsFromResponse response query chunks) ->
  (10 < String.length (Facts.content fact) < 200)%nat
  /\ suggested_tags fact = extractTagsFromContent (Facts.content fact) query
  /\ (exists label, source_context fact = label ++ dquote ++ query ++ dquote)
  /\ ((confidence fact = 8 # 10)
      \/ (confidence fact = 7 # 10 /\ (20 < String.length (Facts.content fact))%nat)
      \/ (confidence fact = 6 # 10 /\ (25 < String.length (Facts.content fact))%nat)).
Proof.
  intros Hin. apply extract_subset, allFacts_cases in Hin
    as (text & conf & label & lo & -> & _ & Hlen & Hcase).
  cbn [Facts.content suggested_tags source_context confidence mkFact].
  split; [|split; [done|split; [by exists label|]]].
  - destruct Hcase as [(_ & -> & _)|[(_ & -> & _)|[(_ & -> & _)|(_ & -> & _)]]]; lia.
  - destruct Hcase as [(-> & _ & _)|[(-> & -> & _)|[(-> & -> & _)|(-> & -> & _)]]].
    + by left.
    + right. left. split; [done|lia].
    + right. right. split; [done|lia].
    + right. right. split; [done|lia].
Qed.

Lemma X15_fact_shape_witness :
  let fact := mkFact "34% increase in completion rates" (8 # 10)
                     "Statistical information from: " percentageQuery in
  (10 < String.length (Facts.content fact) < 200)%nat
  /\ suggested_tags fact = extractTagsFromContent (Facts.content fact) percentageQuery
  /\ (exists label, source_context fact = label ++ dquote ++ percentageQuery ++ dquote)
  /\ ((confidence fact = 8 # 10)
      \/ (confidence fact = 7 # 10 /\ (20 < String.length (Facts.content fact))%nat)
      \/ (confidence fact = 6 # 10 /\ (25 < String.length (Facts.content fact))%nat)).
Proof.
  apply (X15_fact_shape "The report describes a 34% increase in completion rates."
           percentageQuery (@nil Chunk)).
  vm_compute. by left.
Defined.

(** X16.  The content of every returned fact is a span of the answer text:
    the extractor never invents or rewrites text, it only cuts. *)
Theorem X16_fact_content_from_answer {C : Type} response query (chunks : list C) fact :
  In fact (extractFactsFromResponse response query chunks) ->
  occursIn (Facts.content fact) response.
Proof.
  intros Hin. apply extract_subset, allFacts_cases in Hin
    as (text & conf & label & lo & -> & Hocc & _). exact Hocc.
Qed.

Lemma X16_fact_content_from_answer_witness :
  occursIn "34% increase in completion rates"
           "The report describes a 34% increase in completion rates.".
Proof.
  apply (X16_fact_content_from_answer
           "The report describes a 34% increase in completion rates."
           percentageQuery (@nil Chunk)
           (mkFact "34% increase in completion rates" (8 # 10)
                   "Statistical information from: " percentageQuery)).
  vm_compute. by left.
Defined.

(** X17.  An answer of at most 10 characters, the empty answer included,
    yields no fact. *)
Theorem X17_short_answer_no_fact {C : Type} response query (chunks : list C) :
  (String.length response <= 10)%nat ->
  extractFactsFromResponse response query chunks = [].
Proof.
  apply short_answer_no_fact.
Qed.

Lemma X17_short_answer_no_fact_witness :
  extractFactsFromResponse "About 50%." percentageQuery (@nil Chunk) = [].
Proof.
  apply (X17_short_answer_no_fact "About 50%." percentageQuery (@nil Chunk)).
  vm_compute. lia.
Defined.

(** X18.  The clean-up of a statistical match, [replace] with the pattern
    that anchors runs of non-word characters at either end, removes exactly
    the leading and the trailing run: the text is the result between two
    runs of non-word characters, and the result, if not empty, starts and
    ends with a word character. *)
Theorem X18_edge_cleanup s :
  exists lead trail,
    s = lead ++ removeAll false edgePattern s ++ trail
    /\ nonWordOnly lead = true
    /\ nonWordOnly trail = true
    /\ (forall c, firstChar (removeAll false edgePattern s) = Some c -> isWord c = true)
    /\ (forall c, lastChar (removeAll false edgePattern s) = Some c -> isWord c = true).
Proof.
  rewrite removeAll_edge.
  destruct (stripTail_trail (skipRun false (CNot CWord) s)) as (trail & Htrail & Hnw).
  exists (takeRun false (CNot CWord) s), trail.
  split; [|split; [apply takeRun_all|split; [done|split]]].
  - rewrite <- Htrail. apply takeRun_skipRun.
  - intros c Hc. apply stripTail_first in Hc. by eapply skipRun_first.
  - intros c. apply stripTail_last.
Qed.

Import Answer Handler AnswerProofs HandlerMore.

(** X19.  Generating a response issues exactly one provider call, which
    carries the system instruction built from the chunks; when that call
    fails there is no retry and no switch to the other provider, and the
    error raised is always [Failed to generate response]. *)
Theorem X19_single_provider_call p query chunks model history e :
  (exists ev,
      trace (generateResponse p query chunks model history e) = [ev]
      /\ isProviderCall ev = true
      /\ systemOf ev = Some (systemPrompt chunks e))
  /\ forall msg,
       value (generateResponse p query chunks model history e) = Thrown msg ->
       msg = "Failed to generate response".
Proof.
  rewrite generateResponse_unfold. split.
  - apply complete_call.
  - intros msg. simpl. destruct (value (complete _ _ _ _)); [done|]. by intros [= <-].
Qed.

(** X20.  Anthropic is called exactly when the requested model is the
    string [anthropic] and an Anthropic key is configured; every other
    request, whatever its model string, is served by OpenAI. *)
Theorem X20_provider_selection p query chunks model history e :
  existsb isAnthropicCall (trace (generateResponse p query chunks model history e))
  = String.eqb model "anthropic" && truthy (ANTHROPIC_API_KEY p)
  /\ existsb isOpenAICall (trace (generateResponse p query chunks model history e))
     = negb (String.eqb model "anthropic" && truthy (ANTHROPIC_API_KEY p)).
Proof.
  rewrite generateResponse_unfold. simpl. unfold complete.
  by destruct (String.eqb model "anthropic" && truthy (ANTHROPIC_API_KEY p)).
Qed.

(** X21.  On the Anthropic path the system instruction travels as the
    system parameter, and the messages are those of the last four history
    entries that do not have role [system], followed by the user's query,
    each reduced to its role and content: nothing that is sent has role
    [system] or carries another property of a history entry. *)
Theorem X21_anthropic_conversation p query chunks history e :
  truthy (ANTHROPIC_API_KEY p) = true ->
  exists messages,
    trace (generateResponse p query chunks "anthropic" history e)
    = [AnthropicCall (systemPrompt chunks e) messages]
    /\ messages
       = (map (fun m => {| role := role m; text := text m; others := [] |})
              (List.filter notSystem (lastFour history))
          ++ [{| role := "user"; text := query; others := [] |}])%list
    /\ forallb notSystem messages = true
    /\ Forall (fun m => others m = []) messages.
Proof.
  intros Hkey. rewrite generateResponse_unfold. simpl. unfold complete.
  rewrite Hkey. simpl. eexists. split; [reflexivity|]. split; [|split].
  - rewrite List.filter_app, map_app. reflexivity.
  - apply forallb_forall. intros m Hm. apply in_map_iff in Hm as (m0 & <- & Hm).
    by apply filter_In in Hm as [_ Hm].
  - apply Forall_forall. intros m Hm. apply list_elem_of_In in Hm.
    by apply in_map_iff in Hm as (m0 & <- & _).
Qed.

Lemma X21_anthropic_conversation_witness :
  exists messages,
    trace (generateResponse
             {| ANTHROPIC_API_KEY := Some "sk-ant";
                anthropicCreate := fun _ _ => Returned [TextBlock "Hello."];
                openaiCreate := fun _ => Thrown "unused" |}
             "What changed?" [] "anthropic"
             [{| role := "user"; text := "Hi"; others := [("id", "1")] |};
              {| role := "system"; text := "Be brief"; others := [] |};
              {| role := "assistant"; text := "Hello"; others := [("id", "2")] |}]
             None)
    = [AnthropicCall (systemPrompt [] None) messages]
    /\ messages
       = [{| role := "user"; text := "Hi"; others := [] |};
          {| role := "assistant"; text := "Hello"; others := [] |};
          {| role := "user"; text := "What changed?"; others := [] |}].
Proof.
  destruct (X21_anthropic_conversation
              {| ANTHROPIC_API_KEY := Some "sk-ant";
                 anthropicCreate := fun _ _ => Returned [TextBlock "Hello."];
                 openaiCreate := fun _ => Thrown "unused" |}
              "What changed?" []
              [{| role := "user"; text := "Hi"; others := [("id", "1")] |};
               {| role := "system"; text := "Be brief"; others := [] |};
               {| role := "assistant"; text := "Hello"; others := [("id", "2")] |}]
              None) as (messages & Htrace & Hmessages & _).
  - reflexivity.
  - exists messages. split; [exact Htrace|]. rewrite Hmessages. reflexivity.
Defined.

(** X22.  The messages built for a provider are the system instruction,
    then the last [min 4 n] of the [n] history entries in their order, then
    the user's query: never more than six messages. *)
Theorem X22_history_window query chunks history e :
  exists older recent,
    history = (older ++ recent)%list
    /\ length recent = Nat.min 4 (length history)
    /\ messagesOf query chunks history e
       = ({| role := "system"; text := systemPrompt chunks e; others := [] |}
          :: recent ++ [{| role := "user"; text := query; others := [] |}])%list
    /\ (length (messagesOf query chunks history e) <= 6)%nat.
Proof.
  destruct (lastFour_window history) as [Hlen [older Holder]].
  exists older, (lastFour history). split; [done|]. split; [done|]. split; [done|].
  unfold messagesOf. cbn [length]. rewrite length_app, Hlen. cbn [length]. lia.
Qed.

(** X23.  When OpenAI is the provider and answers without content, the
    response has an empty answer and no extractable fact, and still cites
    every chunk it was given. *)
Theorem X23_empty_completion p query chunks model history e :
  String.eqb model "anthropic" && truthy (ANTHROPIC_API_KEY p) = false ->
  openaiCreate p (messagesOf query chunks history e) = Returned None ->
  exists response,
    value (generateResponse p query chunks model history e) = Returned response
    /\ answer response = ""
    /\ extractable_facts response = []
    /\ citations response = map citationOf chunks.
Proof.
  intros Hpath Hreply. rewrite generateResponse_unfold. simpl. unfold complete.
  rewrite Hpath. simpl. rewrite Hreply. eexists. split; [reflexivity|]. simpl.
  split; [done|]. split; [|done]. apply short_answer_no_fact. simpl. lia.
Qed.

Lemma X23_empty_completion_witness :
  exists response,
    value (generateResponse
             {| ANTHROPIC_API_KEY := None;
                anthropicCreate := fun _ _ => Thrown "unused";
                openaiCreate := fun _ => Returned None |}
             "What changed?" (map columns table42) "openai" [] None) = Returned response
    /\ answer response = ""
    /\ extractable_facts response = []
    /\ citations response = map citationOf (map columns table42).
Proof.
  apply (X23_empty_completion
           {| ANTHROPIC_API_KEY := None;
              anthropicCreate := fun _ _ => Thrown "unused";
              openaiCreate := fun _ => Returned None |}
           "What changed?" (map columns table42) "openai" [] None); reflexivity.
Defined.

(** X24.  A request without a message, or with an empty one, is answered
    with status 400 and [Message is required], and no external call is
    made: no embedding, no search, no language model. *)
Theorem X24_missing_message w request :
  truthy (message request) = false ->
  POST w request = ([], JsonError 400 "Message is required").
Proof.
  intros Hmsg. destruct (POST_cases w request) as [[_ H]|[H|H]]; [done| |].
  - destruct H as (c & m & H & _). by rewrite H in Hmsg.
  - destruct H as (c & m & v & H & _). by rewrite H in Hmsg.
Qed.

Lemma X24_missing_message_witness :
  POST worldUp {| message := Some ""; model := "openai"; history := [];
                  enable_intelligence := true; request_document_id := None;
                  selectedThemes := [] |}
  = ([], JsonError 400 "Message is required").
Proof.
  apply (X24_missing_message worldUp
           {| message := Some ""; model := "openai"; history := [];
              enable_intelligence := true; request_document_id := None;
              selectedThemes := [] |}).
  reflexivity.
Defined.

(** X25.  When the message is there and the embedding is computed, the
    calls of a request are, in order: the embedding call, one or more calls
    to candidate sources, and one call to a language model, the last. *)
Theorem X25_call_order w request c m embedding :
  message request = Some (String c m) ->
  embeddingsCreate w (String c m) = Some embedding ->
  exists adapters provider,
    trace (POST w request)
    = (EmbeddingCall (String c m) :: adapters ++ [provider])%list
    /\ adapters <> []
    /\ forallb isAdapterCall adapters = true
    /\ isProviderCall provider = true.
Proof.
  intros Hmsg Hemb. rewrite (POST_unfold w request c m embedding Hmsg Hemb). simpl.
  set (found := searchSimilarChunks _ _ _ _ _ _ _).
  destruct (search_adapters (supabase w) (airtable w) embedding 5 (Some (String c m))
              (request_document_id request) (selectedThemes request)) as [Hall Hne].
  match goal with
  | |- context [trace (generateResponse ?p ?q ?ch ?mo ?hi ?en)] =>
      destruct (complete_call p mo q ch hi en) as (ev & Hev & Hprov & _);
      rewrite (generateResponse_unfold p q ch mo hi en)
  end.
  simpl. rewrite Hev. by exists (trace found), ev.
Qed.

Lemma X25_call_order_witness :
  exists adapters provider,
    trace (POST worldUp (ask "What is hoodie economics?" "openai"))
    = (EmbeddingCall "What is hoodie economics?" :: adapters ++ [provider])%list
    /\ adapters <> []
    /\ forallb isAdapterCall adapters = true
    /\ isProviderCall provider = true.
Proof.
  apply (X25_call_order worldUp (ask "What is hoodie economics?" "openai")
           "W"%char "hat is hoodie economics?" [1 # 2; 1 # 3]); reflexivity.
Defined.

(** X26.  Every successful response cites at most five chunks, no chunk
    twice, holds at most three facts, echoes the requested model, and
    carries an enhancement exactly when intelligence was enabled. *)
Theorem X26_successful_response w request response :
  value (POST w request) = Json response ->
  (length (citations response) <= 5)%nat
  /\ NoDup (map cite_chunk_id (citations response))
  /\ (length (extractable_facts response) <= 3)%nat
  /\ model_used response = model request
  /\ (intelligence_enhancement response = None <-> enable_intelligence request = false).
Proof.
  destruct (POST_cases w request) as [[_ H]|[H|H]].
  - rewrite H. discriminate.
  - destruct H as (c & m & _ & _ & H). rewrite H. discriminate.
  - destruct H as (c & m & embedding & Hmsg & Hemb).
    rewrite (POST_unfold w request c m embedding Hmsg Hemb). simpl.
    set (found := value (searchSimilarChunks _ _ _ _ _ _ _)).
    match goal with
    | |- context [value (generateResponse ?p ?q ?ch ?mo ?hi ?en)] =>
        rewrite (generateResponse_unfold p q ch mo hi en)
    end.
    simpl. destruct (value (complete _ _ _ _)) as [txt|err]; [|discriminate].
    intros [= <-]. simpl. rewrite cited_ids, length_map.
    assert (Hfound : (length found <= 5)%nat /\ NoDup (map chunk_id found)).
    { unfold found.
      destruct (search_shape (supabase w) (airtable w) embedding 5 (Some (String c m))
                  (request_document_id request) (selectedThemes request)) as [->|[l ->]].
      - split; [simpl; lia|constructor].
      - split; [apply (merge_bounded 5)|apply merge_nodup]. }
    destruct Hfound as [Hlen Hnd].
    split; [done|]. split; [done|]. split.
    { unfold Facts.extractFactsFromResponse. rewrite length_take. lia. }
    split; [done|]. by destruct (enable_intelligence request).
Qed.

Lemma X26_successful_response_witness :
  exists response,
    value (POST worldUp (ask "What is hoodie economics?" "anthropic")) = Json response
    /\ (length (citations response) <= 5)%nat
    /\ NoDup (map cite_chunk_id (citations response))
    /\ (length (extractable_facts response) <= 3)%nat
    /\ model_used response = "anthropic"
    /\ (intelligence_enhancement response = None <-> true = false).
Proof.
  eexists. split; [vm_compute; reflexivity|].
  match goal with
  | |- context [citations ?r] =>
      apply (X26_successful_response worldUp (ask "What is hoodie economics?" "anthropic") r)
  end.
  vm_compute. reflexivity.
Defined.

(** X27.  An error response has one of two bodies: status 400 with [Message
    is required], only for a missing message, or status 500 with [Internal
    server error]; the text of an exception never reaches the caller. *)
Theorem X27_error_bodies w request status error :
  value (POST w request) = JsonError status error ->
  (status = 400%nat /\ error = "Message is required" /\ truthy (message request) = false)
  \/ (status = 500%nat /\ error = "Internal server error"
      /\ truthy (message request) = true).
Proof.
  destruct (POST_cases w request) as [[Hmsg H]|[H|H]].
  - rewrite H. intros [= <- <-]. by left.
  - destruct H as (c & m & Hmsg & _ & H). rewrite H, Hmsg. intros [= <- <-]. by right.
  - destruct H as (c & m & embedding & Hmsg & Hemb).
    rewrite (POST_unfold w request c m embedding Hmsg Hemb), Hmsg. simpl.
    destruct (value (generateResponse _ _ _ _ _ _)); [discriminate|].
    intros [= <- <-]. by right.
Qed.

Lemma X27_error_bodies_witness :
  (500%nat = 400%nat /\ "Internal server error" = "Message is required"
   /\ truthy (message (ask "What is hoodie economics?" "openai")) = false)
  \/ (500%nat = 500%nat /\ "Internal server error" = "Internal server error"
      /\ truthy (message (ask "What is hoodie economics?" "openai")) = true).
Proof.
  apply (X27_error_bodies worldGenerationDown (ask "What is hoodie economics?" "openai")
           500%nat "Internal server error").
  vm_compute. reflexivity.
Defined.

Import AdapterMore ThemeScenario.

(** X28.  For a request with selected themes and no document scope whose
    query does not trigger the direct match, when the theme-filtered adapter
    finds chunks, every result is one of them: it carries the fixed
    similarity 0.8 and the tag [theme_filtered], and belongs to a catalog
    document one of whose theme names is selected. *)
Theorem X28_theme_results db at_ embedding limit query documentId theme themes chunk :
  truthy documentId = false ->
  includes (toLowerCase query) "hoodie" && includes (toLowerCase query) "economics" = false ->
  value (themeFiltered db at_ (theme :: themes)) <> [] ->
  chunk ∈ value (searchSimilarChunks db at_ embedding limit (Some query) documentId
                   (theme :: themes)) ->
  similarity chunk = Some (8 # 10)
  /\ match_type chunk = Some "theme_filtered"
  /\ exists documents catalogThemes doc,
       fetchDocuments at_ = FetchRecords documents
       /\ fetchThemes at_ = FetchRecords catalogThemes
       /\ In doc documents
       /\ matchesThemes (themeMapOf catalogThemes) (theme :: themes) doc = true
       /\ document_id chunk = doc_id doc.
Proof.
  intros Hdoc Hidle Hfound. unfold searchSimilarChunks. rewrite Hdoc.
  rewrite !value_bind, gather_value, (directMatch_idle db (Some query)) by (by right).
  simpl. rewrite app_nil_r.
  destruct (value (themeFiltered db at_ (theme :: themes))) as [|c0 cs] eqn:Hthemed; [done|].
  simpl. intros Hin. apply merge_subset in Hin. rewrite <- Hthemed in Hin.
  by apply themeFiltered_value in Hin.
Qed.

Lemma X28_theme_results_witness :
  let chunk := tagged (8 # 10) "theme_filtered"
                      (columns (row "c42-3" "doc_42" "Annual Report" 3 "third")) in
  similarity chunk = Some (8 # 10)
  /\ match_type chunk = Some "theme_filtered"
  /\ exists documents catalogThemes doc,
       fetchDocuments catalog = FetchRecords documents
       /\ fetchThemes catalog = FetchRecords catalogThemes
       /\ In doc documents
       /\ matchesThemes (themeMapOf catalogThemes) ["Education"] doc = true
       /\ document_id chunk = doc_id doc.
Proof.
  apply (X28_theme_results store42 catalog [] 5 "What do students learn?" None
           "Education" []).
  - reflexivity.
  - reflexivity.
  - vm_compute. discriminate.
  - apply list_elem_of_In. vm_compute. by left.
Defined.

(** X29.  The direct match contributes at most two chunks, all of them rows
    titled [Hoodie Economics] re-scored 0.95 and tagged [direct_match]; it
    queries the store exactly when the lower-cased query contains both
    [hoodie] and [economics]. *)
Theorem X29_direct_match db query :
  (length (value (directMatch db (Some query))) <= 2)%nat
  /\ (forall c, c ∈ value (directMatch db (Some query)) ->
        document_title c = "Hoodie Economics"
        /\ similarity c = Some (95 # 100)
        /\ match_type c = Some "direct_match"
        /\ exists row, row ∈ document_chunks db /\ chunk_id c = chunk_id row)
  /\ trace (directMatch db (Some query))
     = if includes (toLowerCase query) "hoodie" && includes (toLowerCase query) "economics"
       then [SupabaseSelect (QTitle "Hoodie Economics")] else [].
Proof.
  split; [apply directMatch_length|]. split; [apply directMatch_value|].
  unfold directMatch. destruct query as [|x q]; [done|].
  destruct (_ && _); [|done]. simpl. by destruct (fails db _).
Qed.

(** X30.  Merging is idempotent: a result set handed to the merger again,
    with the same limit, comes back unchanged. *)
Theorem X30_merge_idempotent limit allResults :
  merge limit (merge limit allResults) = merge limit allResults.
Proof. apply merge_idempotent. Qed.

End Extra.
